(** * Argument.js: type casting and prompting of command arguments

    A shallow embedding of [src/struct/Argument.js] (class [Argument]:
    [process], [cast], [collect] with its inner [getText] and [promptOne]),
    followed by the properties the specification states about it.

    Conventions of the embedding.
    - JavaScript strings are [string]; [String.prototype.toLowerCase] and
      [String.prototype.trim] are parameters of the development (section
      variables), so every generic theorem holds for any such functions.
    - An [async] function is a function into [outcome]: it resolves, it
      rejects with a thrown value, or it stays unsettled in the modelled run.
    - The handler's registry, the [args] object, the [values] array and the
      log of calls into the transport and into user callbacks are threaded
      explicitly in a [state].
    - Inbound traffic is a script: one [window] per [awaitMessages] call.
    - The functions a user supplies (type, default, match and prompt text
      functions) are functions of their arguments; type and default
      functions may return a value or a promise, or throw. The log keeps
      the [args] each of them was given. *)

From Stdlib Require Import Ascii String.
From stdpp Require Import gmap strings list.

Open Scope string_scope.
Open Scope list_scope.
Open Scope nat_scope.
#[local] Set Warnings "-register-all".

(* ------------------------------------------------------------------ *)
(** ** Messages, values, thrown values *)

(** A discord.js [Message], reduced to the properties Argument.js reads:
    [m.id], [m.author.id], [m.channel.id] and [m.content]. *)
Record Message := mkMessage {
  msg_id : string;
  msg_author : string;
  msg_channel : string;
  msg_content : string
}.

(** The array a successful [RegExp.prototype.exec] returns: element 0 is the
    matched text, the rest are the capture groups; [index] is where the
    match starts. *)
Record exec_result := mkExec {
  m_index : nat;
  m_text : string;
  m_groups : list (option string)
}.

Inductive jsval :=
| VUndefined
| VNull
| VBool (b : bool)
| VNumber (n : Z)
| VString (s : string)
| VArray (l : list jsval)
| VExec (r : exec_result)
| VObject (fields : list (string * jsval)).

(** [v == null]: [null] or [undefined]. *)
Definition nullish (v : jsval) : bool :=
  match v with
  | VUndefined | VNull => true
  | _ => false
  end.

(** What a [throw] or a rejected promise carries. [err instanceof Error]
    holds of [ThError] only; [ThTime] is the (empty) Collection that
    [awaitMessages] rejects with under [errors: ['time']]. *)
Inductive thrown :=
| ThError (msg : string)
| ThCancelled
| ThTime
| ThValue (v : jsval).

Definition instanceof_Error (e : thrown) : bool :=
  match e with
  | ThError _ => true
  | _ => false
  end.

Definition is_COMMAND_CANCELLED (e : thrown) : bool :=
  match e with
  | ThCancelled => true
  | _ => false
  end.

(** The settlement of an [async] call. [Looping]: a [while] loop ran out of
    the fuel it was given. [Waiting]: the call awaits a reply the script of
    inbound windows does not contain. *)
Inductive outcome (A : Type) :=
| Resolved (a : A)
| Thrown (e : thrown)
| Looping
| Waiting.
Arguments Resolved {A} a.
Arguments Thrown {A} e.
Arguments Looping {A}.
Arguments Waiting {A}.

(** What a call of a user-supplied function gives back. *)
Inductive settled := Fulfilled (v : jsval) | Rejected (e : thrown).
Inductive returned := Value (v : jsval) | Promise (p : settled).
Inductive fn_result := Returns (r : returned) | Raises (e : thrown).

(** Modelled from the spec: [isPromise] of [util/Util], which is not among
    the sources; the casting and default functions return a value "or a
    Promise", and [isPromise] tells the two apart. *)
Definition isPromise (r : returned) : bool :=
  match r with
  | Promise _ => true
  | Value _ => false
  end.

(** [await res] *)
Definition await (r : returned) : outcome jsval :=
  match r with
  | Value v => Resolved v
  | Promise (Fulfilled v) => Resolved v
  | Promise (Rejected e) => Thrown e
  end.

(** [let res = f(...); if (isPromise(res)) res = await res;] [res] is then
    the value the call returned, or the one its promise resolved to. *)
Definition call_then_await (r : fn_result) : outcome jsval :=
  match r with
  | Raises e => Thrown e
  | Returns res =>
      if isPromise res then await res
      else match res with
           | Value v => Resolved v
           | Promise _ => await res
           end
  end.

(* ------------------------------------------------------------------ *)
(** ** Regular expressions

    A [RegExp] is its [global] flag and its matcher: [re_matcher re s i]
    tells whether the pattern matches [s] starting exactly at index [i],
    and then gives the length of the match and the capture groups. The
    other flags (sticky, unicode) are not modelled. [lastIndex], the
    mutable property of the object, is passed in and out of every call. *)

Record RegExp := mkRegExp {
  re_global : bool;
  re_matcher : string -> nat -> option (nat * list (option string))
}.

(** The scan of [RegExpBuiltinExec]: try index [i], then [i+1], ... for
    [k] indices. *)
Fixpoint search (re : RegExp) (s : string) (i k : nat)
  : option (nat * nat * list (option string)) :=
  match k with
  | 0 => None
  | S k' =>
      match re_matcher re s i with
      | Some (n, groups) => Some (i, n, groups)
      | None => search re s (S i) k'
      end
  end.

(** [re.exec(s)] with [re.lastIndex = lastIndex]: the result ([None] for
    [null]) and the new [lastIndex]. A non-global pattern scans from 0 and
    leaves [lastIndex] alone; a global one scans from [lastIndex], sets it
    to the end of the match, and resets it to 0 on failure. *)
Definition exec (re : RegExp) (s : string) (lastIndex : nat)
  : option exec_result * nat :=
  let start := if re_global re then lastIndex else 0 in
  let failed := if re_global re then 0 else lastIndex in
  if String.length s <? start then (None, failed)
  else
    match search re s start (String.length s - start + 1) with
    | None => (None, failed)
    | Some (i, n, groups) =>
        (Some (mkExec i (String.substring i n s) groups),
         if re_global re then i + n else lastIndex)
    end.

(** The loop of [RegExp.prototype[Symbol.match]] for a global pattern: it
    collects the matched texts and steps over an empty match. *)
Fixpoint match_global (fuel : nat) (re : RegExp) (s : string)
  (lastIndex : nat) (A : list string) : option (list string) * nat :=
  match fuel with
  | 0 => (match A with [] => None | _ => Some A end, lastIndex)
  | S fuel' =>
      match exec re s lastIndex with
      | (None, li) => (match A with [] => None | _ => Some A end, li)
      | (Some r, li) =>
          match_global fuel' re s
            (if String.eqb (m_text r) "" then S li else li)
            (A ++ [m_text r])
      end
  end.

(** [s.match(re)]: for a global pattern the array of all matched texts
    (scanning restarts at 0), otherwise the result of [exec]. *)
Definition String_match (re : RegExp) (s : string) (lastIndex : nat)
  : option jsval * nat :=
  if re_global re then
    match match_global (String.length s + 2) re s 0 [] with
    | (None, li) => (None, li)
    | (Some A, li) => (Some (VArray (map VString A)), li)
    end
  else
    match exec re s lastIndex with
    | (None, li) => (None, li)
    | (Some r, li) => (Some (VExec r), li)
    end.

(** [while ((matched = this.type.exec(word)) != null) matches.push(matched);]
    [None] when [fuel] iterations do not end the loop. *)
Fixpoint exec_loop (fuel : nat) (re : RegExp) (word : string)
  (lastIndex : nat) (matches : list exec_result)
  : option (list exec_result * nat) :=
  match fuel with
  | 0 => None
  | S fuel' =>
      match exec re word lastIndex with
      | (None, li) => Some (matches, li)
      | (Some matched, li) => exec_loop fuel' re word li (matches ++ [matched])
      end
  end.

(** The object literal [{ match, matches }]. *)
Definition match_object (m : jsval) (matches : list exec_result) : jsval :=
  VObject [("match", m); ("matches", VArray (map VExec matches))].

(** The [this.type instanceof RegExp] branch of [cast]. *)
Definition cast_regexp (fuel : nat) (re : RegExp) (word : string)
  (lastIndex : nat) : option (jsval * nat) :=
  match String_match re word lastIndex with
  | (None, li) => Some (VNull, li)
  | (Some m, li) =>
      if re_global re then
        match exec_loop fuel re word li [] with
        | None => None
        | Some (matches, li') => Some (match_object m matches, li')
        end
      else Some (match_object m [], li)
  end.

(* ------------------------------------------------------------------ *)
(** ** Argument options *)

(** [ArgumentMatches] of [util/Constants]. *)
Inductive ArgumentMatch :=
| WORD | REST | SEPARATE | PREFIX | FLAG | TEXT | CONTENT | NONE.

Definition is_SEPARATE (m : ArgumentMatch) : bool :=
  match m with
  | SEPARATE => true
  | _ => false
  end.

Inductive match_option :=
| MatchIs (m : ArgumentMatch)
| MatchFn (f : Message -> gmap string jsval -> ArgumentMatch).

(** An entry of an array type: a string, or an inner array of aliases. *)
Inductive entry :=
| Single (s : string)
| Aliases (l : list string).

(** [ArgumentTypeFunction] *)
Definition type_fn : Type := string -> Message -> gmap string jsval -> fn_result.

(** [ArgumentType | ArgumentTypeFunction]: an array of entries, a function,
    a regular expression, or the name of a type. *)
Inductive ArgumentType :=
| TypeArray (entries : list entry)
| TypeFunction (f : type_fn)
| TypeRegExp (re : RegExp)
| TypeName (name : string).

(** Prompt text: a string, an array of strings, a [MessageOptions] object
    (opaque here), or [undefined]. *)
Inductive text :=
| TextUndefined
| TextString (s : string)
| TextLines (l : list string)
| TextOptions (o : string).

(** [ArgumentPromptData] *)
Record ArgumentPromptData := mkData {
  data_retries : nat;
  data_infinite : bool;
  data_message : Message;
  data_word : string
}.

(** [string | string[] | ArgumentPromptFunction] *)
Inductive text_option :=
| TextIs (t : text)
| TextFn (f : Message -> gmap string jsval -> ArgumentPromptData -> text).

(** [limit]: a number of inputs, or [Infinity]. *)
Inductive bound := Finite (n : nat) | Infinity.

(** [len < limit] *)
Definition below (len : nat) (limit : bound) : bool :=
  match limit with
  | Finite n => len <? n
  | Infinity => true
  end.

(** [ArgumentPromptOptions] with every option present: the object
    [prompt] that [collect] works with. *)
Record ArgumentPromptOptions := mkPrompt {
  retries : nat;
  time : N;
  cancelWord : string;
  stopWord : string;
  optional : bool;
  infinite : bool;
  limit : bound;
  start : text_option;
  retry : text_option;
  timeout : text_option;
  ended : text_option;
  cancel : text_option
}.

(** [ArgumentPromptOptions] as an object literal gives them: any option may
    be absent. *)
Record PromptLiteral := mkLiteral {
  lit_retries : option nat;
  lit_time : option N;
  lit_cancelWord : option string;
  lit_stopWord : option string;
  lit_optional : option bool;
  lit_infinite : option bool;
  lit_limit : option bound;
  lit_start : option text_option;
  lit_retry : option text_option;
  lit_timeout : option text_option;
  lit_ended : option text_option;
  lit_cancel : option text_option
}.

(** [{}] *)
Definition empty_literal : PromptLiteral :=
  mkLiteral None None None None None None None None None None None None.

(** [Object.assign(prompt, o)]: the properties [o] has replace those of
    [prompt]. *)
Definition assign (prompt : ArgumentPromptOptions) (o : PromptLiteral)
  : ArgumentPromptOptions :=
  {| retries := default (retries prompt) (lit_retries o);
     time := default (time prompt) (lit_time o);
     cancelWord := default (cancelWord prompt) (lit_cancelWord o);
     stopWord := default (stopWord prompt) (lit_stopWord o);
     optional := default (optional prompt) (lit_optional o);
     infinite := default (infinite prompt) (lit_infinite o);
     limit := default (limit prompt) (lit_limit o);
     start := default (start prompt) (lit_start o);
     retry := default (retry prompt) (lit_retry o);
     timeout := default (timeout prompt) (lit_timeout o);
     ended := default (ended prompt) (lit_ended o);
     cancel := default (cancel prompt) (lit_cancel o) |}.

(** The properties of the command handler that Argument.js reads.
    Modelled from the spec: [handler.defaultPrompt] of the handler (not
    among the sources) carries every option, with the defaults the typedef
    [ArgumentPromptOptions] documents; [handler.resolver.type(name)] looks
    a type name up in the registry of casting functions. *)
Record CommandHandler := mkHandler {
  h_defaultPrompt : ArgumentPromptOptions;
  h_commandUtil : bool;
  h_resolver : string -> option type_fn
}.

(** [command.defaultPrompt] *)
Record Command := mkCommand {
  c_defaultPrompt : PromptLiteral
}.

(** The fields of an [Argument] that [process], [cast] and [collect] read. *)
Record Argument := mkArgument {
  arg_id : string;
  arg_match : match_option;
  arg_type : ArgumentType;
  arg_prompt : option PromptLiteral;
  arg_default : Message -> gmap string jsval -> fn_result
}.

(* ------------------------------------------------------------------ *)
(** ** The world around a prompt *)

Inductive send_target := ViaUtil | ViaChannel.

(** What the log records, in the order it happens: [Turn retryCount] is a
    call of [promptOne] with that [retryCount]; the others are calls that
    leave the engine, to the transport, to the command's [util] and to the
    functions a user supplies, with the [args] those are given. *)
Inductive event :=
| Turn (retryCount : nat)
| CallText (args : gmap string jsval) (data : ArgumentPromptData)
| CallSend (via : send_target) (t : text)
| SetShouldEdit
| SetLastResponse (sent : Message)
| CallAwait (time : N)
| CallCast (word : string) (m : Message) (args : gmap string jsval)
| CallDefault (m : Message) (args : gmap string jsval).

(** The answer of the transport to a [send]. *)
Inductive send_answer :=
| Sent (m : Message)
| SendFails (e : thrown).

(** What the channel delivers while one [awaitMessages] call is pending:
    the messages that arrive within [time], or a failure of the call. *)
Inductive window :=
| Arrivals (ms : list Message)
| AwaitFails (e : thrown).

(** The mutable state the engine works on.
    - [prompts]: the handler's registry of active prompts.
    - [args]: the own properties of the [args] object.
    - [values]: the array [values] of [collect] with the property of
      [args] that refers to it ([args[this.id] = values]); [None] for
      [null]. The array is shared: what is pushed to [values] is seen
      through [args] (see [snapshot]).
    - [log]: the calls made so far. *)
Record state := mkState {
  prompts : gset (string * string);
  args : gmap string jsval;
  values : option (string * list jsval);
  log : list event
}.

Definition emit (e : event) (st : state) : state :=
  {| prompts := prompts st; args := args st; values := values st;
     log := log st ++ [e] |}.

(** Modelled from the spec: the active-prompt tracker of the handler (not
    among the sources), a registry keyed by the originating user and
    channel with [register] and [deregister]. *)
Definition addPrompt (message : Message) (st : state) : state :=
  {| prompts := {[ (msg_author message, msg_channel message) ]} ∪ prompts st;
     args := args st; values := values st; log := log st |}.

Definition removePrompt (message : Message) (st : state) : state :=
  {| prompts := prompts st ∖ {[ (msg_author message, msg_channel message) ]};
     args := args st; values := values st; log := log st |}.

Definition hasPrompt (message : Message) (st : state) : Prop :=
  (msg_author message, msg_channel message) ∈ prompts st.

(** What [args] holds when a callback reads it: the property that refers
    to [values] shows the current elements of the array. *)
Definition snapshot (st : state) : gmap string jsval :=
  match values st with
  | Some (id, vs) => <[id := VArray vs]> (args st)
  | None => args st
  end.

(** The elements of [values]. [collect] makes [values] an array exactly
    when [isInfinite] holds, and its inner functions touch [values] only
    then. *)
Definition elements_of_values (st : state) : list jsval :=
  match values st with
  | Some (_, vs) => vs
  | None => []
  end.

(** [values.push(v)] *)
Definition push (v : jsval) (st : state) : state :=
  {| prompts := prompts st; args := args st;
     values := match values st with
               | Some (id, vs) => Some (id, vs ++ [v])
               | None => None
               end;
     log := log st |}.

(** [values.length] *)
Definition values_length (st : state) : nat :=
  length (elements_of_values st).

(** [const values = isInfinite ? [] : null; if (isInfinite) args[id] = values;]
    An array left by an earlier call stays in [args] as it is. *)
Definition init_values (id : string) (isInfinite : bool) (st : state) : state :=
  {| prompts := prompts st; args := snapshot st;
     values := if isInfinite then Some (id, []) else None; log := log st |}.

(** The line feed that [join] puts between lines. *)
Definition LF : string := String (Ascii.ascii_of_nat 10) EmptyString.

(** Truth of a string, [Boolean(s)]. *)
Definition nonempty (s : string) : bool := negb (String.eqb s "").

(** Truth of an optional string parameter such as [commandInput]. *)
Definition truthy_input (commandInput : option string) : bool :=
  match commandInput with
  | Some s => nonempty s
  | None => false
  end.

(** Truth of a resolved prompt text. *)
Definition truthy_text (t : text) : bool :=
  match t with
  | TextUndefined => false
  | TextString s => nonempty s
  | TextLines _ => true
  | TextOptions _ => true
  end.

(** [awaitMessages(filter, { max: 1, time, errors: ['time'] })] followed by
    [.first()]: the first arrival the filter lets through, or the rejection
    on time. *)
Definition awaitMessages (filter : Message -> bool) (w : window)
  : outcome Message :=
  match w with
  | AwaitFails e => Thrown e
  | Arrivals ms =>
      match find filter ms with
      | Some m => Resolved m
      | None => Thrown ThTime
      end
  end.

Section Engine.

(** [String.prototype.toLowerCase] and [String.prototype.trim]. *)
Variable toLowerCase : string -> string.
Variable trim : string -> string.

(** The transport: its answer to a [send], given the calls made so far. *)
Variable transport : list event -> text -> send_answer.

(** Iterations granted to the [while] loop of [cast]. *)
Variable fuel : nat.

Variable handler : CommandHandler.
Variable command : Command.
Variable this : Argument.

(** [a.toLowerCase() === b.toLowerCase()] *)
Definition same_word (a b : string) : bool :=
  String.eqb (toLowerCase a) (toLowerCase b).

(** The [Array.isArray(this.type)] branch of [cast]: the loop over the
    entries. *)
Fixpoint cast_entries (entries : list entry) (word : string) : jsval :=
  match entries with
  | [] => VNull
  | Aliases l :: rest =>
      if existsb (fun t => same_word t word) l
      then match l with
           | t0 :: _ => VString t0
           | [] => VUndefined
           end
      else cast_entries rest word
  | Single e :: rest =>
      if same_word e word then VString e else cast_entries rest word
  end.

(** [let res = f(word, message, args); if (isPromise(res)) res = await res;
     if (res != null) return res; return null;] *)
Definition cast_fn (f : type_fn) (word : string) (message : Message)
  (args : gmap string jsval) : outcome jsval :=
  match call_then_await (f word message args) with
  | Resolved res => if nullish res then Resolved VNull else Resolved res
  | r => r
  end.

(** [async cast(word, message, args)] *)
Definition cast (word : string) (message : Message)
  (args : gmap string jsval) : outcome jsval :=
  match arg_type this with
  | TypeArray entries => Resolved (cast_entries entries word)
  | TypeFunction f => cast_fn f word message args
  | TypeRegExp re =>
      match cast_regexp fuel re word 0 with
      | Some (v, _) => Resolved v
      | None => Looping
      end
  | TypeName name =>
      match h_resolver handler name with
      | Some f => cast_fn f word message args
      | None => if nonempty word then Resolved (VString word)
                else Resolved VNull
      end
  end.

(** [this.default(message, args)], awaited when it is a promise. *)
Definition resolve_default (message : Message) (st : state)
  : outcome jsval * state :=
  (call_then_await (arg_default this message (snapshot st)),
   emit (CallDefault message (snapshot st)) st).

Section Collect.

(** The variables of [collect] its inner functions close over. *)
Variable message : Message.
Variable commandInput : option string.
Variable prompt : ArgumentPromptOptions.
Variable isInfinite : bool.

(** [if (Array.isArray(textOption)) textOption = textOption.join('\n');] *)
Definition joined (textOption : text) : text :=
  match textOption with
  | TextLines l => TextString (String.concat LF l)
  | t => t
  end.

(** [getText(textOption, retryCount, inputMessage, inputWord)] *)
Definition getText (textOption : text_option) (retryCount : nat)
  (inputMessage : Message) (inputWord : string) (st : state) : text * state :=
  match textOption with
  | TextFn f =>
      let data := mkData retryCount isInfinite inputMessage inputWord in
      (joined (f message (snapshot st) data),
       emit (CallText (snapshot st) data) st)
  | TextIs t => (joined t, st)
  end.

(** [(message.util || message.channel)]: the handler gives a message its
    [util] exactly when [handler.commandUtil] is set. *)
Definition util_or_channel : send_target :=
  if h_commandUtil handler then ViaUtil else ViaChannel.

(** [await target.send(t)] *)
Definition send (via : send_target) (t : text) (st : state)
  : outcome Message * state :=
  match transport (log st) t with
  | Sent m => (Resolved m, emit (CallSend via t) st)
  | SendFails e => (Thrown e, emit (CallSend via t) st)
  end.

(** [retryCount === 1 ? !isInfinite || (isInfinite && !values.length) : true] *)
Definition shouldSend (retryCount : nat) (st : state) : bool :=
  if retryCount =? 1
  then negb isInfinite || (isInfinite && (values_length st =? 0))
  else true.

(** [Number(Boolean(commandInput))] *)
Definition Number_Boolean_commandInput : nat :=
  if truthy_input commandInput then 1 else 0.

(** [prevInput] of [promptOne]. *)
Definition prevInput (prevMessage : Message) (retryCount : nat) : string :=
  if retryCount <=? 1 + Number_Boolean_commandInput
  then match commandInput with
       | Some s => if nonempty s then s else ""
       | None => ""
       end
  else msg_content prevMessage.

(** The part of [promptOne] before [try]: the prompt text is resolved and
    sent. Gives [sent], [None] for [undefined]. *)
Definition send_prompt (prevMessage : Message) (retryCount : nat) (st : state)
  : outcome (option Message) * state :=
  if shouldSend retryCount st then
    let prompter := if retryCount =? 1 then start prompt else retry prompt in
    let '(startText, st) :=
      getText prompter retryCount prevMessage
        (prevInput prevMessage retryCount) st in
    if truthy_text startText then
      match send util_or_channel startText st with
      | (Resolved sent, st) =>
          (Resolved (Some sent),
           if h_commandUtil handler
           then emit (SetLastResponse sent) (emit SetShouldEdit st)
           else st)
      | (Thrown e, st) => (Thrown e, st)
      | (Looping, st) => (Looping, st)
      | (Waiting, st) => (Waiting, st)
      end
    else (Resolved None, st)
  else (Resolved None, st).

(** The filter handed to [awaitMessages]. *)
Definition reply_filter (sent : option Message) (m : Message) : bool :=
  if match sent with
     | Some s => String.eqb (msg_id m) (msg_id s)
     | None => false
     end
  then false
  else if negb (String.eqb (msg_author m) (msg_author message)) then false
  else true.

(** The state in which the reply is awaited: the call of [awaitMessages]
    is logged. *)
Definition awaiting (st : state) : state := emit (CallAwait (time prompt)) st.

(** The state in which the reply is cast: the call of [cast] is logged with
    the arguments it gets. *)
Definition casting (input : Message) (st : state) : state :=
  emit (CallCast (msg_content input) input (snapshot st)) st.

(** How the [try] block of one call of [promptOne] ends: with a [return] of
    a value, with [return promptOne(...)], whose promise is handed on
    without being awaited and so is out of reach of [catch], or with an
    exception for [catch]. *)
Inductive try_end :=
| ReturnValue (v : jsval)
| ReturnPromptOne (prevMessage : Message) (retryCount : nat)
| Unsettled (r : outcome jsval)
| Caught (err : thrown).

(** The [try] block of [promptOne], given the window of its
    [awaitMessages] call. *)
Definition try_block (w : window) (sent : option Message) (retryCount : nat)
  (st : state) : try_end * state :=
  let st := awaiting st in
  match awaitMessages (reply_filter sent) w with
  | Resolved input =>
      if same_word (msg_content input) (cancelWord prompt) then
        let '(cancelText, st) :=
          getText (cancel prompt) retryCount input "" st in
        match (if truthy_text cancelText
               then send ViaChannel cancelText st
               else (Resolved input, st)) with
        | (Thrown e, st) => (Caught e, st)
        | (_, st) => (Caught ThCancelled, removePrompt message st)
        end
      else if isInfinite && same_word (msg_content input) (stopWord prompt)
      then
        if values_length st =? 0
        then (ReturnPromptOne input (retryCount + 1), st)
        else (ReturnValue (VArray (elements_of_values st)), st)
      else
        let st := casting input st in
        match cast (msg_content input) input (snapshot st) with
        | Resolved parsedValue =>
            if nullish parsedValue
            then (ReturnPromptOne input (retryCount + 1), st)
            else if isInfinite then
              let st := push parsedValue st in
              if below (values_length st) (limit prompt)
              then (ReturnPromptOne message 1, st)
              else (ReturnValue (VArray (elements_of_values st)), st)
            else (ReturnValue parsedValue, st)
        | Thrown e => (Caught e, st)
        | r => (Unsettled r, st)
        end
  | Thrown e => (Caught e, st)
  | Looping => (Unsettled Looping, st)
  | Waiting => (Unsettled Waiting, st)
  end.

(** The [catch (err)] block of [promptOne]. *)
Definition catch_block (err : thrown) (prevMessage : Message)
  (retryCount : nat) (st : state) : outcome jsval * state :=
  if instanceof_Error err then (Thrown err, st)
  else if is_COMMAND_CANCELLED err then (Thrown err, st)
  else
    let '(timeoutText, st) :=
      getText (timeout prompt) retryCount prevMessage "" st in
    match (if truthy_text timeoutText
           then send ViaChannel timeoutText st
           else (Resolved prevMessage, st)) with
    | (Thrown e, st) => (Thrown e, st)
    | (_, st) => (Thrown ThCancelled, removePrompt message st)
    end.

(** The state in which [promptOne(prevMessage, retryCount)] resolves its
    prompt text: the call is logged and the prompt registered. *)
Definition entered (retryCount : nat) (st : state) : state :=
  addPrompt message (emit (Turn retryCount) st).

(** How one call of [promptOne] goes on: it settles, or it returns the
    promise of a further call. *)
Inductive turn_end :=
| Settles (r : outcome jsval)
| Next (prevMessage : Message) (retryCount : nat).

(** The [try ... catch] statement of [promptOne]; [w] is the window of its
    [awaitMessages] call, [None] when the script has none left. *)
Definition try_catch (w : option window) (sent : option Message)
  (prevMessage : Message) (retryCount : nat) (st : state)
  : turn_end * state :=
  match w with
  | None => (Settles Waiting, awaiting st)
  | Some w =>
      match try_block w sent retryCount st with
      | (ReturnValue v, st) => (Settles (Resolved v), st)
      | (ReturnPromptOne prev rc, st) => (Next prev rc, st)
      | (Unsettled r, st) => (Settles r, st)
      | (Caught err, st) =>
          let '(r, st) := catch_block err prevMessage retryCount st in
          (Settles r, st)
      end
  end.

(** The body of [promptOne(prevMessage, retryCount)]. *)
Definition turn (w : option window) (prevMessage : Message)
  (retryCount : nat) (st : state) : turn_end * state :=
  let st := entered retryCount st in
  match send_prompt prevMessage retryCount st with
  | (Resolved sent, st) => try_catch w sent prevMessage retryCount st
  | (Thrown e, st) => (Settles (Thrown e), st)
  | (Looping, st) => (Settles Looping, st)
  | (Waiting, st) => (Settles Waiting, st)
  end.

(** [promptOne(prevMessage, retryCount)] on a script of windows: each call
    awaits in the next window of the script. *)
Fixpoint promptOne (ws : list window) (prevMessage : Message)
  (retryCount : nat) (st : state) : outcome jsval * state :=
  match ws with
  | [] =>
      match turn None prevMessage retryCount st with
      | (Settles r, st) => (r, st)
      | (Next _ _, st) => (Waiting, st)
      end
  | w :: ws =>
      match turn (Some w) prevMessage retryCount st with
      | (Settles r, st) => (r, st)
      | (Next prev rc, st) => promptOne ws prev rc st
      end
  end.

End Collect.

(** The three [Object.assign] calls of [collect]. *)
Definition merged_prompt : ArgumentPromptOptions :=
  assign (assign (h_defaultPrompt handler) (c_defaultPrompt command))
    (default empty_literal (arg_prompt this)).

(** [typeof this.match === 'function' ? this.match(message, args) : this.match] *)
Definition matchType (message : Message) (st : state) : ArgumentMatch :=
  match arg_match this with
  | MatchFn f => f message (snapshot st)
  | MatchIs m => m
  end.

(** [isInfinite] of [collect]. *)
Definition is_infinite (message : Message) (commandInput : option string)
  (st : state) : bool :=
  infinite merged_prompt
  && (if is_SEPARATE (matchType message st)
      then negb (truthy_input commandInput)
      else true).

(** [async collect(message, args, commandInput)] on a script of windows. *)
Definition collect (ws : list window) (message : Message)
  (commandInput : option string) (st : state) : outcome jsval * state :=
  let prompt := merged_prompt in
  let isInfinite := is_infinite message commandInput st in
  let st := init_values (arg_id this) isInfinite st in
  match promptOne message commandInput prompt isInfinite ws message
          (1 + Number_Boolean_commandInput commandInput) st with
  | (Resolved returnValue, st) =>
      let st := if h_commandUtil handler then emit SetShouldEdit st else st in
      (Resolved returnValue, removePrompt message st)
  | (r, st) => (r, st)
  end.

(** [async process(word, message, args)] on a script of windows. *)
Definition process (ws : list window) (word : string) (message : Message)
  (st : state) : outcome jsval * state :=
  let word := trim word in
  if negb (nonempty word)
     && match arg_prompt this with
        | Some p => default false (lit_optional p)
        | None => false
        end
  then resolve_default message st
  else
    match cast word message (snapshot st) with
    | Resolved res =>
        if nullish res then
          match arg_prompt this with
          | Some _ => collect ws message (Some word) st
          | None => resolve_default message st
          end
        else (Resolved res, st)
    | r => (r, st)
    end.

End Engine.

(* ------------------------------------------------------------------ *)
(** ** Concrete instances, for the examples below *)

(** [toLowerCase] on the letters A to Z. *)
Definition lower_ascii (c : ascii) : ascii :=
  let n := Ascii.nat_of_ascii c in
  if (65 <=? n) && (n <=? 90) then Ascii.ascii_of_nat (n + 32) else c.

Fixpoint lower (s : string) : string :=
  match s with
  | EmptyString => EmptyString
  | String c s' => String (lower_ascii c) (lower s')
  end.

(** [trim] for the blank, tab, line feed, vertical tab, form feed and
    carriage return. *)
Definition is_space (c : ascii) : bool :=
  let n := Ascii.nat_of_ascii c in
  (n =? 32) || ((9 <=? n) && (n <=? 13)).

Fixpoint trim_start (s : string) : string :=
  match s with
  | String c s' => if is_space c then trim_start s' else s
  | EmptyString => EmptyString
  end.

Fixpoint trim_end (s : string) : string :=
  match s with
  | EmptyString => EmptyString
  | String c s' =>
      let t := trim_end s' in
      if is_space c && String.eqb t "" then "" else String c t
  end.

Definition strip (s : string) : string := trim_end (trim_start s).

(** The text of [s] from index [i] on. *)
Definition from_index (s : string) (i : nat) : string :=
  String.substring i (String.length s - i) s.

(** How many times [c] stands at the head of [s]. *)
Fixpoint run_of (c : ascii) (s : string) : nat :=
  match s with
  | String d s' => if Ascii.eqb c d then S (run_of c s') else 0
  | EmptyString => 0
  end.

(** The matchers of the patterns [c*] and [c+]. *)
Definition star (c : ascii) (s : string) (i : nat)
  : option (nat * list (option string)) :=
  Some (run_of c (from_index s i), []).

Definition plus (c : ascii) (s : string) (i : nat)
  : option (nat * list (option string)) :=
  match run_of c (from_index s i) with
  | 0 => None
  | n => Some (n, [])
  end.

(** A transport that always delivers, and answers with the bot's message. *)
Definition bot_message : Message := mkMessage "900" "bot" "general" "".

Definition reliable (_ : list event) (_ : text) : send_answer :=
  Sent bot_message.

(** The defaults of [ArgumentPromptOptions], with prompt texts. *)
Definition default_prompt : ArgumentPromptOptions :=
  {| retries := 1; time := 30000%N; cancelWord := "cancel"; stopWord := "stop";
     optional := false; infinite := false; limit := Infinity;
     start := TextIs (TextString "What is it?");
     retry := TextIs (TextString "Try again.");
     timeout := TextIs (TextString "Time ran out.");
     ended := TextIs (TextString "Too many tries.");
     cancel := TextIs (TextString "Cancelled.") |}.

Definition plain_handler : CommandHandler :=
  mkHandler default_prompt false (fun _ => None).

Definition plain_command : Command := mkCommand empty_literal.

(** The message that called the command, and replies of its author. *)
Definition call : Message := mkMessage "100" "alice" "general" "!pick".

Definition reply (id content : string) : Message :=
  mkMessage id "alice" "general" content.

(** The state a command starts from: nothing registered, no arguments yet. *)
Definition idle : state := mkState ∅ ∅ None [].

(** An argument of the given type with an (empty) prompt literal. *)
Definition prompted (t : ArgumentType) : Argument :=
  mkArgument "choice" (MatchIs WORD) t (Some empty_literal)
    (fun _ _ => Returns (Value (VString ""))).

(** The same with [infinite: true] and a [limit]. *)
Definition endless (t : ArgumentType) (l : bound) : Argument :=
  mkArgument "choices" (MatchIs WORD) t
    (Some (mkLiteral None None None None None (Some true) (Some l)
             None None None None None))
    (fun _ _ => Returns (Value (VString ""))).

(** The array type of the examples: [[['yes', 'y'], 'no']]. *)
Definition yes_no : ArgumentType :=
  TypeArray [Aliases ["yes"; "y"]; Single "no"].

(** An argument whose prompt allows [r] retries. *)
Definition picky (r : nat) : Argument :=
  mkArgument "choice" (MatchIs WORD)
    yes_no
    (Some (mkLiteral (Some r) None None None None None None
             None None None None None))
    (fun _ _ => Returns (Value (VString ""))).

(** A window with a reply that is no choice, and one with a choice. *)
Definition wrong : window := Arrivals [reply "201" "maybe"].
Definition good : window := Arrivals [reply "202" "yes"].

(** An argument with [optional: true], whose default is a promise. *)
Definition noted : Argument :=
  mkArgument "note" (MatchIs WORD) (TypeName "string")
    (Some (mkLiteral None None None None (Some true) None None
             None None None None None))
    (fun _ _ => Returns (Promise (Fulfilled (VString "none")))).

(** An infinite prompt whose cancel word is its stop word as well. *)
Definition stop_cancels : Argument :=
  mkArgument "choices" (MatchIs WORD)
    yes_no
    (Some (mkLiteral None None (Some "STOP") None None (Some true) None
             None None None None None))
    (fun _ _ => Returns (Value (VString ""))).

(** A transport that loses the permission to send once a reply has been
    awaited: from then on [send] fails with an [Error]. *)
Definition cut_off (l : list event) (_ : text) : send_answer :=
  if existsb (fun e => match e with CallAwait _ => true | _ => false end) l
  then SendFails (ThError "Missing Permissions")
  else Sent bot_message.

(** A prompt text that tells the word it was given. *)
Definition echo : text_option :=
  TextFn (fun _ _ data => TextString ("You said: " ++ data_word data)).

(** An argument whose retry, time-out, ended and cancel texts are [echo]. *)
Definition echoing : Argument :=
  mkArgument "choice" (MatchIs WORD)
    yes_no
    (Some (mkLiteral None None None None None None None
             None (Some echo) (Some echo) (Some echo) (Some echo)))
    (fun _ _ => Returns (Value (VString ""))).

(** A casting function whose promise rejects with a string, and one that
    throws an [Error]. *)
Definition busy : ArgumentType :=
  TypeFunction (fun _ _ _ => Returns (Promise (Rejected (ThValue (VString "busy"))))).

Definition faulty : ArgumentType :=
  TypeFunction (fun _ _ _ => Raises (ThError "lookup failed")).

(* ------------------------------------------------------------------ *)
(** ** Vocabulary of the statements *)

(** An entry of an array type matches a word when the word equals the
    entry, or one of its aliases, up to case. *)
Definition entry_matches (toLowerCase : string -> string) (e : entry)
  (word : string) : bool :=
  match e with
  | Single s => same_word toLowerCase s word
  | Aliases l => existsb (fun t => same_word toLowerCase t word) l
  end.

(** The canonical value of an entry: the entry itself, or the first of its
    aliases. *)
Definition canonical (e : entry) : jsval :=
  match e with
  | Single s => VString s
  | Aliases (t0 :: _) => VString t0
  | Aliases [] => VUndefined
  end.

(** [scan_from re s pos ms]: [ms] are the matches of [re] in [s] from index
    [pos] on, leftmost first, each one starting where the one before it
    ended or later, with no match possible in between or after the last. *)
Inductive scan_from (re : RegExp) (s : string) : nat -> list exec_result -> Prop :=
| scan_done pos :
    (forall p, pos <= p <= String.length s -> re_matcher re s p = None) ->
    scan_from re s pos []
| scan_match pos i n g ms :
    pos <= i <= String.length s ->
    (forall p, pos <= p < i -> re_matcher re s p = None) ->
    re_matcher re s i = Some (n, g) ->
    scan_from re s (i + n) ms ->
    scan_from re s pos (mkExec i (String.substring i n s) g :: ms).

(** The retry turns among the calls of [promptOne] a log records: those
    entered with [retryCount > 1]. *)
Definition is_retry_turn (e : event) : bool :=
  match e with
  | Turn retryCount => 1 <? retryCount
  | _ => false
  end.

(** How many of the calls in a log a test holds of. *)
Definition count_events (p : event -> bool) (l : list event) : nat :=
  length (List.filter p l).

Definition retry_turns (l : list event) : nat := count_events is_retry_turn l.

Definition is_turn (e : event) : bool :=
  match e with
  | Turn _ => true
  | _ => false
  end.

Definition turns (l : list event) : nat := count_events is_turn l.

(** Calls into the transport: [send] and [awaitMessages]. *)
Definition is_transport_call (e : event) : bool :=
  match e with
  | CallSend _ _ | CallAwait _ => true
  | _ => false
  end.

(** The [args] a logged call was given, for the calls of user functions. *)
Definition event_args (e : event) : option (gmap string jsval) :=
  match e with
  | CallText a _ => Some a
  | CallCast _ _ a => Some a
  | CallDefault _ a => Some a
  | _ => None
  end.

(** [sees a e]: if [e] is the call of a user function, it was given [a]. *)
Definition sees (a : gmap string jsval) (e : event) : Prop :=
  forall a', event_args e = Some a' -> a' = a.

(** [calls st evs st']: from [st] to [st'] the calls [evs] were made, every
    user function among them was given the [args] of [st], and neither
    [args] nor [values] changed. *)
Definition calls (st : state) (evs : list event) (st' : state) : Prop :=
  args st' = args st /\ values st' = values st /\
  log st' = log st ++ evs /\ Forall (sees (snapshot st)) evs.

(** [accumulates id vs st evs st']: from [st], where [values] holds [vs]
    and is the property [id] of [args], to [st'] the calls [evs] were made;
    [values] has grown to what [st'] holds, it still is the property [id]
    of [args], and every user function called on the way was given [args]
    with, under [id], the elements accumulated by then. *)
Definition accumulates (id : string) (vs : list jsval) (st : state)
  (evs : list event) (st' : state) : Prop :=
  exists vs',
    args st' = args st /\ values st' = Some (id, vs') /\ vs `prefix_of` vs' /\
    log st' = log st ++ evs /\
    Forall (fun e => forall a, event_args e = Some a ->
              exists u, a = <[id := VArray u]> (args st) /\
                        vs `prefix_of` u /\ u `prefix_of` vs') evs.

(** A reply that reaches [cast] and is cast with success: the window
    delivers [input] through the filter, [input] is neither the cancel word
    nor the stop word, and [cast], given the arguments [a], resolves to a
    value [v] other than [null]. *)
Definition valid_reply (toLowerCase : string -> string) (fuel : nat)
  (handler : CommandHandler) (this : Argument) (message : Message)
  (prompt : ArgumentPromptOptions) (sent : option Message) (w : window)
  (a : gmap string jsval) (input : Message) (v : jsval) : Prop :=
  awaitMessages (reply_filter message sent) w = Resolved input /\
  same_word toLowerCase (msg_content input) (cancelWord prompt) = false /\
  same_word toLowerCase (msg_content input) (stopWord prompt) = false /\
  cast toLowerCase fuel handler this (msg_content input) input a = Resolved v /\
  nullish v = false.

Section Sessions.

Variable toLowerCase : string -> string.
Variable transport : list event -> text -> send_answer.
Variable fuel : nat.
Variable handler : CommandHandler.
Variable this : Argument.
Variable message : Message.
Variable commandInput : option string.
Variable prompt : ArgumentPromptOptions.
Variable isInfinite : bool.

(** [reaches ws prev rc st prev' rc' st']: the call
    [promptOne(prev, rc)] made in state [st] goes, window after window of
    [ws], through calls that each return the promise of a further call,
    and the last of them is the call [promptOne(prev', rc')] in state
    [st']. *)
Inductive reaches :
  list window -> Message -> nat -> state -> Message -> nat -> state -> Prop :=
| reaches_here prev rc st : reaches [] prev rc st prev rc st
| reaches_next w ws prev rc st prev1 rc1 st1 prev2 rc2 st2 :
    turn toLowerCase transport fuel handler this message commandInput prompt
      isInfinite (Some w) prev rc st = (Next prev1 rc1, st1) ->
    reaches ws prev1 rc1 st1 prev2 rc2 st2 ->
    reaches (w :: ws) prev rc st prev2 rc2 st2.

(** [raised_in_turn w prevMessage retryCount st e]: in the call
    [promptOne(prevMessage, retryCount)] made in state [st], whose
    [awaitMessages] call gets the window [w], the failure [e] is raised:
    by the [send] of the prompt text, by [awaitMessages], by the [send] of
    the cancel text, or by [cast]. *)
Inductive raised_in_turn (w : window) (prevMessage : Message)
  (retryCount : nat) (st : state) (e : thrown) : Prop :=
| raised_by_prompt_send st1 :
    send_prompt transport handler message commandInput prompt isInfinite
      prevMessage retryCount (entered message retryCount st) = (Thrown e, st1) ->
    raised_in_turn w prevMessage retryCount st e
| raised_by_awaitMessages sent st1 :
    send_prompt transport handler message commandInput prompt isInfinite
      prevMessage retryCount (entered message retryCount st)
    = (Resolved sent, st1) ->
    awaitMessages (reply_filter message sent) w = Thrown e ->
    raised_in_turn w prevMessage retryCount st e
| raised_by_cancel_send sent st1 input cancelText st2 :
    send_prompt transport handler message commandInput prompt isInfinite
      prevMessage retryCount (entered message retryCount st)
    = (Resolved sent, st1) ->
    awaitMessages (reply_filter message sent) w = Resolved input ->
    same_word toLowerCase (msg_content input) (cancelWord prompt) = true ->
    getText message isInfinite (cancel prompt) retryCount input ""
      (awaiting prompt st1) = (cancelText, st2) ->
    truthy_text cancelText = true ->
    transport (log st2) cancelText = SendFails e ->
    raised_in_turn w prevMessage retryCount st e
| raised_by_cast sent st1 input :
    send_prompt transport handler message commandInput prompt isInfinite
      prevMessage retryCount (entered message retryCount st)
    = (Resolved sent, st1) ->
    awaitMessages (reply_filter message sent) w = Resolved input ->
    same_word toLowerCase (msg_content input) (cancelWord prompt) = false ->
    isInfinite && same_word toLowerCase (msg_content input) (stopWord prompt)
    = false ->
    cast toLowerCase fuel handler this (msg_content input) input (snapshot st1)
    = Thrown e ->
    raised_in_turn w prevMessage retryCount st e.

(** [raised_in_catch w prevMessage retryCount st e]: in the same call the
    [try] block ends with a value [err] for [catch] that is neither an
    [Error] nor the cancellation, and the [send] of the time-out text, in
    the [catch] block, raises the failure [e]. *)
Inductive raised_in_catch (w : window) (prevMessage : Message)
  (retryCount : nat) (st : state) (e : thrown) : Prop :=
| raised_by_timeout_send sent st1 err st2 timeoutText st3 :
    send_prompt transport handler message commandInput prompt isInfinite
      prevMessage retryCount (entered message retryCount st)
    = (Resolved sent, st1) ->
    try_block toLowerCase transport fuel handler this message prompt
      isInfinite w sent retryCount st1 = (Caught err, st2) ->
    instanceof_Error err = false ->
    is_COMMAND_CANCELLED err = false ->
    getText message isInfinite (timeout prompt) retryCount prevMessage ""
      st2 = (timeoutText, st3) ->
    truthy_text timeoutText = true ->
    transport (log st3) timeoutText = SendFails e ->
    raised_in_catch w prevMessage retryCount st e.

End Sessions.

(** [session_reaches ... pre message commandInput st prev rc st']: the
    session that [collect(message, args, commandInput)] starts in state
    [st] comes, after the windows [pre], to the call [promptOne(prev, rc)]
    in state [st']. *)
Definition session_reaches (toLowerCase : string -> string)
  (transport : list event -> text -> send_answer) (fuel : nat)
  (handler : CommandHandler) (command : Command) (this : Argument)
  (pre : list window) (message : Message) (commandInput : option string)
  (st : state) (prev : Message) (rc : nat) (st' : state) : Prop :=
  reaches toLowerCase transport fuel handler this message commandInput
    (merged_prompt handler command this)
    (is_infinite handler command this message commandInput st)
    pre message (1 + Number_Boolean_commandInput commandInput)
    (init_values (arg_id this)
       (is_infinite handler command this message commandInput st) st)
    prev rc st'.

(** What [collect] does after [promptOne] has resolved. *)
Definition finished (handler : CommandHandler) (message : Message)
  (st : state) : state :=
  removePrompt message
    (if h_commandUtil handler then emit SetShouldEdit st else st).

(** The prompt options with other values for [retries] and [ended]. *)
Definition with_retries (r : nat) (e : text_option)
  (prompt : ArgumentPromptOptions) : ArgumentPromptOptions :=
  {| retries := r; time := time prompt; cancelWord := cancelWord prompt;
     stopWord := stopWord prompt; optional := optional prompt;
     infinite := infinite prompt; limit := limit prompt;
     start := start prompt; retry := retry prompt; timeout := timeout prompt;
     ended := e; cancel := cancel prompt |}.

(** The texts a log shows as sent, in order. *)
Definition sent_texts (l : list event) : list text :=
  omap (fun e => match e with CallSend _ t => Some t | _ => None end) l.

(** Calls that belong to the sending of a prompt text. *)
Definition is_text_event (e : event) : bool :=
  match e with
  | CallText _ _ | CallSend _ _ | SetShouldEdit | SetLastResponse _ => true
  | _ => false
  end.

(* ------------------------------------------------------------------ *)
(** ** The constructor *)

(** [ArgumentMatches.WORD] and [ArgumentTypes.STRING], constants of
    [util/Constants], which is not among the sources: their values are the
    ones the typedef [ArgumentOptions] of Argument.js documents as the
    defaults of [match] and [type], ['word'] and ['string']. *)
Definition ArgumentMatches_WORD : ArgumentMatch := WORD.
Definition ArgumentTypes_STRING : string := "string".

(** [string | string[]], for [prefix] and [description]. *)
Inductive lines := OneLine (s : string) | Lines (l : list string).

(** [any | ArgumentDefaultFunction]: a value (which may be a promise), or a
    function. *)
Inductive default_option :=
| DefaultIs (r : returned)
| DefaultFn (f : Message -> gmap string jsval -> fn_result).

(** [ArgumentAllowFunction] *)
Definition allow_fn : Type := Message -> gmap string jsval -> bool.

(** [ArgumentOptions] as an object literal gives them: every option but
    [id] may be absent. *)
Record ArgumentOptions := mkOptions {
  opt_id : string;
  opt_match : option match_option;
  opt_type : option ArgumentType;
  opt_prefix : option lines;
  opt_index : option Z;
  opt_limit : option bound;
  opt_description : option lines;
  opt_prompt : option PromptLiteral;
  opt_default : option default_option;
  opt_allow : option allow_fn
}.

(** The object the constructor makes: the fields that [process], [cast]
    and [collect] read, and the others. *)
Record ArgumentObject := mkObject {
  this_fields : Argument;
  this_command : Command;
  this_prefix : option lines;
  this_index : option Z;
  this_limit : bound;
  this_description : string;
  this_allow : allow_fn
}.

(** [Array.isArray(description) ? description.join('\n') : description] *)
Definition join_description (description : lines) : string :=
  match description with
  | Lines l => String.concat LF l
  | OneLine s => s
  end.

(** [typeof defaultValue === 'function' ? defaultValue : () => defaultValue] *)
Definition default_function (defaultValue : default_option)
  : Message -> gmap string jsval -> fn_result :=
  match defaultValue with
  | DefaultFn f => f
  | DefaultIs r => fun _ _ => Returns r
  end.

(** [constructor(command, { id, match = ArgumentMatches.WORD,
     type = ArgumentTypes.STRING, prefix, index, limit = Infinity,
     description = '', prompt, default: defaultValue = '',
     allow = () => true } = {})] *)
Definition constructor (command : Command) (options : ArgumentOptions)
  : ArgumentObject :=
  let match_ := default (MatchIs ArgumentMatches_WORD) (opt_match options) in
  let type := default (TypeName ArgumentTypes_STRING) (opt_type options) in
  let limit := default Infinity (opt_limit options) in
  let description := default (OneLine "") (opt_description options) in
  let defaultValue :=
    match opt_default options with
    | None | Some (DefaultIs (Value VUndefined)) => DefaultIs (Value (VString ""))
    | Some d => d
    end in
  let allow := default (fun _ _ => true) (opt_allow options) in
  {| this_fields :=
       {| arg_id := opt_id options;
          arg_match := match_;
          arg_type := type;
          arg_prompt := opt_prompt options;
          arg_default := default_function defaultValue |};
     this_command := command;
     this_prefix := opt_prefix options;
     this_index := opt_index options;
     this_limit := limit;
     this_description := join_description description;
     this_allow := allow |}.

(** The options [{ id }]. *)
Definition only_id (id : string) : ArgumentOptions :=
  mkOptions id None None None None None None None None None.

(** The type ['string'] as the typedef [ArgumentType] of Argument.js
    documents it ("does not cast to any type"): the word itself, or [null]
    for the empty word; and a handler whose resolver has it. *)
Definition string_type : type_fn :=
  fun word _ _ => Returns (Value (if nonempty word then VString word else VNull)).

Definition string_handler : CommandHandler :=
  mkHandler default_prompt false
    (fun name => if String.eqb name "string" then Some string_type else None).

(** The options [{ id: 'answer', type: [['yes', 'y'], 'no'],
    default: 'none' }]. *)
Definition answer_options : ArgumentOptions :=
  mkOptions "answer" None (Some yes_no) None None None None None
    (Some (DefaultIs (Value (VString "none")))) None.

(* ------------------------------------------------------------------ *)
(** ** Vocabulary of the further properties *)

(** The key of a prompt in the registry. *)
Definition prompt_key (message : Message) : string * string :=
  (msg_author message, msg_channel message).

(** A window without the messages of other authors than the one of
    [message]. *)
Definition own_messages (message : Message) (w : window) : window :=
  match w with
  | Arrivals ms =>
      Arrivals (List.filter
                  (fun m => String.eqb (msg_author m) (msg_author message)) ms)
  | AwaitFails e => AwaitFails e
  end.

(** [replies_with message w input]: the window [w] delivers the message
    [input], and [input] is of the author of [message]. *)
Definition replies_with (message : Message) (w : window) (input : Message)
  : Prop :=
  exists ms, w = Arrivals ms /\ In input ms
             /\ msg_author input = msg_author message.

(** A reply that is cast with success: the window that delivers it, the
    reply, and the value [cast] makes of it. *)
Definition cast_reply : Type := window * Message * jsval.

Definition reply_window (r : cast_reply) : window := fst (fst r).
Definition reply_value (r : cast_reply) : jsval := snd r.

(** [valid_replies ... sent seen vs rs]: the replies [rs] are each cast with
    success (see [valid_reply]): the first after the prompt message [sent],
    by a [cast] that is given [seen vs], the later ones after no prompt
    message, each by a [cast] that is given [seen] of [vs] and the values
    of the replies before it. *)
Fixpoint valid_replies (toLowerCase : string -> string) (fuel : nat)
  (handler : CommandHandler) (this : Argument) (message : Message)
  (prompt : ArgumentPromptOptions) (sent : option Message)
  (seen : list jsval -> gmap string jsval) (vs : list jsval)
  (rs : list cast_reply) : Prop :=
  match rs with
  | [] => True
  | r :: rs =>
      valid_reply toLowerCase fuel handler this message prompt sent
        (reply_window r) (seen vs) (snd (fst r)) (reply_value r)
      /\ valid_replies toLowerCase fuel handler this message prompt None seen
           (vs ++ [reply_value r]) rs
  end.

(** The argument with other values, or none, for the options [retries] and
    [ended] of its prompt. *)
Definition with_prompt_retries (r : option nat) (e : option text_option)
  (this : Argument) : Argument :=
  {| arg_id := arg_id this;
     arg_match := arg_match this;
     arg_type := arg_type this;
     arg_prompt :=
       match arg_prompt this with
       | Some p =>
           Some {| lit_retries := r; lit_time := lit_time p;
                   lit_cancelWord := lit_cancelWord p;
                   lit_stopWord := lit_stopWord p;
                   lit_optional := lit_optional p;
                   lit_infinite := lit_infinite p; lit_limit := lit_limit p;
                   lit_start := lit_start p; lit_retry := lit_retry p;
                   lit_timeout := lit_timeout p; lit_ended := e;
                   lit_cancel := lit_cancel p |}
       | None => None
       end;
     arg_default := arg_default this |}.

(** Calls of the default function. *)
Definition is_default_call (e : event) : bool :=
  match e with
  | CallDefault _ _ => true
  | _ => false
  end.

(** What a call of [collect] has no business with: the prompts of other
    users and channels in the registry, and the calls of the default
    function in the log. *)
Definition outside (message : Message) (st : state)
  : gset (string * string) * list event :=
  (prompts st ∖ {[ prompt_key message ]},
   List.filter is_default_call (log st)).

(** Calls of [awaitMessages] and of [send]. *)
Definition is_await (e : event) : bool :=
  match e with
  | CallAwait _ => true
  | _ => false
  end.

Definition is_send (e : event) : bool :=
  match e with
  | CallSend _ _ => true
  | _ => false
  end.

(* ------------------------------------------------------------------ *)
(** ** Regular expressions: the scan and the loops *)

Lemma search_some re s i k j n g :
  search re s i k = Some (j, n, g) ->
  i <= j < i + k /\ re_matcher re s j = Some (n, g) /\
  (forall p, i <= p < j -> re_matcher re s p = None).
Proof.
  revert i. induction k as [|k IH]; intros i H; simpl in H; [discriminate|].
  destruct (re_matcher re s i) as [[n' g']|] eqn:Hm.
  - injection H as <- <- <-. split; [lia|]. split; [done|]. intros p Hp. lia.
  - apply IH in H as (Hj & Hmj & Hbefore). split; [lia|]. split; [done|].
    intros p Hp. destruct (decide (p = i)) as [->|]; [done|]. apply Hbefore. lia.
Qed.

Lemma search_none re s i k :
  search re s i k = None ->
  forall p, i <= p < i + k -> re_matcher re s p = None.
Proof.
  revert i. induction k as [|k IH]; intros i H p Hp; [lia|]. simpl in H.
  destruct (re_matcher re s i) as [[n' g']|] eqn:Hm; [discriminate|].
  destruct (decide (p = i)) as [->|]; [done|]. apply (IH (S i)); [done|lia].
Qed.

(** A global [exec] either fails and resets [lastIndex], or finds the
    leftmost match at or after [lastIndex] and moves [lastIndex] to its end. *)
Lemma exec_global re s li :
  re_global re = true ->
  (exec re s li = (None, 0) /\
   forall p, li <= p <= String.length s -> re_matcher re s p = None) \/
  (exists i n g,
     exec re s li = (Some (mkExec i (String.substring i n s) g), i + n) /\
     li <= i <= String.length s /\ re_matcher re s i = Some (n, g) /\
     forall p, li <= p < i -> re_matcher re s p = None).
Proof.
  intros Hg. unfold exec. rewrite Hg.
  destruct (String.length s <? li) eqn:Hlt.
  - left. split; [done|]. apply Nat.ltb_lt in Hlt. intros p Hp. lia.
  - apply Nat.ltb_ge in Hlt.
    destruct (search re s li (String.length s - li + 1)) as [[[i n] g]|] eqn:Hs.
    + right. exists i, n, g. apply search_some in Hs as (Hi & Hm & Hb).
      repeat split; try done; lia.
    + left. split; [done|]. intros p Hp. eapply search_none; [exact Hs|lia].
Qed.

(** A non-global [exec] ignores [lastIndex] and leaves it as it is. *)
Lemma exec_not_global re s li :
  re_global re = false ->
  exec re s li =
    match search re s 0 (String.length s + 1) with
    | None => (None, li)
    | Some (i, n, g) => (Some (mkExec i (String.substring i n s) g), li)
    end.
Proof.
  intros Hg. unfold exec. rewrite Hg. simpl. rewrite Nat.sub_0_r.
  by destruct (search re s 0 (String.length s + 1)) as [[[i n] g]|].
Qed.

(** The loop of [cast] never ends once [exec] gives a match and leaves
    [lastIndex] where it was: that is what an empty match does. *)
Lemma exec_loop_stuck re word li r :
  exec re word li = (Some r, li) ->
  forall fuel matches, exec_loop fuel re word li matches = None.
Proof.
  intros H fuel. induction fuel as [|fuel IH]; intros matches; [done|].
  simpl. rewrite H. apply IH.
Qed.

Lemma substring_nonempty i n s :
  String.substring i n s <> "" -> 0 < n.
Proof.
  intros H. destruct n; [|lia]. exfalso. apply H. clear H.
  revert i. induction s as [|c s IH]; intros i; destruct i; simpl; try done.
Qed.

(** With enough fuel the loop of [String.prototype.match] ends, and leaves
    [lastIndex] at 0. *)
Lemma match_global_lastIndex re s :
  re_global re = true ->
  forall fuel li A,
    String.length s + 1 - li < fuel ->
    snd (match_global fuel re s li A) = 0.
Proof.
  intros Hg fuel. induction fuel as [|fuel IH]; intros li A Hf; [lia|].
  simpl. destruct (exec_global re s li Hg) as [[-> _]|(i & n & g & -> & Hi & Hm & _)].
  - done.
  - apply IH. simpl.
    destruct (String.eqb_spec (String.substring i n s) "") as [He|He]; [lia|].
    apply substring_nonempty in He. lia.
Qed.

Lemma match_global_nonempty re s fuel li A :
  A <> [] -> exists B, fst (match_global fuel re s li A) = Some B.
Proof.
  revert li A. induction fuel as [|fuel IH]; intros li A HA; simpl.
  - destruct A; [done|]. eauto.
  - destruct (exec re s li) as [[r|] li'].
    + apply IH. by destruct A.
    + destruct A; [done|]. simpl. eauto.
Qed.

(** The fuel [String_match] gives its loop is enough: more changes
    nothing. *)
Lemma match_global_fuel re s :
  re_global re = true ->
  forall fuel fuel' li A,
    String.length s + 1 - li < fuel -> fuel <= fuel' ->
    match_global fuel' re s li A = match_global fuel re s li A.
Proof.
  intros Hg fuel. induction fuel as [|fuel IH]; intros fuel' li A Hf Hle; [lia|].
  destruct fuel' as [|fuel']; [lia|]. simpl.
  destruct (exec_global re s li Hg) as [[-> _]|(i & n & g & -> & Hi & Hm & _)];
    [done|].
  apply IH; [|lia]. simpl.
  destruct (String.eqb_spec (String.substring i n s) "") as [He|He]; [lia|].
  apply substring_nonempty in He. lia.
Qed.

(** Once the loop of [cast] has ended, more fuel changes nothing. *)
Lemma exec_loop_fuel re word :
  forall fuel fuel' li matches r,
    exec_loop fuel re word li matches = Some r -> fuel <= fuel' ->
    exec_loop fuel' re word li matches = Some r.
Proof.
  intros fuel. induction fuel as [|fuel IH]; intros fuel' li matches r H Hle;
    [done|].
  destruct fuel' as [|fuel']; [lia|]. simpl in *.
  destruct (exec re word li) as [[m|] li']; [|done].
  eapply IH; [exact H|lia].
Qed.

(** [s.match(re)] is [null] exactly when the pattern matches nowhere in
    [s]; for a global pattern it leaves [lastIndex] at 0. *)
Lemma String_match_null re s li :
  (forall p, p <= String.length s -> re_matcher re s p = None) ->
  exists li', String_match re s li = (None, li').
Proof.
  intros Hno. unfold String_match. destruct (re_global re) eqn:Hg.
  - replace (String.length s + 2) with (S (String.length s + 1)) by lia. simpl.
    destruct (exec_global re s 0 Hg) as [[-> _]|(i & n & g & _ & Hi & Hm & _)].
    + eauto.
    + rewrite Hno in Hm; [done|lia].
  - rewrite exec_not_global by done.
    destruct (search re s 0 (String.length s + 1)) as [[[i n] g]|] eqn:Hs; [|eauto].
    apply search_some in Hs as (Hi & Hm & _). rewrite Hno in Hm; [done|lia].
Qed.

Lemma String_match_global re s li i n g :
  re_global re = true ->
  search re s 0 (String.length s + 1) = Some (i, n, g) ->
  exists A, String_match re s li = (Some (VArray (map VString A)), 0).
Proof.
  intros Hg Hs. unfold String_match. rewrite Hg.
  pose proof (match_global_lastIndex re s Hg (String.length s + 2) 0 [] ltac:(lia)) as Hli.
  destruct (match_global (String.length s + 2) re s 0 []) as [[A|] li'] eqn:HM;
    simpl in Hli; subst li'; [eauto|].
  exfalso. replace (String.length s + 2) with (S (String.length s + 1)) in HM by lia.
  simpl in HM. unfold exec in HM. rewrite Hg in HM. simpl in HM.
  rewrite Nat.sub_0_r, Hs in HM.
  destruct (match_global_nonempty re s (String.length s + 1)
              (if String.eqb (String.substring i n s) "" then S (i + n) else i + n)
              [String.substring i n s] ltac:(done)) as [B HB].
  simpl in HM. rewrite HM in HB. done.
Qed.

(** With enough fuel, and a pattern whose matches in [s] are never empty,
    the loop of [cast] ends with every match from [lastIndex] on, in
    order, and leaves [lastIndex] at 0. *)
Lemma exec_loop_scan re s :
  re_global re = true ->
  (forall i n g, re_matcher re s i = Some (n, g) -> 0 < n) ->
  forall fuel li matches,
    String.length s + 1 - li < fuel ->
    exists ms, exec_loop fuel re s li matches = Some (matches ++ ms, 0) /\
               scan_from re s li ms.
Proof.
  intros Hg Hpos fuel. induction fuel as [|fuel IH]; intros li matches Hf; [lia|].
  simpl.
  destruct (exec_global re s li Hg) as [[-> Hno]|(i & n & g & -> & Hi & Hm & Hb)].
  - exists []. rewrite app_nil_r. split; [done|]. by constructor.
  - pose proof (Hpos _ _ _ Hm) as Hn.
    destruct (IH (i + n) (matches ++ [mkExec i (String.substring i n s) g])
                ltac:(lia)) as (ms & -> & Hscan).
    exists (mkExec i (String.substring i n s) g :: ms).
    rewrite <- app_assoc. split; [done|]. by econstructor.
Qed.

(** X1. The branch of [cast] for a regular expression, in its three cases:
    no match anywhere gives [null]; a pattern that is not global gives its
    leftmost match and no [matches]; a global pattern whose matches in the
    word are never empty gives, with enough fuel, every match in order. *)
Lemma cast_regexp_cases re word li fuel :
  ((forall p, p <= String.length word -> re_matcher re word p = None) ->
   exists li', cast_regexp fuel re word li = Some (VNull, li'))
  /\ (re_global re = false ->
      forall i n g,
        search re word 0 (String.length word + 1) = Some (i, n, g) ->
        cast_regexp fuel re word li =
          Some (match_object (VExec (mkExec i (String.substring i n word) g)) [], li))
  /\ (re_global re = true ->
      forall i n g,
        search re word 0 (String.length word + 1) = Some (i, n, g) ->
        (forall i n g, re_matcher re word i = Some (n, g) -> 0 < n) ->
        String.length word + 1 < fuel ->
        exists A ms,
          cast_regexp fuel re word li =
            Some (match_object (VArray (map VString A)) ms, 0) /\
          scan_from re word 0 ms).
Proof.
  split; [|split].
  - intros Hno. unfold cast_regexp.
    destruct (String_match_null re word li Hno) as [li' ->]. eauto.
  - intros Hg i n g Hs. unfold cast_regexp, String_match.
    rewrite Hg, exec_not_global, Hs by done. done.
  - intros Hg i n g Hs Hpos Hfuel. unfold cast_regexp.
    destruct (String_match_global re word li i n g Hg Hs) as [A ->]. rewrite Hg.
    destruct (exec_loop_scan re word Hg Hpos fuel 0 [] ltac:(lia)) as (ms & -> & Hscan).
    eauto.
Qed.

(** What [cast] returns for a regular expression does not depend on the
    [lastIndex] the pattern is left with by an earlier use: [cast] may be
    taken to start from 0. *)
Lemma cast_regexp_lastIndex fuel re word li :
  fst <$> cast_regexp fuel re word li = fst <$> cast_regexp fuel re word 0.
Proof.
  unfold cast_regexp, String_match. destruct (re_global re) eqn:Hg; [done|].
  rewrite !exec_not_global by done.
  by destruct (search re word 0 (String.length word + 1)) as [[[i n] g]|].
Qed.

(* ------------------------------------------------------------------ *)
(** ** Properties of [cast] *)

Section CastProperties.

Variable toLowerCase : string -> string.
Variable fuel : nat.
Variable handler : CommandHandler.
Variable this : Argument.

Lemma cast_entries_none entries word :
  (forall e, In e entries -> entry_matches toLowerCase e word = false) ->
  cast_entries toLowerCase entries word = VNull.
Proof.
  induction entries as [|e entries IH]; intros Hno; [done|].
  pose proof (Hno e (or_introl eq_refl)) as He.
  destruct e as [s|l]; simpl in *; rewrite He; apply IH; intros e' He';
    apply Hno; by right.
Qed.

Lemma cast_entries_first pre e post word :
  (forall e', In e' pre -> entry_matches toLowerCase e' word = false) ->
  entry_matches toLowerCase e word = true ->
  cast_entries toLowerCase (pre ++ e :: post) word = canonical e.
Proof.
  induction pre as [|e0 pre IH]; intros Hpre He; simpl.
  - destruct e as [s|l]; simpl in *; rewrite He; [done|].
    destruct l; [discriminate|done].
  - pose proof (Hpre e0 (or_introl eq_refl)) as He0.
    destruct e0 as [s|l]; simpl in *; rewrite He0; apply IH; try done;
      intros e' He'; apply Hpre; by right.
Qed.

Lemma cast_entries_case entries word word' :
  toLowerCase word' = toLowerCase word ->
  cast_entries toLowerCase entries word' = cast_entries toLowerCase entries word.
Proof.
  intros Hw. induction entries as [|e entries IH]; [done|].
  destruct e as [s|l]; simpl; unfold same_word; rewrite Hw, IH; done.
Qed.

(** C2 (amended). For an array type, [cast] returns the canonical value of
    the first entry, in the order of the array, that the token matches up
    to case (the entry itself, or the first of its aliases); when the token
    matches no entry it returns [null]; and tokens that differ only in case
    cast alike. *)
Theorem cast_array_first_match entries word message args :
  arg_type this = TypeArray entries ->
  (forall pre e post,
      entries = pre ++ e :: post ->
      (forall e', In e' pre -> entry_matches toLowerCase e' word = false) ->
      entry_matches toLowerCase e word = true ->
      cast toLowerCase fuel handler this word message args
      = Resolved (canonical e))
  /\ ((forall e, In e entries -> entry_matches toLowerCase e word = false) ->
      cast toLowerCase fuel handler this word message args = Resolved VNull)
  /\ (forall word',
        toLowerCase word' = toLowerCase word ->
        cast toLowerCase fuel handler this word' message args
        = cast toLowerCase fuel handler this word message args).
Proof.
  intros Ht. unfold cast. rewrite Ht. split; [|split].
  - intros pre e post -> Hpre He. f_equal. by apply cast_entries_first.
  - intros Hno. f_equal. by apply cast_entries_none.
  - intros word' Hw. f_equal. by apply cast_entries_case.
Qed.

(** For a global pattern that matches the empty string where the scan of
    the word stops, [cast] never returns, whatever the fuel. *)
Lemma cast_regexp_stuck re word m li r :
  arg_type this = TypeRegExp re ->
  re_global re = true ->
  String_match re word 0 = (Some m, li) ->
  exec re word li = (Some r, li) ->
  forall message args,
    cast toLowerCase fuel handler this word message args = Looping.
Proof.
  intros Ht Hg Hm Hr message args. unfold cast, cast_regexp.
  rewrite Ht, Hm, Hg. by rewrite (exec_loop_stuck re word li r Hr).
Qed.

End CastProperties.

(** [cast_array_first_match] at the token "Y" and the type
    [[['yes', 'y'], 'no']]. *)
Lemma cast_array_first_match_witness :
  cast lower 0 plain_handler (prompted yes_no) "Y" call ∅
  = Resolved (VString "yes").
Proof.
  destruct (cast_array_first_match lower 0 plain_handler (prompted yes_no)
              [Aliases ["yes"; "y"]; Single "no"] "Y" call ∅ eq_refl)
    as [Hfirst _].
  apply (Hfirst [] (Aliases ["yes"; "y"]) [Single "no"]).
  - reflexivity.
  - intros e' [].
  - reflexivity.
Defined.

(** C2, as stated, fails when two entries share an alias: the token matches
    the second entry, whose canonical value is "c", and [cast] returns "a",
    the canonical value of the first. *)
Lemma cast_array_shared_alias :
  let entries := [Aliases ["a"; "b"]; Aliases ["c"; "b"]] in
  In (Aliases ["c"; "b"]) entries
  /\ entry_matches lower (Aliases ["c"; "b"]) "B" = true
  /\ canonical (Aliases ["c"; "b"]) = VString "c"
  /\ cast lower 0 plain_handler (prompted (TypeArray entries)) "B" call ∅
     = Resolved (VString "a").
Proof.
  simpl. split; [by right; left|]. by vm_compute.
Qed.

(** C3 (the code at the failing input). With the global pattern [a*] and
    the token "b", [match] finds the empty match at index 0, and the loop
    over [exec] finds it again and again with [lastIndex] still 0: [cast]
    never returns, whatever fuel the loop is given. *)
Theorem cast_global_empty_match_loops :
  forall fuel,
    cast lower fuel plain_handler
      (prompted (TypeRegExp (mkRegExp true (star "a")))) "b" call ∅
    = Looping.
Proof.
  intros fuel.
  apply (cast_regexp_stuck lower fuel plain_handler _
           (mkRegExp true (star "a")) "b" (VArray [VString ""; VString ""]) 0
           (mkExec 0 "" [])); reflexivity.
Qed.

(* ------------------------------------------------------------------ *)
(** ** One call of [promptOne] *)

Section TurnProperties.

Variable toLowerCase : string -> string.
Variable transport : list event -> text -> send_answer.
Variable fuel : nat.
Variable handler : CommandHandler.
Variable this : Argument.
Variable message : Message.
Variable commandInput : option string.
Variable prompt : ArgumentPromptOptions.
Variable isInfinite : bool.

Local Abbreviation entered_ := (entered message).
Local Abbreviation awaiting_ := (awaiting prompt).
Local Abbreviation cast_ := (cast toLowerCase fuel handler this).
Local Abbreviation getText_ := (getText message isInfinite).
Local Abbreviation send_prompt_ :=
  (send_prompt transport handler message commandInput prompt isInfinite).
Local Abbreviation try_block_ :=
  (try_block toLowerCase transport fuel handler this message prompt isInfinite).
Local Abbreviation catch_block_ := (catch_block transport message prompt isInfinite).
Local Abbreviation turn_ :=
  (turn toLowerCase transport fuel handler this message commandInput prompt
     isInfinite).
Local Abbreviation promptOne_ :=
  (promptOne toLowerCase transport fuel handler this message commandInput
     prompt isInfinite).

(** A failure of the prompt's [send] leaves [promptOne] as it is. *)
Lemma turn_prompt_fails w prevMessage retryCount st e st1 :
  send_prompt_ prevMessage retryCount (entered_ retryCount st) = (Thrown e, st1) ->
  turn_ w prevMessage retryCount st = (Settles (Thrown e), st1).
Proof. intros H. unfold turn. by rewrite H. Qed.

(** A rejection of [awaitMessages] goes to [catch]. *)
Lemma turn_await_fails w prevMessage retryCount st sent st1 e :
  send_prompt_ prevMessage retryCount (entered_ retryCount st) = (Resolved sent, st1) ->
  awaitMessages (reply_filter message sent) w = Thrown e ->
  turn_ (Some w) prevMessage retryCount st =
    (Settles (fst (catch_block_ e prevMessage retryCount (awaiting_ st1))),
     snd (catch_block_ e prevMessage retryCount (awaiting_ st1))).
Proof.
  intros H Hw. unfold turn, try_catch. rewrite H.
  unfold try_block. rewrite Hw.
  by destruct (catch_block_ e prevMessage retryCount (awaiting_ st1)).
Qed.

(** The reply is the cancel word, and the cancel text is suppressed or
    sent: the prompt is removed and the cancellation thrown, which [catch]
    throws again as it is. *)
Lemma turn_cancel w prevMessage retryCount st sent st1 input cancelText st2 :
  send_prompt_ prevMessage retryCount (entered_ retryCount st) = (Resolved sent, st1) ->
  awaitMessages (reply_filter message sent) w = Resolved input ->
  same_word toLowerCase (msg_content input) (cancelWord prompt) = true ->
  getText_ (cancel prompt) retryCount input "" (awaiting_ st1) = (cancelText, st2) ->
  (truthy_text cancelText = true -> exists m, transport (log st2) cancelText = Sent m) ->
  turn_ (Some w) prevMessage retryCount st =
    (Settles (Thrown ThCancelled),
     removePrompt message
       (if truthy_text cancelText
        then emit (CallSend ViaChannel cancelText) st2 else st2)).
Proof.
  intros H Hw Hc Ht Hsend. unfold turn, try_catch. rewrite H.
  unfold try_block. rewrite Hw, Hc. rewrite Ht.
  destruct (truthy_text cancelText); [|done].
  destruct (Hsend eq_refl) as [m Hm]. unfold send. by rewrite Hm.
Qed.

(** The cancel text is sent and the transport fails: the failure goes to
    [catch]. *)
Lemma turn_cancel_send_fails w prevMessage retryCount st sent st1 input
    cancelText st2 e :
  send_prompt_ prevMessage retryCount (entered_ retryCount st) = (Resolved sent, st1) ->
  awaitMessages (reply_filter message sent) w = Resolved input ->
  same_word toLowerCase (msg_content input) (cancelWord prompt) = true ->
  getText_ (cancel prompt) retryCount input "" (awaiting_ st1) = (cancelText, st2) ->
  truthy_text cancelText = true ->
  transport (log st2) cancelText = SendFails e ->
  turn_ (Some w) prevMessage retryCount st =
    (Settles (fst (catch_block_ e prevMessage retryCount
                     (emit (CallSend ViaChannel cancelText) st2))),
     snd (catch_block_ e prevMessage retryCount
            (emit (CallSend ViaChannel cancelText) st2))).
Proof.
  intros H Hw Hc Ht Htruthy Hsend. unfold turn, try_catch.
  rewrite H. unfold try_block. rewrite Hw, Hc.
  rewrite Ht, Htruthy. unfold send. rewrite Hsend.
  by destruct (catch_block_ e prevMessage retryCount
                 (emit (CallSend ViaChannel cancelText) st2)).
Qed.

(** The reply is the stop word of an infinite prompt, and not the cancel
    word. *)
Lemma turn_stop w prevMessage retryCount st sent st1 input :
  send_prompt_ prevMessage retryCount (entered_ retryCount st) = (Resolved sent, st1) ->
  awaitMessages (reply_filter message sent) w = Resolved input ->
  same_word toLowerCase (msg_content input) (cancelWord prompt) = false ->
  isInfinite = true ->
  same_word toLowerCase (msg_content input) (stopWord prompt) = true ->
  turn_ (Some w) prevMessage retryCount st =
    (if values_length st1 =? 0
     then Next input (retryCount + 1)
     else Settles (Resolved (VArray (elements_of_values st1))),
     awaiting_ st1).
Proof.
  intros H Hw Hc Hinf Hs. unfold turn, try_catch. rewrite H.
  unfold try_block. rewrite Hw, Hc, Hinf, Hs. simpl.
  change (values_length (awaiting_ st1)) with (values_length st1).
  change (elements_of_values (awaiting_ st1)) with (elements_of_values st1).
  by destruct (values_length st1 =? 0).
Qed.

(** The reply is neither the cancel word nor the stop word of an infinite
    prompt: it is cast, and the turn goes on by what [cast] gives. *)
Lemma turn_cast w prevMessage retryCount st sent st1 input :
  send_prompt_ prevMessage retryCount (entered_ retryCount st) = (Resolved sent, st1) ->
  awaitMessages (reply_filter message sent) w = Resolved input ->
  same_word toLowerCase (msg_content input) (cancelWord prompt) = false ->
  isInfinite && same_word toLowerCase (msg_content input) (stopWord prompt) = false ->
  turn_ (Some w) prevMessage retryCount st =
    match cast_ (msg_content input) input (snapshot st1) with
    | Resolved parsedValue =>
        if nullish parsedValue
        then (Next input (retryCount + 1), casting input (awaiting_ st1))
        else if isInfinite then
          if below (values_length (push parsedValue (casting input (awaiting_ st1))))
               (limit prompt)
          then (Next message 1, push parsedValue (casting input (awaiting_ st1)))
          else (Settles (Resolved
                  (VArray (elements_of_values
                             (push parsedValue (casting input (awaiting_ st1)))))),
                push parsedValue (casting input (awaiting_ st1)))
        else (Settles (Resolved parsedValue), casting input (awaiting_ st1))
    | Thrown e =>
        (Settles (fst (catch_block_ e prevMessage retryCount (casting input (awaiting_ st1)))),
         snd (catch_block_ e prevMessage retryCount (casting input (awaiting_ st1))))
    | Looping => (Settles Looping, casting input (awaiting_ st1))
    | Waiting => (Settles Waiting, casting input (awaiting_ st1))
    end.
Proof.
  intros H Hw Hc Hs. unfold turn, try_catch. rewrite H.
  unfold try_block. rewrite Hw, Hc, Hs.
  change (snapshot (casting input (awaiting_ st1))) with (snapshot st1).
  destruct (cast_ (msg_content input) input (snapshot st1)) as [v|e| |]; try done.
  - destruct (nullish v); [done|]. destruct isInfinite; [|done].
    by destruct (below _ _).
  - by destruct (catch_block_ e prevMessage retryCount (casting input (awaiting_ st1))).
Qed.

(** [catch] throws an [Error] again as it is. *)
Lemma catch_block_error e prevMessage retryCount st :
  instanceof_Error e = true ->
  catch_block_ e prevMessage retryCount st = (Thrown e, st).
Proof. intros H. unfold catch_block. by rewrite H. Qed.

(** [catch] takes any other value but the cancellation for the time-out:
    it sends the time-out text, removes the prompt and cancels. *)
Lemma catch_block_other e prevMessage retryCount st timeoutText st2 :
  instanceof_Error e = false ->
  is_COMMAND_CANCELLED e = false ->
  getText_ (timeout prompt) retryCount prevMessage "" st = (timeoutText, st2) ->
  (truthy_text timeoutText = true -> exists m, transport (log st2) timeoutText = Sent m) ->
  catch_block_ e prevMessage retryCount st =
    (Thrown ThCancelled,
     removePrompt message
       (if truthy_text timeoutText
        then emit (CallSend ViaChannel timeoutText) st2 else st2)).
Proof.
  intros He Hc Ht Hsend. unfold catch_block. rewrite He, Hc, Ht.
  destruct (truthy_text timeoutText); [|done].
  destruct (Hsend eq_refl) as [m Hm]. unfold send. by rewrite Hm.
Qed.

(** [promptOne] on a script, by what its first call does. *)
Lemma promptOne_settles w ws prevMessage retryCount st r st' :
  turn_ (Some w) prevMessage retryCount st = (Settles r, st') ->
  promptOne_ (w :: ws) prevMessage retryCount st = (r, st').
Proof. intros H. simpl. by rewrite H. Qed.

Lemma promptOne_next w ws prevMessage retryCount st prev rc st' :
  turn_ (Some w) prevMessage retryCount st = (Next prev rc, st') ->
  promptOne_ (w :: ws) prevMessage retryCount st = promptOne_ ws prev rc st'.
Proof. intros H. simpl. by rewrite H. Qed.

End TurnProperties.

(* ------------------------------------------------------------------ *)
(** ** What the steps of a prompt leave unchanged *)

Lemma count_events_app p l1 l2 :
  count_events p (l1 ++ l2) = count_events p l1 + count_events p l2.
Proof. unfold count_events. by rewrite List.filter_app, length_app. Qed.

Lemma calls_refl st : calls st [] st.
Proof. unfold calls. by rewrite app_nil_r. Qed.

Lemma snapshot_calls st evs st' : calls st evs st' -> snapshot st' = snapshot st.
Proof. intros (Ha & Hv & _). unfold snapshot. by rewrite Ha, Hv. Qed.

Lemma calls_trans st evs1 st1 evs2 st2 :
  calls st evs1 st1 -> calls st1 evs2 st2 -> calls st (evs1 ++ evs2) st2.
Proof.
  intros H1 H2. pose proof (snapshot_calls _ _ _ H1) as Hs.
  destruct H1 as (Ha1 & Hv1 & Hl1 & Hf1), H2 as (Ha2 & Hv2 & Hl2 & Hf2).
  unfold calls. rewrite Ha2, Hv2, Hl2, Hl1, <- app_assoc. repeat split; try done.
  apply Forall_app. split; [done|]. by rewrite <- Hs.
Qed.

Lemma calls_emit st e :
  sees (snapshot st) e -> calls st [e] (emit e st).
Proof. intros H. unfold calls. simpl. repeat split; try done. by constructor. Qed.

Lemma calls_addPrompt m st : calls st [] (addPrompt m st).
Proof. unfold calls. simpl. by rewrite app_nil_r. Qed.

Lemma calls_removePrompt m st : calls st [] (removePrompt m st).
Proof. unfold calls. simpl. by rewrite app_nil_r. Qed.

Lemma log_awaiting prompt st :
  log (awaiting prompt st) = log st ++ [CallAwait (time prompt)].
Proof. done. Qed.

Section Frames.

Variable toLowerCase : string -> string.
Variable transport : list event -> text -> send_answer.
Variable fuel : nat.
Variable handler : CommandHandler.
Variable this : Argument.
Variable message : Message.
Variable commandInput : option string.
Variable prompt : ArgumentPromptOptions.
Variable isInfinite : bool.

Lemma getText_calls textOption retryCount inputMessage inputWord st :
  exists evs,
    calls st evs (snd (getText message isInfinite textOption retryCount
                         inputMessage inputWord st))
    /\ Forall (fun e => is_text_event e = true) evs
    /\ prompts (snd (getText message isInfinite textOption retryCount
                       inputMessage inputWord st)) = prompts st.
Proof.
  destruct textOption as [t|f]; simpl.
  - exists []. split; [apply calls_refl|]. by split.
  - eexists [_]. split; [apply calls_emit|]; [|split; [by repeat constructor|done]].
    intros a' [= <-]. done.
Qed.

Lemma send_calls via t st :
  calls st [CallSend via t] (snd (send transport via t st))
  /\ prompts (snd (send transport via t st)) = prompts st.
Proof.
  unfold send. destruct (transport (log st) t); simpl;
    (split; [apply calls_emit; by intros a' [=]|done]).
Qed.

Lemma send_prompt_calls prevMessage retryCount st :
  exists evs,
    calls st evs
      (snd (send_prompt transport handler message commandInput prompt
              isInfinite prevMessage retryCount st))
    /\ Forall (fun e => is_text_event e = true) evs
    /\ prompts (snd (send_prompt transport handler message commandInput prompt
                       isInfinite prevMessage retryCount st)) = prompts st.
Proof.
  unfold send_prompt.
  destruct (shouldSend isInfinite retryCount st);
    [|exists []; split; [apply calls_refl|by split]].
  destruct (getText_calls
              (if retryCount =? 1 then start prompt else retry prompt)
              retryCount prevMessage
              (prevInput commandInput prevMessage retryCount) st)
    as (evs & Hc & Hev & Hp).
  destruct (getText message isInfinite _ retryCount prevMessage _ st)
    as [startText st1]. simpl in Hc, Hp.
  destruct (truthy_text startText);
    [|exists evs; simpl; split; [done|by split]].
  destruct (send_calls (util_or_channel handler) startText st1) as [Hs Hps].
  destruct (send transport (util_or_channel handler) startText st1)
    as [[sent|e| |] st2] eqn:Hsend; simpl in *.
  - destruct (h_commandUtil handler).
    + exists (evs ++ [CallSend (util_or_channel handler) startText]
                  ++ [SetShouldEdit] ++ [SetLastResponse sent]).
      split; [|split].
      * eapply calls_trans; [exact Hc|]. eapply calls_trans; [exact Hs|].
        eapply calls_trans; apply calls_emit; by intros a' [=].
      * apply Forall_app. split; [done|]. by repeat constructor.
      * simpl. congruence.
    + exists (evs ++ [CallSend (util_or_channel handler) startText]).
      split; [|split].
      * eapply calls_trans; [exact Hc|exact Hs].
      * apply Forall_app. split; [done|]. by repeat constructor.
      * congruence.
  - exists (evs ++ [CallSend (util_or_channel handler) startText]).
    split; [|split].
    + eapply calls_trans; [exact Hc|exact Hs].
    + apply Forall_app. split; [done|]. by repeat constructor.
    + congruence.
  - exists (evs ++ [CallSend (util_or_channel handler) startText]).
    split; [|split].
    + eapply calls_trans; [exact Hc|exact Hs].
    + apply Forall_app. split; [done|]. by repeat constructor.
    + congruence.
  - exists (evs ++ [CallSend (util_or_channel handler) startText]).
    split; [|split].
    + eapply calls_trans; [exact Hc|exact Hs].
    + apply Forall_app. split; [done|]. by repeat constructor.
    + congruence.
Qed.

Lemma catch_block_calls err prevMessage retryCount st :
  exists evs,
    calls st evs
      (snd (catch_block transport message prompt isInfinite err prevMessage
              retryCount st)).
Proof.
  unfold catch_block.
  destruct (instanceof_Error err); [exists []; apply calls_refl|].
  destruct (is_COMMAND_CANCELLED err); [exists []; apply calls_refl|].
  destruct (getText_calls (timeout prompt) retryCount prevMessage "" st)
    as (evs & Hc & _ & _).
  destruct (getText message isInfinite (timeout prompt) retryCount prevMessage "" st)
    as [timeoutText st1]. simpl in Hc.
  destruct (truthy_text timeoutText).
  - destruct (send_calls ViaChannel timeoutText st1) as [Hs _].
    exists ((evs ++ [CallSend ViaChannel timeoutText]) ++ []).
    destruct (send transport ViaChannel timeoutText st1) as [[m|e| |] st2];
      simpl in *;
      (eapply calls_trans; [eapply calls_trans; [exact Hc|exact Hs]|]);
      first [apply calls_removePrompt | apply calls_refl].
  - exists (evs ++ []). simpl.
    eapply calls_trans; [exact Hc|apply calls_removePrompt].
Qed.

Lemma try_block_frame w sent retryCount st :
  exists evs mid,
    calls (awaiting prompt st) evs mid /\
    (snd (try_block toLowerCase transport fuel handler this message prompt
            isInfinite w sent retryCount st) = mid
     \/ exists v,
          snd (try_block toLowerCase transport fuel handler this message prompt
                 isInfinite w sent retryCount st) = push v mid
          /\ forall err,
               fst (try_block toLowerCase transport fuel handler this message
                      prompt isInfinite w sent retryCount st) <> Caught err).
Proof.
  unfold try_block. set (st0 := awaiting prompt st).
  destruct (awaitMessages (reply_filter message sent) w) as [input|e| |];
    try (by exists [], st0; split; [apply calls_refl|left]).
  destruct (same_word toLowerCase (msg_content input) (cancelWord prompt)).
  { destruct (getText_calls (cancel prompt) retryCount input "" st0)
      as (evs & Hc & _ & _).
    destruct (getText message isInfinite (cancel prompt) retryCount input "" st0)
      as [cancelText st1]. simpl in Hc.
    destruct (truthy_text cancelText).
    - destruct (send_calls ViaChannel cancelText st1) as [Hs _].
      destruct (send transport ViaChannel cancelText st1) as [[m|e| |] st2];
        simpl in *; eexists _, _; (split; [|left; reflexivity]);
        (eapply calls_trans; [exact Hc|]);
        first [exact Hs | eapply calls_trans; [exact Hs|apply calls_removePrompt]].
    - simpl. eexists _, _. split; [|left; reflexivity].
      eapply calls_trans; [exact Hc|]. apply calls_removePrompt. }
  destruct (isInfinite && same_word toLowerCase (msg_content input) (stopWord prompt)).
  { destruct (values_length st0 =? 0);
      by exists [], st0; split; [apply calls_refl|left]. }
  assert (calls st0 [CallCast (msg_content input) input (snapshot st0)]
            (casting input st0)) as Hcast
    by (apply calls_emit; by intros a' [= <-]).
  change (snapshot (casting input st0)) with (snapshot st0).
  destruct (cast toLowerCase fuel handler this (msg_content input) input
              (snapshot st0)) as [v|e| |];
    try (by eexists _, _; split; [exact Hcast|left]).
  destruct (nullish v); [by eexists _, _; split; [exact Hcast|left]|].
  destruct isInfinite; [|by eexists _, _; split; [exact Hcast|left]].
  destruct (below _ _); eexists _, _; (split; [exact Hcast|right; by exists v]).
Qed.

Lemma try_catch_frame w sent prevMessage retryCount st :
  exists evs mid,
    calls (awaiting prompt st) evs mid /\
    (snd (try_catch toLowerCase transport fuel handler this message prompt
            isInfinite w sent prevMessage retryCount st) = mid
     \/ exists v,
          snd (try_catch toLowerCase transport fuel handler this message prompt
                 isInfinite w sent prevMessage retryCount st) = push v mid).
Proof.
  unfold try_catch. destruct w as [w|];
    [|by exists [], (awaiting prompt st); split; [apply calls_refl|left]].
  destruct (try_block_frame w sent retryCount st) as (evs2 & mid & Hc & Hend).
  destruct (try_block toLowerCase transport fuel handler this message prompt
              isInfinite w sent retryCount st) as [[v|prev rc|r|err] st2];
    simpl in Hend;
    try (exists evs2, mid; split; [exact Hc|];
         destruct Hend as [->|(v' & -> & _)]; [by left|right; by exists v']).
  destruct (catch_block_calls err prevMessage retryCount st2) as (evs3 & Hcb).
  destruct (catch_block transport message prompt isInfinite err prevMessage
              retryCount st2) as [r st3]. simpl in Hcb |- *.
  destruct Hend as [->|(v & _ & Hne)]; [|by destruct (Hne err)].
  eexists _, _. split; [|left; reflexivity].
  eapply calls_trans; [exact Hc|exact Hcb].
Qed.

Lemma calls_awaiting st :
  calls st [CallAwait (time prompt)] (awaiting prompt st).
Proof. apply calls_emit. by intros a' [=]. Qed.

Lemma calls_entered retryCount st :
  calls st [Turn retryCount] (entered message retryCount st).
Proof.
  unfold entered. replace [Turn retryCount] with ([Turn retryCount] ++ []) by done.
  eapply calls_trans; [apply calls_emit; by intros a' [=]|apply calls_addPrompt].
Qed.

(** The log of the [try ... catch] statement begins with the call of
    [awaitMessages]. *)
Lemma try_catch_log w sent prevMessage retryCount st :
  exists evs,
    log (snd (try_catch toLowerCase transport fuel handler this message prompt
                isInfinite w sent prevMessage retryCount st))
    = log st ++ CallAwait (time prompt) :: evs.
Proof.
  destruct (try_catch_frame w sent prevMessage retryCount st)
    as (evs & mid & (_ & _ & Hl & _) & Hend).
  exists evs. rewrite log_awaiting, <- app_assoc in Hl.
  destruct Hend as [->|[v ->]]; exact Hl.
Qed.

Lemma turn_frame w prevMessage retryCount st :
  exists evs mid,
    calls st (Turn retryCount :: evs) mid /\
    (snd (turn toLowerCase transport fuel handler this message commandInput
            prompt isInfinite w prevMessage retryCount st) = mid
     \/ exists v,
          snd (turn toLowerCase transport fuel handler this message commandInput
                 prompt isInfinite w prevMessage retryCount st) = push v mid).
Proof.
  unfold turn.
  destruct (send_prompt_calls prevMessage retryCount (entered message retryCount st))
    as (evs & Hs & _ & _).
  destruct (send_prompt transport handler message commandInput prompt isInfinite
              prevMessage retryCount (entered message retryCount st))
    as [[sent|e| |] st1]; simpl in Hs;
    try (by exists evs; eexists; split;
           [apply (calls_trans _ [Turn retryCount] _ evs _
                     (calls_entered retryCount st) Hs)|left]).
  destruct (try_catch_frame w sent prevMessage retryCount st1)
    as (evs2 & mid & Hc & Hend).
  exists (evs ++ [CallAwait (time prompt)] ++ evs2), mid. split; [|exact Hend].
  apply (calls_trans _ [Turn retryCount] _ _ _ (calls_entered retryCount st)).
  eapply calls_trans; [exact Hs|].
  eapply calls_trans; [apply calls_awaiting|exact Hc].
Qed.

End Frames.

(* ------------------------------------------------------------------ *)
(** ** The shared array of an infinite prompt *)

Lemma accumulates_trans id vs st evs1 st1 evs2 st2 :
  accumulates id vs st evs1 st1 ->
  (forall vs1, values st1 = Some (id, vs1) -> accumulates id vs1 st1 evs2 st2) ->
  accumulates id vs st (evs1 ++ evs2) st2.
Proof.
  intros (vs1 & Ha1 & Hv1 & Hp1 & Hl1 & Hf1) H2.
  destruct (H2 vs1 Hv1) as (vs2 & Ha2 & Hv2 & Hp2 & Hl2 & Hf2).
  exists vs2. rewrite Ha2, Ha1, Hl2, Hl1, <- app_assoc.
  repeat split; try done; [by etrans|].
  apply Forall_app. split.
  - eapply Forall_impl; [exact Hf1|]. intros e He a Hea.
    destruct (He a Hea) as (u & -> & Hu1 & Hu2). exists u.
    repeat split; try done. by etrans.
  - eapply Forall_impl; [exact Hf2|]. intros e He a Hea.
    destruct (He a Hea) as (u & -> & Hu1 & Hu2). exists u. rewrite Ha1.
    repeat split; try done. by etrans.
Qed.

Lemma calls_accumulates id vs st evs mid v :
  values st = Some (id, vs) ->
  calls st evs mid ->
  accumulates id vs st evs mid /\ accumulates id vs st evs (push v mid).
Proof.
  intros Hv (Ha & Hvm & Hl & Hf).
  assert (Forall (fun e => forall a, event_args e = Some a ->
                    exists u, a = <[id := VArray vs]> (args st) /\ u = vs) evs) as Hf'.
  { eapply Forall_impl; [exact Hf|]. intros e He a Hea. exists vs.
    rewrite (He a Hea). unfold snapshot. by rewrite Hv. }
  split.
  - exists vs. rewrite Hvm. repeat split; try done.
    eapply Forall_impl; [exact Hf'|]. intros e He a Hea.
    destruct (He a Hea) as (u & -> & ->). by exists vs.
  - exists (vs ++ [v]). unfold push. simpl. rewrite Hvm, Hv.
    repeat split; try done; [by apply prefix_app_r|].
    eapply Forall_impl; [exact Hf'|]. intros e He a Hea.
    destruct (He a Hea) as (u & -> & ->). exists vs.
    repeat split; try done. by apply prefix_app_r.
Qed.

Section SharedValues.

Variable toLowerCase : string -> string.
Variable transport : list event -> text -> send_answer.
Variable fuel : nat.
Variable handler : CommandHandler.
Variable command : Command.
Variable this : Argument.

Lemma turn_accumulates message commandInput prompt isInfinite w prevMessage
    retryCount st id vs :
  values st = Some (id, vs) ->
  exists evs,
    accumulates id vs st evs
      (snd (turn toLowerCase transport fuel handler this message commandInput
              prompt isInfinite w prevMessage retryCount st)).
Proof.
  intros Hv.
  destruct (turn_frame toLowerCase transport fuel handler this message
              commandInput prompt isInfinite w prevMessage retryCount st)
    as (evs & mid & Hc & [->|[v ->]]); exists (Turn retryCount :: evs).
  - by apply (calls_accumulates id vs st _ mid VNull).
  - by apply (calls_accumulates id vs st _ mid v).
Qed.

Lemma promptOne_accumulates message commandInput prompt isInfinite ws :
  forall prevMessage retryCount st id vs,
    values st = Some (id, vs) ->
    exists evs,
      accumulates id vs st evs
        (snd (promptOne toLowerCase transport fuel handler this message
                commandInput prompt isInfinite ws prevMessage retryCount st)).
Proof.
  induction ws as [|w ws IH]; intros prevMessage retryCount st id vs Hv; simpl.
  - destruct (turn_accumulates message commandInput prompt isInfinite None
                prevMessage retryCount st id vs Hv) as [evs He].
    exists evs. by destruct (turn _ _ _ _ _ _ _ _ _ None _ _ _) as [[r|prev rc] st'].
  - destruct (turn_accumulates message commandInput prompt isInfinite (Some w)
                prevMessage retryCount st id vs Hv) as [evs He].
    destruct (turn _ _ _ _ _ _ _ _ _ (Some w) _ _ _) as [[r|prev rc] st'];
      simpl in He; [by exists evs|].
    destruct He as (vs1 & Ha1 & Hv1 & Hrest).
    destruct (IH prev rc st' id vs1 Hv1) as [evs2 He2].
    exists (evs ++ evs2). eapply accumulates_trans; [by exists vs1|].
    intros vs1' Hv1'. by replace vs1' with vs1 by congruence.
Qed.

End SharedValues.

(* ------------------------------------------------------------------ *)
(** ** Infinite prompts *)

Lemma values_push st id vs v :
  values st = Some (id, vs) -> values (push v st) = Some (id, vs ++ [v]).
Proof. intros H. unfold push. simpl. by rewrite H. Qed.

Lemma values_length_some st id vs :
  values st = Some (id, vs) -> values_length st = length vs.
Proof. intros H. unfold values_length, elements_of_values. by rewrite H. Qed.

Lemma elements_some st id vs :
  values st = Some (id, vs) -> elements_of_values st = vs.
Proof. intros H. unfold elements_of_values. by rewrite H. Qed.

Lemma snapshot_some st id vs :
  values st = Some (id, vs) -> snapshot st = <[id := VArray vs]> (args st).
Proof. intros H. unfold snapshot. by rewrite H. Qed.

Lemma log_push_casting v input st :
  log (push v (casting input st))
  = log st ++ [CallCast (msg_content input) input (snapshot st)].
Proof. done. Qed.

Lemma log_entered message retryCount st :
  log (entered message retryCount st) = log st ++ [Turn retryCount].
Proof. done. Qed.

Section InfiniteTurn.

Variable toLowerCase : string -> string.
Variable transport : list event -> text -> send_answer.
Variable fuel : nat.
Variable handler : CommandHandler.
Variable this : Argument.
Variable message : Message.
Variable commandInput : option string.
Variable prompt : ArgumentPromptOptions.

Local Abbreviation send_prompt_ :=
  (send_prompt transport handler message commandInput prompt true).
Local Abbreviation turn_ :=
  (turn toLowerCase transport fuel handler this message commandInput prompt true).

(** Once a value is accumulated, a turn entered with [retryCount] 1 sends
    no prompt text. *)
Lemma send_prompt_suppressed prevMessage st :
  values_length st <> 0 ->
  send_prompt_ prevMessage 1 st = (Resolved None, st).
Proof.
  intros H. unfold send_prompt, shouldSend. simpl.
  by destruct (values_length st).
Qed.

(** A turn of an infinite prompt whose reply is cast with success: the
    value is pushed; below the limit a new turn starts with [retryCount] 1,
    at the limit the array is returned. *)
Lemma turn_valid_reply w prevMessage retryCount st sent st1 id vs input v :
  send_prompt_ prevMessage retryCount (entered message retryCount st)
  = (Resolved sent, st1) ->
  values st1 = Some (id, vs) ->
  valid_reply toLowerCase fuel handler this message prompt sent w
    (<[id := VArray vs]> (args st1)) input v ->
  turn_ (Some w) prevMessage retryCount st =
    (if below (S (length vs)) (limit prompt)
     then Next message 1
     else Settles (Resolved (VArray (vs ++ [v]))),
     push v (casting input (awaiting prompt st1))).
Proof.
  intros H Hv (Hw & Hc & Hs & Hcast & Hnull).
  rewrite (turn_cast _ _ _ _ _ _ _ _ _ _ _ _ _ sent st1 input H Hw Hc)
    by (by rewrite Hs).
  rewrite (snapshot_some st1 id vs Hv), Hcast, Hnull.
  assert (values (casting input (awaiting prompt st1)) = Some (id, vs)) as Hv' by done.
  rewrite (values_length_some _ id (vs ++ [v]) (values_push _ _ _ v Hv')).
  rewrite (elements_some _ id (vs ++ [v]) (values_push _ _ _ v Hv')).
  rewrite length_app. simpl. replace (length vs + 1) with (S (length vs)) by lia.
  by destruct (below (S (length vs)) (limit prompt)).
Qed.

End InfiniteTurn.

(* ------------------------------------------------------------------ *)
(** ** Sessions *)

Section SessionProperties.

Variable toLowerCase : string -> string.
Variable transport : list event -> text -> send_answer.
Variable fuel : nat.
Variable handler : CommandHandler.
Variable this : Argument.
Variable message : Message.
Variable commandInput : option string.
Variable prompt : ArgumentPromptOptions.
Variable isInfinite : bool.

Local Abbreviation reaches_ :=
  (reaches toLowerCase transport fuel handler this message commandInput prompt
     isInfinite).
Local Abbreviation turn_ :=
  (turn toLowerCase transport fuel handler this message commandInput prompt
     isInfinite).
Local Abbreviation promptOne_ :=
  (promptOne toLowerCase transport fuel handler this message commandInput
     prompt isInfinite).

Lemma promptOne_reaches pre ws prev rc st prev' rc' st' :
  reaches_ pre prev rc st prev' rc' st' ->
  promptOne_ (pre ++ ws) prev rc st = promptOne_ ws prev' rc' st'.
Proof.
  induction 1 as [|w pre prev rc st prev1 rc1 st1 prev2 rc2 st2 Ht _ IH]; [done|].
  simpl. by rewrite Ht.
Qed.

Lemma reaches_snoc pre w prev rc st prev1 rc1 st1 prev2 rc2 st2 :
  reaches_ pre prev rc st prev1 rc1 st1 ->
  turn_ (Some w) prev1 rc1 st1 = (Next prev2 rc2, st2) ->
  reaches_ (pre ++ [w]) prev rc st prev2 rc2 st2.
Proof.
  induction 1 as [|w' pre prev rc st p1 r1 s1 p2 r2 s2 Ht _ IH]; intros Hw; simpl.
  - econstructor; [exact Hw|constructor].
  - econstructor; [exact Ht|by apply IH].
Qed.

(** On the way [args] stays as it is, and [values] only grows. *)
Lemma reaches_store pre prev rc st prev' rc' st' :
  reaches_ pre prev rc st prev' rc' st' ->
  forall id vs,
    values st = Some (id, vs) ->
    exists vs', values st' = Some (id, vs') /\ args st' = args st
                /\ vs `prefix_of` vs'.
Proof.
  induction 1 as [|w pre prev rc st prev1 rc1 st1 prev2 rc2 st2 Ht _ IH];
    intros id vs Hv; [by exists vs|].
  destruct (turn_accumulates toLowerCase transport fuel handler this message
              commandInput prompt isInfinite (Some w) prev rc st id vs Hv)
    as (evs & vs1 & Ha1 & Hv1 & Hp1 & _).
  rewrite Ht in Ha1, Hv1. simpl in Ha1, Hv1.
  destruct (IH id vs1 Hv1) as (vs2 & Hv2 & Ha2 & Hp2).
  exists vs2. rewrite Ha2, Ha1. repeat split; try done. by etrans.
Qed.

End SessionProperties.

(* ------------------------------------------------------------------ *)
(** ** Properties of [collect] and [process] *)

Section Claims.

Variable toLowerCase : string -> string.
Variable trim : string -> string.
Variable transport : list event -> text -> send_answer.
Variable fuel : nat.
Variable handler : CommandHandler.
Variable command : Command.
Variable this : Argument.

Local Abbreviation prompt_ := (merged_prompt handler command this).
Local Abbreviation cast_ := (cast toLowerCase fuel handler this).
Local Abbreviation collect_ :=
  (collect toLowerCase transport fuel handler command this).
Local Abbreviation process_ :=
  (process toLowerCase trim transport fuel handler command this).
Local Abbreviation infinite_ m ci st := (is_infinite handler command this m ci st).
Local Abbreviation session_reaches_ :=
  (session_reaches toLowerCase transport fuel handler command this).

(** C5. In an infinite prompt with [limit] 3, once the first prompt text is
    sent (or suppressed), three successive replies that are each cast with
    success make [collect] return the array of the three values in the
    order of arrival. The log shows three calls of [promptOne] and three of
    [awaitMessages]: whatever the script holds after the third reply is
    not awaited. *)
Theorem collect_limit_three
    ws message commandInput st sent st1 w1 w2 w3 r1 r2 r3 v1 v2 v3 :
  let id := arg_id this in
  let seen := fun vs => <[id := VArray vs]> (snapshot st) in
  let rc := 1 + Number_Boolean_commandInput commandInput in
  is_infinite handler command this message commandInput st = true ->
  limit prompt_ = Finite 3 ->
  send_prompt transport handler message commandInput prompt_ true message rc
    (entered message rc (init_values id true st)) = (Resolved sent, st1) ->
  valid_reply toLowerCase fuel handler this message prompt_ sent w1
    (seen []) r1 v1 ->
  valid_reply toLowerCase fuel handler this message prompt_ None w2
    (seen [v1]) r2 v2 ->
  valid_reply toLowerCase fuel handler this message prompt_ None w3
    (seen [v1; v2]) r3 v3 ->
  exists st',
    collect_ (w1 :: w2 :: w3 :: ws) message commandInput st
    = (Resolved (VArray [v1; v2; v3]), st')
    /\ log st' =
       log st1
       ++ [CallAwait (time prompt_); CallCast (msg_content r1) r1 (seen []);
           Turn 1;
           CallAwait (time prompt_); CallCast (msg_content r2) r2 (seen [v1]);
           Turn 1;
           CallAwait (time prompt_); CallCast (msg_content r3) r3 (seen [v1; v2])]
       ++ (if h_commandUtil handler then [SetShouldEdit] else [])
    /\ turns (log st') = turns (log st) + 3.
Proof.
  intros id seen rc Hinf Hlim H0 Hr1 Hr2 Hr3.
  destruct (send_prompt_calls transport handler message commandInput prompt_
              true message rc (entered message rc (init_values id true st)))
    as (evs0 & (Ha0 & Hv0 & Hl0 & _) & Hev0 & _).
  rewrite H0 in Ha0, Hv0, Hl0. simpl in Ha0, Hv0, Hl0.
  (* the first turn *)
  pose proof (turn_valid_reply toLowerCase transport fuel handler this message
                commandInput prompt_ w1 message rc (init_values id true st)
                sent st1 id [] r1 v1 H0 Hv0) as T1.
  rewrite Ha0, Hlim in T1. specialize (T1 Hr1). simpl in T1.
  set (st2 := push v1 (casting r1 (awaiting prompt_ st1))) in *.
  assert (values st2 = Some (id, [v1])) as Hv2
    by (apply (values_push _ id [] v1); exact Hv0).
  (* the second turn *)
  assert (send_prompt transport handler message commandInput prompt_ true
            message 1 (entered message 1 st2)
          = (Resolved None, entered message 1 st2)) as H2.
  { apply send_prompt_suppressed.
    by rewrite (values_length_some _ id [v1]). }
  pose proof (turn_valid_reply toLowerCase transport fuel handler this message
                commandInput prompt_ w2 message 1 st2
                None (entered message 1 st2) id [v1] r2 v2 H2 Hv2) as T2.
  change (args (entered message 1 st2)) with (args st1) in T2.
  rewrite Ha0, Hlim in T2. specialize (T2 Hr2). simpl in T2.
  set (st3 := push v2 (casting r2 (awaiting prompt_ (entered message 1 st2)))) in *.
  assert (values st3 = Some (id, [v1; v2])) as Hv3
    by (apply (values_push _ id [v1] v2); exact Hv2).
  (* the third turn *)
  assert (send_prompt transport handler message commandInput prompt_ true
            message 1 (entered message 1 st3)
          = (Resolved None, entered message 1 st3)) as H3.
  { apply send_prompt_suppressed.
    by rewrite (values_length_some _ id [v1; v2]). }
  pose proof (turn_valid_reply toLowerCase transport fuel handler this message
                commandInput prompt_ w3 message 1 st3
                None (entered message 1 st3) id [v1; v2] r3 v3 H3 Hv3) as T3.
  change (args (entered message 1 st3)) with (args st1) in T3.
  rewrite Ha0, Hlim in T3. specialize (T3 Hr3). simpl in T3.
  set (st4 := push v3 (casting r3 (awaiting prompt_ (entered message 1 st3)))) in *.
  (* the session *)
  assert (log (finished handler message st4) =
          log st1
          ++ [CallAwait (time prompt_); CallCast (msg_content r1) r1 (seen []);
              Turn 1;
              CallAwait (time prompt_); CallCast (msg_content r2) r2 (seen [v1]);
              Turn 1;
              CallAwait (time prompt_); CallCast (msg_content r3) r3 (seen [v1; v2])]
          ++ (if h_commandUtil handler then [SetShouldEdit] else [])) as Hlog.
  { assert (snapshot st1 = seen []) as Hs1
      by (by rewrite (snapshot_some st1 id [] Hv0), Ha0).
    assert (snapshot (awaiting prompt_ (entered message 1 st2)) = seen [v1]) as Hs2.
    { rewrite (snapshot_some _ id [v1]) by exact Hv2.
      change (args (awaiting prompt_ (entered message 1 st2))) with (args st1).
      by rewrite Ha0. }
    assert (snapshot (awaiting prompt_ (entered message 1 st3)) = seen [v1; v2]) as Hs3.
    { rewrite (snapshot_some _ id [v1; v2]) by exact Hv3.
      change (args (awaiting prompt_ (entered message 1 st3))) with (args st1).
      by rewrite Ha0. }
    assert (log (finished handler message st4)
            = log st4 ++ (if h_commandUtil handler then [SetShouldEdit] else []))
      as -> by (unfold finished; destruct (h_commandUtil handler); simpl;
                by rewrite ?app_nil_r).
    rewrite (app_assoc (log st1)). f_equal.
    unfold st4. rewrite log_push_casting, Hs3, log_awaiting, log_entered.
    unfold st3. rewrite log_push_casting, Hs2, log_awaiting, log_entered.
    unfold st2. rewrite log_push_casting, log_awaiting.
    change (snapshot (awaiting prompt_ st1)) with (snapshot st1). rewrite Hs1.
    by rewrite <- !app_assoc. }
  exists (finished handler message st4). split; [|split].
  - unfold collect. rewrite Hinf. fold id rc.
    rewrite (promptOne_next _ _ _ _ _ _ _ _ _ _ _ _ _ _ _ _ _ T1).
    rewrite (promptOne_next _ _ _ _ _ _ _ _ _ _ _ _ _ _ _ _ _ T2).
    rewrite (promptOne_settles _ _ _ _ _ _ _ _ _ _ _ _ _ _ _ _ T3).
    reflexivity.
  - exact Hlog.
  - assert (turns (log st1) = turns (log st) + 1) as Ht1.
    { rewrite Hl0. unfold turns. rewrite !count_events_app.
      replace (count_events is_turn evs0) with 0; [done|].
      clear -Hev0. induction Hev0 as [|e evs He _ IH]; [done|].
      destruct e; try done. }
    rewrite Hlog. unfold turns in *. rewrite !count_events_app, Ht1.
    destruct (h_commandUtil handler); cbn; lia.
Qed.

(** [collect], from a call of [promptOne] its session reaches. *)
Lemma collect_from pre ws message commandInput st prev rc st' :
  session_reaches_ pre message commandInput st prev rc st' ->
  collect_ (pre ++ ws) message commandInput st =
    match promptOne toLowerCase transport fuel handler this message
            commandInput prompt_ (infinite_ message commandInput st)
            ws prev rc st' with
    | (Resolved returnValue, st'') =>
        (Resolved returnValue, finished handler message st'')
    | (r, st'') => (r, st'')
    end.
Proof.
  intros H. unfold collect, session_reaches in *.
  by rewrite (promptOne_reaches _ _ _ _ _ _ _ _ _ _ ws _ _ _ _ _ _ H).
Qed.

(** C6. In infinite mode, on any turn of a session, a reply that is the
    stop word up to case (the cancel word is tested first, so the reply is
    not the cancel word when the stop word is looked at) is taken for
    invalid input while nothing is accumulated: the session goes on with
    the call [promptOne(input, retryCount + 1)]. Once a value is
    accumulated the same reply ends the session, and [collect] returns the
    accumulated array. *)
Theorem stop_word_reply
    pre w ws message commandInput st prev rc st0 sent st1 input :
  infinite_ message commandInput st = true ->
  session_reaches_ pre message commandInput st prev rc st0 ->
  send_prompt transport handler message commandInput prompt_ true prev rc
    (entered message rc st0) = (Resolved sent, st1) ->
  awaitMessages (reply_filter message sent) w = Resolved input ->
  same_word toLowerCase (msg_content input) (stopWord prompt_) = true ->
  same_word toLowerCase (msg_content input) (cancelWord prompt_) = false ->
  (elements_of_values st1 = [] ->
   session_reaches_ (pre ++ [w]) message commandInput st input (rc + 1)
     (awaiting prompt_ st1))
  /\ (elements_of_values st1 <> [] ->
      collect_ (pre ++ w :: ws) message commandInput st
      = (Resolved (VArray (elements_of_values st1)),
         finished handler message (awaiting prompt_ st1))).
Proof.
  intros Hinf Hreach H Hw Hs Hc.
  pose proof (turn_stop toLowerCase transport fuel handler this message
                commandInput prompt_ true w prev rc st0 sent st1 input
                H Hw Hc eq_refl Hs) as T.
  unfold values_length in T. split; intros Hvs.
  - unfold session_reaches in *. rewrite Hinf in *.
    eapply reaches_snoc; [exact Hreach|]. by rewrite Hvs in T.
  - rewrite (collect_from pre (w :: ws) _ _ _ _ _ _ Hreach), Hinf.
    destruct (elements_of_values st1) as [|v vs]; [done|]. simpl in T.
    by rewrite (promptOne_settles _ _ _ _ _ _ _ _ _ _ _ _ _ _ _ _ T).
Qed.

(** C7 (amended). On any turn of a session, first or retry, a reply that is
    the cancel word up to case makes [collect] throw the cancellation,
    once: nothing is sent after the cancel text, and the registry no
    longer holds the prompt. This is so whenever the cancel text is
    suppressed or the transport accepts it. *)
Theorem cancel_word_reply
    pre w ws message commandInput st prev rc st0 sent st1 input cancelText st2 :
  session_reaches_ pre message commandInput st prev rc st0 ->
  send_prompt transport handler message commandInput prompt_
    (infinite_ message commandInput st) prev rc (entered message rc st0)
  = (Resolved sent, st1) ->
  awaitMessages (reply_filter message sent) w = Resolved input ->
  same_word toLowerCase (msg_content input) (cancelWord prompt_) = true ->
  getText message (infinite_ message commandInput st) (cancel prompt_) rc
    input "" (awaiting prompt_ st1) = (cancelText, st2) ->
  (truthy_text cancelText = true ->
   exists m, transport (log st2) cancelText = Sent m) ->
  exists st',
    collect_ (pre ++ w :: ws) message commandInput st = (Thrown ThCancelled, st')
    /\ ~ hasPrompt message st'
    /\ log st' = log st2 ++ (if truthy_text cancelText
                             then [CallSend ViaChannel cancelText] else []).
Proof.
  intros Hreach H Hw Hc Ht Hsend.
  pose proof (turn_cancel toLowerCase transport fuel handler this message
                commandInput prompt_ _ w prev rc st0 sent st1 input cancelText
                st2 H Hw Hc Ht Hsend) as T.
  eexists. split; [|split].
  - rewrite (collect_from pre (w :: ws) _ _ _ _ _ _ Hreach).
    by rewrite (promptOne_settles _ _ _ _ _ _ _ _ _ _ _ _ _ _ _ _ T).
  - unfold hasPrompt, removePrompt. simpl. intros Hin.
    apply elem_of_difference in Hin as [_ Hn]. apply Hn. by apply elem_of_singleton.
  - simpl. destruct (truthy_text cancelText); simpl; by rewrite ?app_nil_r.
Qed.

(** X2. On any turn of a session, when no reply comes within the time allowed,
    [collect] sends the time-out text, if there is one and the transport
    accepts it, and nothing after it, removes the prompt from the registry
    and throws the cancellation. *)
Theorem timeout_cancels
    pre w ws message commandInput st prev rc st0 sent st1 timeoutText st2 :
  session_reaches_ pre message commandInput st prev rc st0 ->
  send_prompt transport handler message commandInput prompt_
    (infinite_ message commandInput st) prev rc (entered message rc st0)
  = (Resolved sent, st1) ->
  awaitMessages (reply_filter message sent) w = Thrown ThTime ->
  getText message (infinite_ message commandInput st) (timeout prompt_) rc
    prev "" (awaiting prompt_ st1) = (timeoutText, st2) ->
  (truthy_text timeoutText = true ->
   exists m, transport (log st2) timeoutText = Sent m) ->
  exists st',
    collect_ (pre ++ w :: ws) message commandInput st = (Thrown ThCancelled, st')
    /\ ~ hasPrompt message st'
    /\ log st' = log st2 ++ (if truthy_text timeoutText
                             then [CallSend ViaChannel timeoutText] else []).
Proof.
  intros Hreach H Hw Ht Hsend.
  pose proof (turn_await_fails toLowerCase transport fuel handler this message
                commandInput prompt_ _ w prev rc st0 sent st1 ThTime H Hw) as T.
  rewrite (catch_block_other transport message prompt_ _ ThTime prev rc _
             timeoutText st2 eq_refl eq_refl Ht Hsend) in T.
  eexists. split; [|split].
  - rewrite (collect_from pre (w :: ws) _ _ _ _ _ _ Hreach).
    by rewrite (promptOne_settles _ _ _ _ _ _ _ _ _ _ _ _ _ _ _ _ T).
  - unfold hasPrompt, removePrompt. simpl. intros Hin.
    apply elem_of_difference in Hin as [_ Hn]. apply Hn. by apply elem_of_singleton.
  - simpl. destruct (truthy_text timeoutText); simpl; by rewrite ?app_nil_r.
Qed.

(** C4. When the trimmed word is empty and the argument has a prompt with
    [optional: true], [process] returns what the default gives, awaited
    when it is a promise, and calls neither [send] nor [awaitMessages]:
    the only call it makes is that of the default function. *)
Theorem process_optional_default ws word message st p :
  nonempty (trim word) = false ->
  arg_prompt this = Some p ->
  lit_optional p = Some true ->
  process_ ws word message st
  = (call_then_await (arg_default this message (snapshot st)),
     emit (CallDefault message (snapshot st)) st)
  /\ (forall v, arg_default this message (snapshot st) = Returns (Value v) ->
      fst (process_ ws word message st) = Resolved v)
  /\ (forall v, arg_default this message (snapshot st)
                = Returns (Promise (Fulfilled v)) ->
      fst (process_ ws word message st) = Resolved v)
  /\ List.filter is_transport_call (log (snd (process_ ws word message st)))
     = List.filter is_transport_call (log st)
  /\ prompts (snd (process_ ws word message st)) = prompts st.
Proof.
  intros Hw Hp Ho.
  assert (process_ ws word message st
          = (call_then_await (arg_default this message (snapshot st)),
             emit (CallDefault message (snapshot st)) st)) as E.
  { unfold process. by rewrite Hw, Hp, Ho. }
  rewrite E. split; [done|]. split; [|split; [|split]].
  - intros v Hv. simpl. by rewrite Hv.
  - intros v Hv. simpl. by rewrite Hv.
  - simpl. by rewrite List.filter_app, app_nil_r.
  - done.
Qed.

End Claims.

(* ------------------------------------------------------------------ *)
(** ** Prompt texts given as functions *)

Section TextProperties.

Variable toLowerCase : string -> string.
Variable transport : list event -> text -> send_answer.
Variable fuel : nat.
Variable handler : CommandHandler.
Variable this : Argument.
Variable message : Message.
Variable commandInput : option string.
Variable prompt : ArgumentPromptOptions.
Variable isInfinite : bool.

Local Abbreviation send_prompt_ :=
  (send_prompt transport handler message commandInput prompt isInfinite).
Local Abbreviation turn_ :=
  (turn toLowerCase transport fuel handler this message commandInput prompt
     isInfinite).

(** C9 (amended). A prompt text given as a function is called with the
    message of the command, [args], and the data
    [{retries, infinite, message, word}]; a resolved array of strings is
    joined with line feeds, and a resolved text that is empty or falsy is
    not sent.
    - [start] (on [retryCount] 1) and [retry] (otherwise) get the previous
      message, and for [word] the input of the command, or the empty
      string, while [retryCount <= 1 + Number(Boolean(commandInput))], and
      the content of the previous reply after that.
    - [cancel] gets the cancelling reply, and [timeout] the previous
      message; both get the empty string for [word], on every turn. *)
Theorem text_function_calls f w prevMessage retryCount st :
  (shouldSend isInfinite retryCount st = true ->
   (if retryCount =? 1 then start prompt else retry prompt) = TextFn f ->
   let data := mkData retryCount isInfinite prevMessage
                 (if retryCount <=? 1 + (if truthy_input commandInput then 1 else 0)
                  then default "" commandInput
                  else msg_content prevMessage) in
   let t := joined (f message (snapshot st) data) in
   exists rest,
     log (snd (turn_ w prevMessage retryCount st))
     = log st ++ Turn retryCount :: CallText (snapshot st) data :: rest
     /\ head rest = Some (if truthy_text t
                          then CallSend (util_or_channel handler) t
                          else CallAwait (time prompt)))
  /\ (forall w' sent st1 input,
        w = Some w' ->
        send_prompt_ prevMessage retryCount (entered message retryCount st)
        = (Resolved sent, st1) ->
        awaitMessages (reply_filter message sent) w' = Resolved input ->
        same_word toLowerCase (msg_content input) (cancelWord prompt) = true ->
        cancel prompt = TextFn f ->
        let data := mkData retryCount isInfinite input "" in
        let t := joined (f message (snapshot st1) data) in
        exists rest,
          log (snd (turn_ w prevMessage retryCount st))
          = log st1 ++ CallAwait (time prompt) :: CallText (snapshot st1) data :: rest
          /\ (truthy_text t = true -> head rest = Some (CallSend ViaChannel t))
          /\ (truthy_text t = false -> rest = []))
  /\ (forall w' sent st1 e,
        w = Some w' ->
        send_prompt_ prevMessage retryCount (entered message retryCount st)
        = (Resolved sent, st1) ->
        awaitMessages (reply_filter message sent) w' = Thrown e ->
        instanceof_Error e = false ->
        is_COMMAND_CANCELLED e = false ->
        timeout prompt = TextFn f ->
        let data := mkData retryCount isInfinite prevMessage "" in
        let t := joined (f message (snapshot st1) data) in
        log (snd (turn_ w prevMessage retryCount st))
        = log st1 ++ CallAwait (time prompt) :: CallText (snapshot st1) data
            :: (if truthy_text t then [CallSend ViaChannel t] else [])).
Proof.
  split; [|split].
  - intros Hsend Hf data t.
    assert (prevInput commandInput prevMessage retryCount = data_word data) as Hword.
    { unfold prevInput, Number_Boolean_commandInput. simpl.
      destruct (retryCount <=? _); [|done].
      destruct commandInput as [s|]; [|done]. simpl.
      unfold nonempty. by destruct (String.eqb_spec s "") as [->|]. }
    unfold turn, send_prompt.
    change (shouldSend isInfinite retryCount (entered message retryCount st))
      with (shouldSend isInfinite retryCount st).
    rewrite Hsend, Hf, Hword. cbn [getText].
    change (snapshot (entered message retryCount st)) with (snapshot st).
    change (mkData retryCount isInfinite prevMessage (data_word data)) with data.
    fold t. destruct (truthy_text t).
    + unfold send. cbn [log emit entered addPrompt].
      match goal with
      | |- context [transport ?l t] => destruct (transport l t) as [m|e]
      end.
      * match goal with
        | |- context [try_catch _ _ _ _ _ _ _ _ ?w ?s ?p ?r ?st'] =>
            destruct (try_catch_log toLowerCase transport fuel handler this
                        message prompt isInfinite w s p r st') as [evs ->]
        end.
        destruct (h_commandUtil handler); cbn [log emit entered addPrompt];
          rewrite <- !app_assoc; simpl; eauto.
      * cbn [snd log emit entered addPrompt]. rewrite <- !app_assoc. simpl. eauto.
    + match goal with
      | |- context [try_catch _ _ _ _ _ _ _ _ ?w ?s ?p ?r ?st'] =>
          destruct (try_catch_log toLowerCase transport fuel handler this
                      message prompt isInfinite w s p r st') as [evs ->]
      end.
      cbn [log emit entered addPrompt]. rewrite <- !app_assoc. simpl. eauto.
  - intros w' sent st1 input -> H Hw Hc Hf data t.
    unfold turn, try_catch. rewrite H. unfold try_block. rewrite Hw, Hc, Hf.
    cbn [getText].
    change (snapshot (awaiting prompt st1)) with (snapshot st1).
    fold data. fold t. destruct (truthy_text t) eqn:Ht.
    + unfold send.
      match goal with
      | |- context [transport ?l t] => destruct (transport l t) as [m|e]
      end.
      * exists [CallSend ViaChannel t]. simpl. rewrite <- !app_assoc.
        split; [done|]. by split.
      * match goal with
        | |- context [catch_block _ _ _ _ ?e ?p ?r ?st'] =>
            destruct (catch_block_calls transport message prompt isInfinite
                        e p r st') as (evs & _ & _ & Hl & _);
            destruct (catch_block transport message prompt isInfinite e p r st')
              as [r' st'']
        end.
        simpl in Hl |- *. rewrite Hl, <- !app_assoc. simpl.
        exists (CallSend ViaChannel t :: evs). split; [done|]. by split.
    + exists []. simpl. rewrite <- !app_assoc. split; [done|]. by split.
  - intros w' sent st1 e -> H Hw He Hc Hf data t.
    rewrite (turn_await_fails _ _ _ _ _ _ _ _ _ _ _ _ _ _ _ _ H Hw).
    unfold catch_block. rewrite He, Hc, Hf. cbn [getText].
    change (snapshot (awaiting prompt st1)) with (snapshot st1).
    fold data. fold t. destruct (truthy_text t).
    + unfold send.
      match goal with
      | |- context [transport ?l t] => destruct (transport l t) as [m|e']
      end; simpl; by rewrite <- !app_assoc.
    + simpl. by rewrite <- !app_assoc.
Qed.

End TextProperties.

(* ------------------------------------------------------------------ *)
(** ** The retry limit *)

Lemma retry_turn_counts rc l :
  retry_turns (l ++ [Turn (S (S rc))]) = S (retry_turns l).
Proof.
  unfold retry_turns. rewrite count_events_app.
  change (count_events is_retry_turn [Turn (S (S rc))]) with 1. lia.
Qed.

Lemma retry_turns_other l e :
  is_retry_turn e = false -> retry_turns (l ++ [e]) = retry_turns l.
Proof.
  intros H. unfold retry_turns. rewrite count_events_app.
  unfold count_events at 2. simpl. rewrite H. simpl. lia.
Qed.

(** A session does not depend on [prompt.retries], nor on [prompt.ended]:
    [promptOne] reads neither. *)
Lemma retries_never_read toLowerCase transport fuel handler this message
    commandInput prompt isInfinite r e ws :
  forall prevMessage retryCount st,
    promptOne toLowerCase transport fuel handler this message commandInput
      (with_retries r e prompt) isInfinite ws prevMessage retryCount st
    = promptOne toLowerCase transport fuel handler this message commandInput
        prompt isInfinite ws prevMessage retryCount st.
Proof.
  assert (forall w prevMessage retryCount st,
            turn toLowerCase transport fuel handler this message commandInput
              (with_retries r e prompt) isInfinite w prevMessage retryCount st
            = turn toLowerCase transport fuel handler this message commandInput
                prompt isInfinite w prevMessage retryCount st) as Hturn
    by reflexivity.
  induction ws as [|w ws IH]; intros prevMessage retryCount st; simpl;
    rewrite Hturn; [done|].
  destruct (turn _ _ _ _ _ _ _ _ _ (Some w) _ _ _) as [[res|prev rc] st'];
    [done|apply IH].
Qed.

(** A retry turn of [picky r]: the retry text is sent, whatever [r] is and
    however many retry turns went before. *)
Lemma picky_send_prompt r prev rc st :
  send_prompt reliable plain_handler call None
    (merged_prompt plain_handler plain_command (picky r)) false prev
    (S (S rc)) (entered call (S (S rc)) st)
  = (Resolved (Some bot_message),
     emit (CallSend ViaChannel (TextString "Try again."))
       (entered call (S (S rc)) st)).
Proof. reflexivity. Qed.

Lemma picky_retries r n :
  forall rc prev st,
    exists st',
      promptOne lower reliable 0 plain_handler (picky r) call None
        (merged_prompt plain_handler plain_command (picky r)) false
        (repeat wrong n ++ [good]) prev (S (S rc)) st
      = (Resolved (VString "yes"), st')
      /\ retry_turns (log st') = retry_turns (log st) + S n.
Proof.
  induction n as [|n IH]; intros rc prev st.
  - eexists. split.
    + apply promptOne_settles.
      rewrite (turn_cast lower reliable 0 plain_handler (picky r) call None _
                 false good prev (S (S rc)) st _ _ (reply "202" "yes")
                 (picky_send_prompt r prev rc st) eq_refl eq_refl eq_refl).
      reflexivity.
    + cbn [log casting awaiting emit entered addPrompt].
      rewrite retry_turns_other, retry_turns_other, retry_turns_other by done.
      rewrite retry_turn_counts. lia.
  - destruct (IH (S rc) (reply "201" "maybe")
                (casting (reply "201" "maybe")
                   (awaiting (merged_prompt plain_handler plain_command (picky r))
                      (emit (CallSend ViaChannel (TextString "Try again."))
                         (entered call (S (S rc)) st)))))
      as (st' & Hrun & Hcount).
    exists st'. split.
    + simpl repeat. rewrite <- app_comm_cons.
      erewrite promptOne_next; [exact Hrun|].
      rewrite (turn_cast lower reliable 0 plain_handler (picky r) call None _
                 false wrong prev (S (S rc)) st _ _ (reply "201" "maybe")
                 (picky_send_prompt r prev rc st) eq_refl eq_refl eq_refl).
      replace (S (S rc) + 1) with (S (S (S rc))) by lia. reflexivity.
    + rewrite Hcount. cbn [log casting awaiting emit entered addPrompt].
      rewrite retry_turns_other, retry_turns_other, retry_turns_other by done.
      rewrite retry_turn_counts. lia.
Qed.

(** C1 (the code at failing inputs). Whatever number [r] of retries the
    prompt is configured with, after [r + 1] invalid replies [collect]
    still prompts again: it returns the value of the next, valid reply, and
    its log shows [r + 1] calls of [promptOne] with [retryCount > 1]. No
    code path reads [prompt.retries]. *)
Theorem retries_not_enforced :
  forall r,
    retries (merged_prompt plain_handler plain_command (picky r)) = r
    /\ fst (collect lower reliable 0 plain_handler plain_command (picky r)
              (repeat wrong (S r) ++ [good]) call None idle)
       = Resolved (VString "yes")
    /\ retry_turns
         (log (snd (collect lower reliable 0 plain_handler plain_command
                      (picky r) (repeat wrong (S r) ++ [good]) call None idle)))
       = S r.
Proof.
  intros r. split; [reflexivity|].
  destruct (picky_retries r r 0 (reply "201" "maybe")
              (casting (reply "201" "maybe")
                 (awaiting (merged_prompt plain_handler plain_command (picky r))
                    (emit (CallSend ViaChannel (TextString "What is it?"))
                       (entered call 1 (init_values "choice" false idle))))))
    as (st' & Hrun & Hcount).
  assert (collect lower reliable 0 plain_handler plain_command (picky r)
            (repeat wrong (S r) ++ [good]) call None idle
          = (Resolved (VString "yes"), finished plain_handler call st')) as ->.
  { unfold collect. simpl repeat. rewrite <- app_comm_cons.
    change (is_infinite plain_handler plain_command (picky r) call None idle)
      with false.
    change (1 + Number_Boolean_commandInput None) with 1.
    change (arg_id (picky r)) with "choice".
    erewrite promptOne_next; [rewrite Hrun; reflexivity|].
    rewrite (turn_cast lower reliable 0 plain_handler (picky r) call None
               (merged_prompt plain_handler plain_command (picky r))
               false wrong call 1 (init_values "choice" false idle)
               (Some bot_message)
               (emit (CallSend ViaChannel (TextString "What is it?"))
                  (entered call 1 (init_values "choice" false idle)))
               (reply "201" "maybe") eq_refl eq_refl eq_refl eq_refl).
    reflexivity. }
  split; [reflexivity|].
  change (log (snd (Resolved (VString "yes"), finished plain_handler call st')))
    with (log st').
  rewrite Hcount. reflexivity.
Qed.

(* ------------------------------------------------------------------ *)
(** ** The statements at concrete sessions *)

(** [process_optional_default] at a word of blanks. *)
Lemma process_optional_default_witness :
  process lower strip reliable 0 plain_handler plain_command noted [good]
    "   " call idle
  = (Resolved (VString "none"), emit (CallDefault call ∅) idle).
Proof.
  destruct (process_optional_default lower strip reliable 0 plain_handler
              plain_command noted [good] "   " call idle _
              eq_refl eq_refl eq_refl) as [E _].
  exact E.
Defined.

(** [collect_limit_three] at the replies "yes", "NO", "y" and a fourth
    window that is left alone. *)
Lemma collect_limit_three_witness :
  fst (collect lower reliable 0 plain_handler plain_command
         (endless yes_no (Finite 3))
         [Arrivals [reply "1" "yes"]; Arrivals [reply "2" "NO"];
          Arrivals [reply "3" "y"]; Arrivals [reply "4" "no"]]
         call None idle)
  = Resolved (VArray [VString "yes"; VString "no"; VString "yes"]).
Proof.
  destruct (collect_limit_three lower reliable 0 plain_handler plain_command
              (endless yes_no (Finite 3)) [Arrivals [reply "4" "no"]]
              call None idle (Some bot_message)
              (emit (CallSend ViaChannel (TextString "What is it?"))
                 (entered call 1 (init_values "choices" true idle)))
              (Arrivals [reply "1" "yes"]) (Arrivals [reply "2" "NO"])
              (Arrivals [reply "3" "y"])
              (reply "1" "yes") (reply "2" "NO") (reply "3" "y")
              (VString "yes") (VString "no") (VString "yes")
              eq_refl eq_refl eq_refl
              (conj eq_refl (conj eq_refl (conj eq_refl (conj eq_refl eq_refl))))
              (conj eq_refl (conj eq_refl (conj eq_refl (conj eq_refl eq_refl))))
              (conj eq_refl (conj eq_refl (conj eq_refl (conj eq_refl eq_refl)))))
    as (st' & E & _).
  rewrite E. reflexivity.
Defined.

(** [stop_word_reply] at the stop word after one accumulated value. *)
Lemma stop_word_reply_witness :
  fst (collect lower reliable 0 plain_handler plain_command
         (endless yes_no Infinity)
         [Arrivals [reply "1" "yes"]; Arrivals [reply "2" "Stop"]]
         call None idle)
  = Resolved (VArray [VString "yes"]).
Proof.
  assert (session_reaches lower reliable 0 plain_handler plain_command
            (endless yes_no Infinity) [Arrivals [reply "1" "yes"]] call None
            idle call 1
            (push (VString "yes")
               (casting (reply "1" "yes")
                  (awaiting default_prompt
                     (emit (CallSend ViaChannel (TextString "What is it?"))
                        (entered call 1 (init_values "choices" true idle)))))))
    as Hreach.
  { eapply reaches_next; [reflexivity|apply reaches_here]. }
  destruct (stop_word_reply lower reliable 0 plain_handler plain_command
              (endless yes_no Infinity) [Arrivals [reply "1" "yes"]]
              (Arrivals [reply "2" "Stop"]) [] call None idle call 1 _ None _
              (reply "2" "Stop") eq_refl Hreach eq_refl eq_refl eq_refl eq_refl)
    as [_ E].
  exact (f_equal fst (E ltac:(discriminate))).
Defined.

(** The cancel word is tested before the stop word. When the two are the
    same word up to case, a reply that equals them is the cancellation,
    before anything is accumulated and after. *)
Lemma stop_word_that_cancels :
  is_infinite plain_handler plain_command stop_cancels call None idle = true
  /\ same_word lower "stop"
       (stopWord (merged_prompt plain_handler plain_command stop_cancels)) = true
  /\ fst (collect lower reliable 0 plain_handler plain_command stop_cancels
            [Arrivals [reply "1" "stop"]; good] call None idle)
     = Thrown ThCancelled
  /\ turns (log (snd (collect lower reliable 0 plain_handler plain_command
                        stop_cancels [Arrivals [reply "1" "stop"]; good]
                        call None idle))) = 1
  /\ fst (collect lower reliable 0 plain_handler plain_command stop_cancels
            [good; Arrivals [reply "2" "stop"]] call None idle)
     = Thrown ThCancelled.
Proof. repeat split; vm_compute; reflexivity. Qed.

(** [cancel_word_reply] at the cancel word on a retry turn. *)
Lemma cancel_word_reply_witness :
  fst (collect lower reliable 0 plain_handler plain_command (prompted yes_no)
         [wrong; Arrivals [reply "3" "Cancel"]; good] call None idle)
  = Thrown ThCancelled.
Proof.
  assert (session_reaches lower reliable 0 plain_handler plain_command
            (prompted yes_no) [wrong] call None idle (reply "201" "maybe") 2
            (casting (reply "201" "maybe")
               (awaiting default_prompt
                  (emit (CallSend ViaChannel (TextString "What is it?"))
                     (entered call 1 (init_values "choice" false idle))))))
    as Hreach.
  { eapply reaches_next; [reflexivity|apply reaches_here]. }
  destruct (cancel_word_reply lower reliable 0 plain_handler plain_command
              (prompted yes_no) [wrong] (Arrivals [reply "3" "Cancel"]) [good]
              call None idle (reply "201" "maybe") 2 _ (Some bot_message) _
              (reply "3" "Cancel") (TextString "Cancelled.") _
              Hreach eq_refl eq_refl eq_refl eq_refl
              (fun _ => ex_intro _ bot_message eq_refl))
    as (st' & E & _).
  exact (f_equal fst E).
Defined.

(** C7, as stated, fails when the transport refuses the cancel text: the
    failure of [send] is thrown in place of the cancellation, and the
    prompt stays in the registry. *)
Lemma cancel_text_not_sent :
  fst (collect lower cut_off 0 plain_handler plain_command (prompted yes_no)
         [Arrivals [reply "1" "cancel"]] call None idle)
  = Thrown (ThError "Missing Permissions")
  /\ elements (prompts (snd (collect lower cut_off 0 plain_handler plain_command
                               (prompted yes_no)
                               [Arrivals [reply "1" "cancel"]] call None idle)))
     = [("alice", "general")].
Proof. split; vm_compute; reflexivity. Qed.

(** C8, as stated, fails for a failure that is no instance of [Error]: the
    casting function rejects with a string, which is neither the time-out
    of [awaitMessages] nor the cancellation, and [collect] sends the
    time-out text and throws the cancellation. *)
Lemma rejection_becomes_cancellation :
  cast lower 0 plain_handler (prompted busy) "anything"
    (reply "1" "anything") ∅
  = Thrown (ThValue (VString "busy"))
  /\ fst (collect lower reliable 0 plain_handler plain_command (prompted busy)
            [Arrivals [reply "1" "anything"]] call None idle)
     = Thrown ThCancelled
  /\ sent_texts
       (log (snd (collect lower reliable 0 plain_handler plain_command
                    (prompted busy) [Arrivals [reply "1" "anything"]]
                    call None idle)))
     = [TextString "What is it?"; TextString "Time ran out."].
Proof. repeat split; vm_compute; reflexivity. Qed.

(** [text_function_calls] at the retry text of the first turn after a
    command input that did not cast. *)
Lemma text_function_calls_witness :
  exists rest,
    log (snd (turn lower reliable 0 plain_handler echoing call (Some "maybe")
                (merged_prompt plain_handler plain_command echoing) false
                (Some wrong) call 2 idle))
    = log idle
      ++ Turn 2 :: CallText ∅ (mkData 2 false call "maybe") :: rest
    /\ head rest = Some (CallSend ViaChannel (TextString "You said: maybe")).
Proof.
  destruct (text_function_calls lower reliable 0 plain_handler echoing call
              (Some "maybe") (merged_prompt plain_handler plain_command echoing)
              false
              (fun _ _ data => TextString ("You said: " ++ data_word data))
              (Some wrong) call 2 idle) as [Hstart _].
  exact (Hstart eq_refl eq_refl).
Defined.

(** C9, as stated, fails for the cancel and the time-out text: their
    function is given the empty string for [word] on every turn. Here the
    command was given "maybe" and the first reply was "perhaps"; the retry
    text is given the one and then the other, but a cancel text on the
    first turn is not given "maybe", nor one on a later turn "perhaps",
    and neither is the time-out text. *)
Lemma cancel_text_gets_no_word :
  sent_texts
    (log (snd (collect lower reliable 0 plain_handler plain_command echoing
                 [Arrivals [reply "1" "cancel"]] call (Some "maybe") idle)))
  = [TextString "You said: maybe"; TextString "You said: "]
  /\ sent_texts
       (log (snd (collect lower reliable 0 plain_handler plain_command echoing
                    [Arrivals [reply "1" "perhaps"]; Arrivals [reply "2" "cancel"]]
                    call (Some "maybe") idle)))
     = [TextString "You said: maybe"; TextString "You said: perhaps";
        TextString "You said: "]
  /\ sent_texts
       (log (snd (collect lower reliable 0 plain_handler plain_command echoing
                    [Arrivals [reply "1" "perhaps"]; Arrivals []]
                    call (Some "maybe") idle)))
     = [TextString "You said: maybe"; TextString "You said: perhaps";
        TextString "You said: "].
Proof. repeat split; vm_compute; reflexivity. Qed.

(** [timeout_cancels] at a first turn without a reply. *)
Lemma timeout_cancels_witness :
  fst (collect lower reliable 0 plain_handler plain_command (prompted yes_no)
         [Arrivals [mkMessage "7" "bob" "general" "yes"]; good] call None idle)
  = Thrown ThCancelled.
Proof.
  destruct (timeout_cancels lower reliable 0 plain_handler plain_command
              (prompted yes_no) []
              (Arrivals [mkMessage "7" "bob" "general" "yes"]) [good]
              call None idle call 1 _ (Some bot_message) _
              (TextString "Time ran out.") _
              (reaches_here _ _ _ _ _ _ _ _ _ _ _ _) eq_refl eq_refl eq_refl
              (fun _ => ex_intro _ bot_message eq_refl))
    as (st' & E & _).
  exact (f_equal fst E).
Defined.

(** The global pattern [a+] on "baab a": [cast] returns with the two
    matches, in order. *)
Example cast_global_plus :
  cast lower 8 plain_handler
    (prompted (TypeRegExp (mkRegExp true (plus "a")))) "baab a" call ∅
  = Resolved
      (match_object (VArray [VString "aa"; VString "a"])
         [mkExec 1 "aa" []; mkExec 5 "a" []]).
Proof. reflexivity. Qed.

(** The same pattern without the global flag: the first match, and no
    [matches]. *)
Example cast_plus :
  cast lower 0 plain_handler
    (prompted (TypeRegExp (mkRegExp false (plus "a")))) "baab a" call ∅
  = Resolved (match_object (VExec (mkExec 1 "aa" [])) []).
Proof. reflexivity. Qed.

(* ------------------------------------------------------------------ *)
(** ** How [cast] settles *)

Section CastOutcome.

Variable toLowerCase : string -> string.
Variable fuel : nat.
Variable handler : CommandHandler.
Variable this : Argument.

Local Abbreviation cast_ := (cast toLowerCase fuel handler this).

Lemma cast_entries_defined entries word :
  cast_entries toLowerCase entries word = VNull
  \/ exists s, cast_entries toLowerCase entries word = VString s.
Proof.
  induction entries as [|e entries IH]; [by left|].
  destruct e as [s|l]; simpl.
  - destruct (same_word toLowerCase s word); [right; by exists s|exact IH].
  - destruct (existsb _ l) eqn:E; [|exact IH].
    destruct l as [|t0 l]; [discriminate|right; by exists t0].
Qed.

Lemma call_then_await_settles r :
  (exists v, call_then_await r = Resolved v)
  \/ (exists e, call_then_await r = Thrown e).
Proof.
  destruct r as [[v|[v|e]]|e]; simpl; eauto.
Qed.

Lemma cast_fn_cases f word message args :
  (exists v, cast_fn f word message args = Resolved v
             /\ v <> VUndefined
             /\ exists u, call_then_await (f word message args) = Resolved u
                          /\ (nullish u = false -> v = u)
                          /\ (nullish u = true -> v = VNull))
  \/ (exists e, cast_fn f word message args = Thrown e
                /\ call_then_await (f word message args) = Thrown e).
Proof.
  unfold cast_fn.
  destruct (call_then_await_settles (f word message args)) as [[u ->]|[e ->]].
  - left. destruct (nullish u) eqn:Hu.
    + exists VNull. split; [done|]. split; [done|]. exists u.
      split; [done|]. split; [by rewrite Hu|done].
    + exists u. split; [done|]. split; [by destruct u|]. exists u.
      split; [done|]. split; [done|by rewrite Hu].
  - right. by exists e.
Qed.

Lemma cast_regexp_defined re word li v li' :
  cast_regexp fuel re word li = Some (v, li') -> v <> VUndefined.
Proof.
  unfold cast_regexp. destruct (String_match re word li) as [[m|] li1].
  - destruct (re_global re).
    + destruct (exec_loop fuel re word li1 []) as [[matches li2]|]; [|done].
      by intros [= <- _].
    + by intros [= <- _].
  - by intros [= <- _].
Qed.

Lemma cast_regexp_loops re word li :
  cast_regexp fuel re word li = None -> re_global re = true.
Proof.
  unfold cast_regexp. destruct (String_match re word li) as [[m|] li1]; [|done].
  by destruct (re_global re).
Qed.

(** X3. [cast] resolves to [null] or to a value, never to [undefined]. It
    rejects only with what a casting function throws or rejects with: the
    type itself when it is a function, or the function the resolver has
    under the type's name; so it never rejects for an array, a regular
    expression or a name the resolver does not know. It fails to return
    only in the loop over a global regular expression, and it never waits
    for a reply. *)
Theorem cast_outcome word message args :
  (forall v, cast_ word message args = Resolved v -> v <> VUndefined)
  /\ (forall e,
        cast_ word message args = Thrown e ->
        exists f,
          (arg_type this = TypeFunction f
           \/ exists name, arg_type this = TypeName name
                           /\ h_resolver handler name = Some f)
          /\ call_then_await (f word message args) = Thrown e)
  /\ (cast_ word message args = Looping ->
      exists re, arg_type this = TypeRegExp re /\ re_global re = true)
  /\ cast_ word message args <> Waiting.
Proof.
  unfold cast. destruct (arg_type this) as [entries|f|re|name].
  - repeat split; try done. intros v [= <-].
    destruct (cast_entries_defined entries word) as [->|[s ->]]; done.
  - destruct (cast_fn_cases f word message args)
      as [(v & -> & Hv & _)|(e & -> & He)].
    + repeat split; try done. by intros v' [= <-].
    + repeat split; try done. intros e' [= <-]. exists f. split; [by left|done].
  - destruct (cast_regexp fuel re word 0) as [[v li]|] eqn:E.
    + repeat split; try done. intros v' [= <-].
      by apply (cast_regexp_defined re word 0 v li).
    + repeat split; try done. intros _. exists re. split; [done|].
      by apply (cast_regexp_loops re word 0).
  - destruct (h_resolver handler name) as [f|] eqn:Hr.
    + destruct (cast_fn_cases f word message args)
        as [(v & -> & Hv & _)|(e & -> & He)].
      * repeat split; try done. by intros v' [= <-].
      * repeat split; try done. intros e' [= <-]. exists f.
        split; [right; by exists name|done].
    + destruct (nonempty word); repeat split; try done; by intros v [= <-].
Qed.

(** [cast] settles with a value other than [undefined], with a thrown
    value, or not at all in the loop of a regular expression. *)
Lemma cast_cases word message args :
  (exists v, cast_ word message args = Resolved v /\ v <> VUndefined)
  \/ (exists e, cast_ word message args = Thrown e)
  \/ cast_ word message args = Looping.
Proof.
  unfold cast. destruct (arg_type this) as [entries|f|re|name].
  - left. eexists. split; [done|].
    destruct (cast_entries_defined entries word) as [->|[s ->]]; done.
  - destruct (cast_fn_cases f word message args)
      as [(v & -> & Hv & _)|(e & -> & He)]; eauto.
  - destruct (cast_regexp fuel re word 0) as [[v li]|] eqn:E; [|by right; right].
    left. exists v. split; [done|]. by apply (cast_regexp_defined re word 0 v li).
  - destruct (h_resolver handler name) as [f|].
    + destruct (cast_fn_cases f word message args)
        as [(v & -> & Hv & _)|(e & -> & He)]; eauto.
    + destruct (nonempty word); left; eexists; split; done.
Qed.

End CastOutcome.

(* ------------------------------------------------------------------ *)
(** ** How one call of [promptOne] ends *)

Section TurnResults.

Variable toLowerCase : string -> string.
Variable transport : list event -> text -> send_answer.
Variable fuel : nat.
Variable handler : CommandHandler.
Variable this : Argument.
Variable message : Message.
Variable commandInput : option string.
Variable prompt : ArgumentPromptOptions.
Variable isInfinite : bool.

Local Abbreviation cast_ := (cast toLowerCase fuel handler this).
Local Abbreviation send_prompt_ :=
  (send_prompt transport handler message commandInput prompt isInfinite).
Local Abbreviation catch_block_ := (catch_block transport message prompt isInfinite).
Local Abbreviation turn_ :=
  (turn toLowerCase transport fuel handler this message commandInput prompt
     isInfinite).

Lemma send_settles via t st :
  (exists m, fst (send transport via t st) = Resolved m)
  \/ (exists e, fst (send transport via t st) = Thrown e).
Proof. unfold send. destruct (transport (log st) t); simpl; eauto. Qed.

Lemma send_prompt_settles prevMessage retryCount st :
  (exists sent, fst (send_prompt_ prevMessage retryCount st) = Resolved sent)
  \/ (exists e, fst (send_prompt_ prevMessage retryCount st) = Thrown e).
Proof.
  unfold send_prompt. destruct (shouldSend isInfinite retryCount st); [|eauto].
  destruct (getText message isInfinite _ retryCount prevMessage _ st)
    as [startText st1].
  destruct (truthy_text startText); [|eauto].
  destruct (send_settles (util_or_channel handler) startText st1) as [[m H]|[e H]];
    destruct (send transport (util_or_channel handler) startText st1)
      as [r st2]; simpl in H; subst r; simpl; eauto.
Qed.

Lemma catch_block_thrown err prevMessage retryCount st :
  exists e, fst (catch_block_ err prevMessage retryCount st) = Thrown e.
Proof.
  unfold catch_block.
  destruct (instanceof_Error err); [eauto|].
  destruct (is_COMMAND_CANCELLED err); [eauto|].
  destruct (getText message isInfinite (timeout prompt) retryCount prevMessage "" st)
    as [timeoutText st1].
  destruct (truthy_text timeoutText); [|eauto].
  destruct (send_settles ViaChannel timeoutText st1) as [[m H]|[e H]];
    destruct (send transport ViaChannel timeoutText st1) as [r st2];
    simpl in H; subst r; simpl; eauto.
Qed.

Lemma awaitMessages_settles filter w :
  (exists input, awaitMessages filter w = Resolved input)
  \/ (exists e, awaitMessages filter w = Thrown e).
Proof.
  destruct w as [ms|e]; simpl; [|eauto]. destruct (find filter ms); eauto.
Qed.

(** What a call of [promptOne] that returns a value, or the promise of a
    further call, has gone through. *)
Lemma turn_results w prevMessage retryCount st te st' :
  turn_ (Some w) prevMessage retryCount st = (te, st') ->
  match te with
  | Settles (Resolved x) =>
      exists sent st1 input,
        send_prompt_ prevMessage retryCount (entered message retryCount st)
        = (Resolved sent, st1)
        /\ awaitMessages (reply_filter message sent) w = Resolved input
        /\ same_word toLowerCase (msg_content input) (cancelWord prompt) = false
        /\ ((isInfinite = true
             /\ same_word toLowerCase (msg_content input) (stopWord prompt) = true
             /\ values_length st1 <> 0
             /\ x = VArray (elements_of_values st1)
             /\ st' = awaiting prompt st1)
            \/ (isInfinite
                && same_word toLowerCase (msg_content input) (stopWord prompt)
                = false
                /\ exists v,
                     cast_ (msg_content input) input (snapshot st1) = Resolved v
                     /\ nullish v = false
                     /\ ((isInfinite = false /\ x = v
                          /\ st' = casting input (awaiting prompt st1))
                         \/ (isInfinite = true
                             /\ st' = push v (casting input (awaiting prompt st1))
                             /\ x = VArray (elements_of_values st')
                             /\ below (values_length st') (limit prompt) = false))))
  | Next prev rc =>
      exists sent st1 input,
        send_prompt_ prevMessage retryCount (entered message retryCount st)
        = (Resolved sent, st1)
        /\ awaitMessages (reply_filter message sent) w = Resolved input
        /\ same_word toLowerCase (msg_content input) (cancelWord prompt) = false
        /\ ((prev = input /\ rc = retryCount + 1
             /\ isInfinite = true
             /\ same_word toLowerCase (msg_content input) (stopWord prompt) = true
             /\ values_length st1 = 0
             /\ st' = awaiting prompt st1)
            \/ (prev = input /\ rc = retryCount + 1
                /\ isInfinite
                   && same_word toLowerCase (msg_content input) (stopWord prompt)
                   = false
                /\ (exists v,
                      cast_ (msg_content input) input (snapshot st1) = Resolved v
                      /\ nullish v = true)
                /\ st' = casting input (awaiting prompt st1))
            \/ (prev = message /\ rc = 1 /\ isInfinite = true
                /\ same_word toLowerCase (msg_content input) (stopWord prompt)
                   = false
                /\ exists v,
                     cast_ (msg_content input) input (snapshot st1) = Resolved v
                     /\ nullish v = false
                     /\ st' = push v (casting input (awaiting prompt st1))
                     /\ below (values_length st') (limit prompt) = true))
  | Settles Waiting => False
  | Settles _ => True
  end.
Proof.
  destruct (send_prompt_ prevMessage retryCount (entered message retryCount st))
    as [r0 st1] eqn:H.
  destruct (send_prompt_settles prevMessage retryCount (entered message retryCount st))
    as [[sent Hr]|[e Hr]]; rewrite H in Hr; simpl in Hr; subst r0.
  2:{ rewrite (turn_prompt_fails _ _ _ _ _ _ _ _ _ _ _ _ _ _ _ H).
      by intros [= <- <-]. }
  destruct (awaitMessages_settles (reply_filter message sent) w)
    as [[input Hw]|[e Hw]].
  2:{ rewrite (turn_await_fails _ _ _ _ _ _ _ _ _ _ _ _ _ _ _ _ H Hw).
      destruct (catch_block_thrown e prevMessage retryCount (awaiting prompt st1))
        as [e' ->]. by intros [= <- <-]. }
  destruct (same_word toLowerCase (msg_content input) (cancelWord prompt)) eqn:Hc.
  { unfold turn, try_catch. rewrite H. unfold try_block. rewrite Hw, Hc.
    destruct (getText message isInfinite (cancel prompt) retryCount input ""
                (awaiting prompt st1)) as [cancelText st2].
    destruct (truthy_text cancelText).
    - destruct (send_settles ViaChannel cancelText st2) as [[m Hs]|[e Hs]];
        destruct (send transport ViaChannel cancelText st2) as [r st3];
        simpl in Hs; subst r.
      + by intros [= <- <-].
      + destruct (catch_block_thrown e prevMessage retryCount st3) as [e' He'].
        destruct (catch_block_ e prevMessage retryCount st3) as [r st4].
        simpl in He'. subst r. by intros [= <- <-].
    - by intros [= <- <-]. }
  destruct (isInfinite
            && same_word toLowerCase (msg_content input) (stopWord prompt)) eqn:Hs.
  { apply andb_true_iff in Hs as [Hinf Hs].
    rewrite (turn_stop _ _ _ _ _ _ _ _ _ _ _ _ _ _ _ _ H Hw Hc Hinf Hs).
    destruct (values_length st1 =? 0) eqn:Hl; intros [= <- <-].
    - apply Nat.eqb_eq in Hl. exists sent, st1, input.
      repeat split; try done. left. by repeat split.
    - apply Nat.eqb_neq in Hl. exists sent, st1, input.
      repeat split; try done. left. by repeat split. }
  rewrite (turn_cast _ _ _ _ _ _ _ _ _ _ _ _ _ _ _ _ H Hw Hc Hs).
  destruct (cast_ (msg_content input) input (snapshot st1)) as [v|e| |] eqn:Hcast.
  - destruct (nullish v) eqn:Hn.
    + intros [= <- <-]. exists sent, st1, input. repeat split; try done.
      right; left. repeat split; try done. by exists v.
    + destruct isInfinite eqn:Hinf.
      * simpl in Hs.
        destruct (below _ _) eqn:Hb; intros [= <- <-]; exists sent, st1, input.
        -- repeat split; try done. right; right. repeat split; try done.
           exists v. by repeat split.
        -- repeat split; try done. right. split; [done|]. exists v.
           repeat split; try done. right. by repeat split.
      * intros [= <- <-]. exists sent, st1, input. repeat split; try done.
        right. split; [done|]. exists v. repeat split; try done. left.
        by repeat split.
  - destruct (catch_block_thrown e prevMessage retryCount
                (casting input (awaiting prompt st1))) as [e' ->].
    by intros [= <- <-].
  - by intros [= <- <-].
  - destruct (cast_cases toLowerCase fuel handler this (msg_content input)
                input (snapshot st1)) as [(v & Hv & _)|[[e He]|Hl]]; congruence.
Qed.

End TurnResults.

(* ------------------------------------------------------------------ *)
(** ** The log and the store along a session *)

Section SessionStore.

Variable toLowerCase : string -> string.
Variable transport : list event -> text -> send_answer.
Variable fuel : nat.
Variable handler : CommandHandler.
Variable this : Argument.
Variable message : Message.
Variable commandInput : option string.
Variable prompt : ArgumentPromptOptions.
Variable isInfinite : bool.

Local Abbreviation send_prompt_ :=
  (send_prompt transport handler message commandInput prompt isInfinite).
Local Abbreviation turn_ :=
  (turn toLowerCase transport fuel handler this message commandInput prompt
     isInfinite).
Local Abbreviation promptOne_ :=
  (promptOne toLowerCase transport fuel handler this message commandInput
     prompt isInfinite).
Local Abbreviation reaches_ :=
  (reaches toLowerCase transport fuel handler this message commandInput prompt
     isInfinite).

(** A call of [promptOne] leaves [args] alone, and [values] when it is
    [null]; its log begins with the call itself. *)
Lemma turn_store w prevMessage retryCount st :
  args (snd (turn_ w prevMessage retryCount st)) = args st
  /\ (values st = None -> values (snd (turn_ w prevMessage retryCount st)) = None)
  /\ exists rest,
       log (snd (turn_ w prevMessage retryCount st))
       = log st ++ Turn retryCount :: rest.
Proof.
  destruct (turn_frame toLowerCase transport fuel handler this message
              commandInput prompt isInfinite w prevMessage retryCount st)
    as (evs & mid & (Ha & Hv & Hl & _) & [->|[v ->]]); simpl.
  - split; [done|]. split; [congruence|]. by exists evs.
  - split; [done|]. split; [|by exists evs]. intros Hn. rewrite Hv, Hn. done.
Qed.

Lemma promptOne_store ws :
  forall prevMessage retryCount st,
    args (snd (promptOne_ ws prevMessage retryCount st)) = args st
    /\ (values st = None ->
        values (snd (promptOne_ ws prevMessage retryCount st)) = None)
    /\ exists rest,
         log (snd (promptOne_ ws prevMessage retryCount st))
         = log (snd (turn_ (head ws) prevMessage retryCount st)) ++ rest.
Proof.
  induction ws as [|w ws IH]; intros prevMessage retryCount st; simpl.
  - destruct (turn_store None prevMessage retryCount st) as (Ha & Hv & _).
    destruct (turn_ None prevMessage retryCount st) as [[r|prev rc] st'];
      simpl in *; (split; [done|]); (split; [done|]); exists [];
      by rewrite app_nil_r.
  - destruct (turn_store (Some w) prevMessage retryCount st) as (Ha & Hv & _).
    destruct (turn_ (Some w) prevMessage retryCount st) as [[r|prev rc] st'];
      simpl in *.
    + split; [done|]. split; [done|]. exists []. by rewrite app_nil_r.
    + destruct (IH prev rc st') as (Ha' & Hv' & rest & Hl').
      destruct (turn_store (head ws) prev rc st') as (_ & _ & rest' & Hl'').
      split; [congruence|]. split; [auto|].
      exists (Turn rc :: rest' ++ rest). rewrite Hl', Hl'', <- app_assoc. done.
Qed.

Lemma reaches_args pre prev rc st prev' rc' st' :
  reaches_ pre prev rc st prev' rc' st' ->
  args st' = args st /\ (values st = None -> values st' = None).
Proof.
  induction 1 as [|w pre prev rc st prev1 rc1 st1 prev2 rc2 st2 Ht _ IH];
    [done|].
  destruct (turn_store (Some w) prev rc st) as (Ha & Hv & _).
  rewrite Ht in Ha, Hv. simpl in Ha, Hv. destruct IH as [Ha' Hv'].
  split; [congruence|auto].
Qed.

(** Every further call of [promptOne] has a [retryCount] of 1 or more. *)
Lemma reaches_retryCount pre prev rc st prev' rc' st' :
  reaches_ pre prev rc st prev' rc' st' -> 1 <= rc -> 1 <= rc'.
Proof.
  induction 1 as [|w pre prev rc st prev1 rc1 st1 prev2 rc2 st2 Ht _ IH];
    [done|].
  intros _. apply IH.
  pose proof (turn_results toLowerCase transport fuel handler this message
                commandInput prompt isInfinite w prev rc st _ _ Ht) as Hr.
  simpl in Hr. destruct Hr as (sent & s1 & input & _ & _ & _ & Hcases).
  destruct Hcases as [(_ & -> & _)|[(_ & -> & _)|(_ & -> & _)]]; lia.
Qed.

(** The prompt text a call of [promptOne] starts with: a text that is not
    empty is sent first; a text function is called first, with the
    previous message and input. *)
Lemma turn_prompt_log w prevMessage retryCount st :
  shouldSend isInfinite retryCount st = true ->
  exists rest,
    log (snd (turn_ w prevMessage retryCount st))
    = log st ++ Turn retryCount :: rest
    /\ match (if retryCount =? 1 then start prompt else retry prompt) with
       | TextIs t =>
           truthy_text (joined t) = true ->
           head rest = Some (CallSend (util_or_channel handler) (joined t))
       | TextFn f =>
           head rest
           = Some (CallText (snapshot st)
                     (mkData retryCount isInfinite prevMessage
                        (prevInput commandInput prevMessage retryCount)))
       end.
Proof.
  intros Hsend. unfold turn, send_prompt.
  change (shouldSend isInfinite retryCount (entered message retryCount st))
    with (shouldSend isInfinite retryCount st).
  rewrite Hsend.
  destruct (if retryCount =? 1 then start prompt else retry prompt) as [t|f];
    cbn [getText].
  - destruct (truthy_text (joined t)).
    + unfold send. cbn [log emit entered addPrompt].
      match goal with
      | |- context [transport ?l (joined t)] =>
          destruct (transport l (joined t)) as [m|e]
      end.
      * match goal with
        | |- context [try_catch _ _ _ _ _ _ _ _ ?w ?s ?p ?r ?st'] =>
            destruct (try_catch_log toLowerCase transport fuel handler this
                        message prompt isInfinite w s p r st') as [evs ->]
        end.
        destruct (h_commandUtil handler); cbn [log emit entered addPrompt];
          rewrite <- !app_assoc; simpl; eauto.
      * cbn [snd log emit entered addPrompt]. rewrite <- !app_assoc. simpl. eauto.
    + match goal with
      | |- context [try_catch _ _ _ _ _ _ _ _ ?w ?s ?p ?r ?st'] =>
          destruct (try_catch_log toLowerCase transport fuel handler this
                      message prompt isInfinite w s p r st') as [evs ->]
      end.
      cbn [log emit entered addPrompt]. rewrite <- !app_assoc. simpl.
      eexists. split; [done|]. done.
  - change (snapshot (entered message retryCount st)) with (snapshot st).
    set (data := mkData retryCount isInfinite prevMessage
                   (prevInput commandInput prevMessage retryCount)).
    set (t := joined (f message (snapshot st) data)).
    destruct (truthy_text t).
    + unfold send. cbn [log emit entered addPrompt].
      match goal with
      | |- context [transport ?l t] => destruct (transport l t) as [m|e]
      end.
      * match goal with
        | |- context [try_catch _ _ _ _ _ _ _ _ ?w ?s ?p ?r ?st'] =>
            destruct (try_catch_log toLowerCase transport fuel handler this
                        message prompt isInfinite w s p r st') as [evs ->]
        end.
        destruct (h_commandUtil handler); cbn [log emit entered addPrompt];
          rewrite <- !app_assoc; simpl; eauto.
      * cbn [snd log emit entered addPrompt]. rewrite <- !app_assoc. simpl. eauto.
    + match goal with
      | |- context [try_catch _ _ _ _ _ _ _ _ ?w ?s ?p ?r ?st'] =>
          destruct (try_catch_log toLowerCase transport fuel handler this
                      message prompt isInfinite w s p r st') as [evs ->]
      end.
      cbn [log emit entered addPrompt]. rewrite <- !app_assoc. simpl. eauto.
Qed.

End SessionStore.

(* ------------------------------------------------------------------ *)
(** ** Replies that are cast, and words that are not *)

Section Replies.

Variable toLowerCase : string -> string.
Variable trim : string -> string.
Variable transport : list event -> text -> send_answer.
Variable fuel : nat.
Variable handler : CommandHandler.
Variable command : Command.
Variable this : Argument.

Local Abbreviation prompt_ := (merged_prompt handler command this).
Local Abbreviation cast_ := (cast toLowerCase fuel handler this).
Local Abbreviation collect_ :=
  (collect toLowerCase transport fuel handler command this).
Local Abbreviation process_ :=
  (process toLowerCase trim transport fuel handler command this).
Local Abbreviation infinite_ m ci st := (is_infinite handler command this m ci st).
Local Abbreviation session_reaches_ :=
  (session_reaches toLowerCase transport fuel handler command this).

(** Outside infinite mode the [args] a turn works with are those [collect]
    was given. *)
Lemma session_snapshot pre message commandInput st prev rc st0 sent st1 :
  infinite_ message commandInput st = false ->
  session_reaches_ pre message commandInput st prev rc st0 ->
  send_prompt transport handler message commandInput prompt_ false prev rc
    (entered message rc st0) = (Resolved sent, st1) ->
  snapshot st1 = snapshot st.
Proof.
  intros Hinf Hreach H. unfold session_reaches in Hreach. rewrite Hinf in Hreach.
  destruct (reaches_args _ _ _ _ _ _ _ _ _ _ _ _ _ _ _ _ Hreach) as [Ha Hv].
  destruct (send_prompt_calls transport handler message commandInput prompt_
              false prev rc (entered message rc st0)) as (evs & Hc & _).
  rewrite H in Hc. simpl in Hc. rewrite (snapshot_calls _ _ _ Hc).
  change (snapshot (entered message rc st0)) with (snapshot st0).
  unfold snapshot at 1. by rewrite (Hv eq_refl), Ha.
Qed.

(** X4. Outside infinite mode, on any turn of a session, first or retry, a
    reply of the author that is not the cancel word and that [cast], given
    the [args] of the call of [collect], makes a value other than [null]
    ends the session: [collect] returns that value, the windows left in
    the script are not awaited, the prompt is removed from the registry,
    and [args] is as it was. The stop word has no meaning here: a reply
    that equals it is cast like any other. *)
Theorem reply_value_returned
    pre w ws message commandInput st prev rc st0 sent st1 input v :
  infinite_ message commandInput st = false ->
  session_reaches_ pre message commandInput st prev rc st0 ->
  send_prompt transport handler message commandInput prompt_ false prev rc
    (entered message rc st0) = (Resolved sent, st1) ->
  awaitMessages (reply_filter message sent) w = Resolved input ->
  same_word toLowerCase (msg_content input) (cancelWord prompt_) = false ->
  cast_ (msg_content input) input (snapshot st) = Resolved v ->
  nullish v = false ->
  exists st',
    collect_ (pre ++ w :: ws) message commandInput st = (Resolved v, st')
    /\ ~ hasPrompt message st'
    /\ snapshot st' = snapshot st
    /\ log st'
       = log st1
         ++ [CallAwait (time prompt_);
             CallCast (msg_content input) input (snapshot st)]
         ++ (if h_commandUtil handler then [SetShouldEdit] else []).
Proof.
  intros Hinf Hreach H Hw Hc Hcast Hn.
  pose proof (session_snapshot _ _ _ _ _ _ _ _ _ Hinf Hreach H) as Hs1.
  pose proof (turn_cast toLowerCase transport fuel handler this message
                commandInput prompt_ false w prev rc st0 sent st1 input
                H Hw Hc eq_refl) as T.
  rewrite Hs1, Hcast, Hn in T.
  exists (finished handler message (casting input (awaiting prompt_ st1))).
  split; [|split; [|split]].
  - rewrite (collect_from _ _ _ _ _ _ pre (w :: ws) _ _ _ _ _ _ Hreach), Hinf.
    by rewrite (promptOne_settles _ _ _ _ _ _ _ _ _ _ _ _ _ _ _ _ T).
  - unfold hasPrompt, finished, removePrompt. simpl. intros Hin.
    apply elem_of_difference in Hin as [_ Hne]. apply Hne.
    by apply elem_of_singleton.
  - rewrite <- Hs1. unfold finished. by destruct (h_commandUtil handler).
  - unfold finished. rewrite <- Hs1.
    destruct (h_commandUtil handler); simpl; by rewrite <- ?app_assoc.
Qed.

(** X5. On any turn of a session, a reply of the author that is not the
    cancel word, nor the stop word of an infinite prompt, and that [cast]
    makes [null] starts a further turn: [promptOne] is called with the
    reply and [retryCount + 1]. That call begins by sending the retry
    text, when it is a text that is not empty, whatever the number of
    turns before it. *)
Theorem invalid_reply_retried
    pre w message commandInput st prev rc st0 sent st1 input v :
  session_reaches_ pre message commandInput st prev rc st0 ->
  send_prompt transport handler message commandInput prompt_
    (infinite_ message commandInput st) prev rc (entered message rc st0)
  = (Resolved sent, st1) ->
  awaitMessages (reply_filter message sent) w = Resolved input ->
  same_word toLowerCase (msg_content input) (cancelWord prompt_) = false ->
  infinite_ message commandInput st
  && same_word toLowerCase (msg_content input) (stopWord prompt_) = false ->
  cast_ (msg_content input) input (snapshot st1) = Resolved v ->
  nullish v = true ->
  let st2 := casting input (awaiting prompt_ st1) in
  session_reaches_ (pre ++ [w]) message commandInput st input (rc + 1) st2
  /\ forall w' t,
       retry prompt_ = TextIs t ->
       truthy_text (joined t) = true ->
       exists rest,
         log (snd (turn toLowerCase transport fuel handler this message
                     commandInput prompt_ (infinite_ message commandInput st)
                     w' input (rc + 1) st2))
         = log st2
           ++ Turn (rc + 1) :: CallSend (util_or_channel handler) (joined t)
              :: rest.
Proof.
  intros Hreach H Hw Hc Hs Hcast Hn st2.
  pose proof (turn_cast toLowerCase transport fuel handler this message
                commandInput prompt_ _ w prev rc st0 sent st1 input
                H Hw Hc Hs) as T.
  rewrite Hcast, Hn in T. split.
  - unfold session_reaches in *. eapply reaches_snoc; [exact Hreach|exact T].
  - intros w' t Ht Htruthy.
    assert (1 <= rc) as Hrc.
    { unfold session_reaches in Hreach.
      apply (reaches_retryCount _ _ _ _ _ _ _ _ _ _ _ _ _ _ _ _ Hreach). lia. }
    assert ((rc + 1 =? 1) = false) as Hne by (apply Nat.eqb_neq; lia).
    destruct (turn_prompt_log toLowerCase transport fuel handler this message
                commandInput prompt_ (infinite_ message commandInput st)
                w' input (rc + 1) st2) as (rest & Hl & Hhead).
    { unfold shouldSend. by rewrite Hne. }
    rewrite Hne, Ht in Hhead. specialize (Hhead Htruthy).
    destruct rest as [|e rest]; [done|]. injection Hhead as ->.
    by exists rest.
Qed.

(** X6. When the word of the command does not cast and the argument has a
    prompt (and the word is not empty, or the prompt not optional),
    [process] hands over to [collect] with the trimmed word as the input
    of the command. The session then opens as a retry: the first call of
    [promptOne] has [retryCount] 2 and begins with the retry text, and a
    text function is told the word that failed. Only when the trimmed word
    is empty does it open with [retryCount] 1 and the start text. *)
Theorem process_failed_word ws word message st p v :
  arg_prompt this = Some p ->
  nonempty (trim word) || negb (default false (lit_optional p)) = true ->
  cast_ (trim word) message (snapshot st) = Resolved v ->
  nullish v = true ->
  let rc := if nonempty (trim word) then 2 else 1 in
  let prompter := if nonempty (trim word) then retry prompt_ else start prompt_ in
  let inf := infinite_ message (Some (trim word)) st in
  process_ ws word message st = collect_ ws message (Some (trim word)) st
  /\ exists rest,
       log (snd (process_ ws word message st)) = log st ++ Turn rc :: rest
       /\ match prompter with
          | TextIs t =>
              truthy_text (joined t) = true ->
              head rest = Some (CallSend (util_or_channel handler) (joined t))
          | TextFn f =>
              head rest
              = Some (CallText (snapshot (init_values (arg_id this) inf st))
                        (mkData rc inf message (trim word)))
          end.
Proof.
  intros Hp Hopt Hcast Hn rc prompter inf.
  assert (process_ ws word message st
          = collect_ ws message (Some (trim word)) st) as E.
  { unfold process. rewrite Hp, Hcast, Hn.
    destruct (nonempty (trim word)); simpl in *; [done|].
    by destruct (default false (lit_optional p)). }
  split; [exact E|]. rewrite E. unfold collect. fold inf.
  set (st0 := init_values (arg_id this) inf st).
  assert (1 + Number_Boolean_commandInput (Some (trim word)) = rc) as ->
    by (unfold Number_Boolean_commandInput, rc; simpl;
        by destruct (nonempty (trim word))).
  destruct (promptOne_store toLowerCase transport fuel handler this message
              (Some (trim word)) prompt_ inf ws message rc st0)
    as (_ & _ & more & Hl).
  destruct (turn_prompt_log toLowerCase transport fuel handler this message
              (Some (trim word)) prompt_ inf (head ws) message rc st0)
    as (rest & Hl0 & Hhead).
  { unfold shouldSend, rc. destruct (nonempty (trim word)); [done|].
    simpl. unfold st0. by destruct inf. }
  assert (prevInput (Some (trim word)) message rc = trim word) as Hword.
  { unfold prevInput, Number_Boolean_commandInput, rc. simpl.
    destruct (nonempty (trim word)) eqn:Hw; simpl; [done|].
    unfold nonempty in Hw. by destruct (String.eqb_spec (trim word) "") as [->|]. }
  assert ((if rc =? 1 then start prompt_ else retry prompt_) = prompter) as Hpr
    by (unfold rc, prompter; by destruct (nonempty (trim word))).
  rewrite Hpr, Hword in Hhead.
  assert (head (rest ++ more) = head rest
          \/ rest = []) as Hh by (destruct rest; [by right|by left]).
  destruct (promptOne _ _ _ _ _ _ _ _ _ ws _ _ _) as [r st'] eqn:Hrun.
  simpl in Hl. rewrite Hl0 in Hl. rewrite <- app_assoc in Hl. simpl in Hl.
  assert (exists more', log (snd (match r with
                                   | Resolved returnValue =>
                                       (Resolved returnValue,
                                        removePrompt message
                                          (if h_commandUtil handler
                                           then emit SetShouldEdit st' else st'))
                                   | _ => (r, st')
                                   end)) = log st' ++ more') as [more' Hfin].
  { destruct r; simpl; try (by exists []; rewrite app_nil_r).
    destruct (h_commandUtil handler); simpl;
      [by eexists|by exists []; rewrite app_nil_r]. }
  exists ((rest ++ more) ++ more'). split.
  - destruct r; simpl in Hfin |- *; rewrite Hfin, Hl, <- !app_assoc; simpl;
      by rewrite <- ?app_assoc.
  - destruct prompter as [t|f].
    + intros Htr. specialize (Hhead Htr). destruct rest; [done|]. done.
    + destruct rest; [done|]. done.
Qed.

(** X7. Without a [prompt] option [process] never prompts, whatever the
    word: it returns the value [cast] gives, or, when that is [null], what
    the default gives (awaited when it is a promise); a failure of the
    casting function is thrown as it is. It calls neither [send] nor
    [awaitMessages], leaves the registry and [args] alone, and does not
    depend on what the channel delivers. *)
Theorem process_without_prompt ws word message st :
  arg_prompt this = None ->
  (forall v,
     cast_ (trim word) message (snapshot st) = Resolved v ->
     process_ ws word message st
     = if nullish v
       then (call_then_await (arg_default this message (snapshot st)),
             emit (CallDefault message (snapshot st)) st)
       else (Resolved v, st))
  /\ (forall e,
        cast_ (trim word) message (snapshot st) = Thrown e ->
        process_ ws word message st = (Thrown e, st))
  /\ prompts (snd (process_ ws word message st)) = prompts st
  /\ snapshot (snd (process_ ws word message st)) = snapshot st
  /\ List.filter is_transport_call (log (snd (process_ ws word message st)))
     = List.filter is_transport_call (log st)
  /\ process_ ws word message st = process_ [] word message st.
Proof.
  intros Hp. unfold process, resolve_default. rewrite Hp, andb_false_r.
  destruct (cast_ (trim word) message (snapshot st)) as [v|e| |].
  - destruct (nullish v) eqn:Hn.
    + repeat split; try done.
      * intros v' [= <-]. by rewrite Hn.
      * simpl. by rewrite List.filter_app, app_nil_r.
    + repeat split; try done. intros v' [= <-]. by rewrite Hn.
  - repeat split; try done. by intros e' [= <-].
  - repeat split; done.
  - repeat split; done.
Qed.

End Replies.

(* ------------------------------------------------------------------ *)
(** ** Whose replies count *)

Lemma find_filter {A} (f g : A -> bool) (l : list A) :
  (forall x, f x = true -> g x = true) ->
  find f (List.filter g l) = find f l.
Proof.
  intros Hfg. induction l as [|a l IH]; [done|]. simpl.
  destruct (g a) eqn:Hg; simpl.
  - by rewrite IH.
  - destruct (f a) eqn:Hf; [|exact IH]. rewrite (Hfg a Hf) in Hg. discriminate.
Qed.

Lemma reply_filter_author message sent m :
  reply_filter message sent m = true ->
  String.eqb (msg_author m) (msg_author message) = true.
Proof.
  unfold reply_filter. destruct sent as [s|].
  - destruct (String.eqb (msg_id m) (msg_id s)); [done|].
    by destruct (String.eqb (msg_author m) (msg_author message)).
  - by destruct (String.eqb (msg_author m) (msg_author message)).
Qed.

Lemma awaitMessages_own message sent w :
  awaitMessages (reply_filter message sent) (own_messages message w)
  = awaitMessages (reply_filter message sent) w.
Proof.
  destruct w as [ms|e]; [|done]. simpl.
  rewrite find_filter; [done|]. apply reply_filter_author.
Qed.

Lemma awaitMessages_replies message sent w input :
  awaitMessages (reply_filter message sent) w = Resolved input ->
  replies_with message w input.
Proof.
  destruct w as [ms|e]; [|done]. simpl.
  destruct (find (reply_filter message sent) ms) as [m|] eqn:Hf; [|done].
  intros [= ->]. apply find_some in Hf as [Hin Hfilter].
  exists ms. repeat split; try done.
  apply reply_filter_author in Hfilter. by apply String.eqb_eq.
Qed.

Section Authors.

Variable toLowerCase : string -> string.
Variable trim : string -> string.
Variable transport : list event -> text -> send_answer.
Variable fuel : nat.
Variable handler : CommandHandler.
Variable command : Command.
Variable this : Argument.

Lemma turn_own message commandInput prompt isInfinite w prevMessage retryCount st :
  turn toLowerCase transport fuel handler this message commandInput prompt
    isInfinite (Some (own_messages message w)) prevMessage retryCount st
  = turn toLowerCase transport fuel handler this message commandInput prompt
      isInfinite (Some w) prevMessage retryCount st.
Proof.
  unfold turn.
  destruct (send_prompt transport handler message commandInput prompt isInfinite
              prevMessage retryCount (entered message retryCount st))
    as [[sent|e| |] st1]; try done.
  unfold try_catch, try_block. by rewrite awaitMessages_own.
Qed.

Lemma promptOne_own message commandInput prompt isInfinite ws :
  forall prevMessage retryCount st,
    promptOne toLowerCase transport fuel handler this message commandInput
      prompt isInfinite (map (own_messages message) ws) prevMessage retryCount st
    = promptOne toLowerCase transport fuel handler this message commandInput
        prompt isInfinite ws prevMessage retryCount st.
Proof.
  induction ws as [|w ws IH]; intros prevMessage retryCount st; [done|].
  simpl. rewrite turn_own.
  destruct (turn _ _ _ _ _ _ _ _ _ (Some w) _ _ _) as [[r|prev rc] st'];
    [done|apply IH].
Qed.

(** X8. Only the author of the message that called the command can answer
    a prompt. What other authors write while a reply is awaited changes
    nothing: [collect] and [process] go the same way when their messages
    are taken out of every window. And a window in which every message is
    of another author, or is the prompt message the bot has just sent,
    ends as one without any message: by the rejection on time. *)
Theorem other_authors_ignored ws word message commandInput st :
  collect toLowerCase transport fuel handler command this
    (map (own_messages message) ws) message commandInput st
  = collect toLowerCase transport fuel handler command this ws message
      commandInput st
  /\ process toLowerCase trim transport fuel handler command this
       (map (own_messages message) ws) word message st
     = process toLowerCase trim transport fuel handler command this ws word
         message st
  /\ forall sent ms,
       Forall (fun m => msg_author m <> msg_author message
                        \/ exists s, sent = Some s /\ msg_id m = msg_id s) ms ->
       awaitMessages (reply_filter message sent) (Arrivals ms) = Thrown ThTime.
Proof.
  assert (forall ci,
            collect toLowerCase transport fuel handler command this
              (map (own_messages message) ws) message ci st
            = collect toLowerCase transport fuel handler command this ws message
                ci st) as Hcollect
    by (intros ci; unfold collect; by rewrite promptOne_own).
  split; [apply Hcollect|]. split.
  - unfold process. by rewrite Hcollect.
  - intros sent ms Hall. simpl.
    destruct (find (reply_filter message sent) ms) as [m|] eqn:Hf; [|done].
    apply find_some in Hf as [Hin Hfilter].
    rewrite Forall_forall in Hall. apply list_elem_of_In in Hin.
    destruct (Hall m Hin) as [Hne|(s & -> & Hid)].
    + apply reply_filter_author in Hfilter. apply String.eqb_eq in Hfilter.
      by destruct Hne.
    + unfold reply_filter in Hfilter. rewrite Hid, String.eqb_refl in Hfilter.
      discriminate.
Qed.

End Authors.

(* ------------------------------------------------------------------ *)
(** ** What [collect] resolves to *)

Section Results.

Variable toLowerCase : string -> string.
Variable transport : list event -> text -> send_answer.
Variable fuel : nat.
Variable handler : CommandHandler.
Variable command : Command.
Variable this : Argument.

Local Abbreviation prompt_ := (merged_prompt handler command this).
Local Abbreviation cast_ := (cast toLowerCase fuel handler this).
Local Abbreviation collect_ :=
  (collect toLowerCase transport fuel handler command this).
Local Abbreviation infinite_ m ci st := (is_infinite handler command this m ci st).

(** Without a window left, a call of [promptOne] does not return a value. *)
Lemma turn_none_result message commandInput prompt isInfinite prevMessage
    retryCount st :
  exists r st',
    turn toLowerCase transport fuel handler this message commandInput prompt
      isInfinite None prevMessage retryCount st = (Settles r, st')
    /\ forall x, r <> Resolved x.
Proof.
  unfold turn, try_catch.
  destruct (send_prompt transport handler message commandInput prompt isInfinite
              prevMessage retryCount (entered message retryCount st))
    as [[sent|e| |] st1]; eexists _, _; (split; [reflexivity|done]).
Qed.

Lemma send_prompt_values message commandInput prompt isInfinite prevMessage
    retryCount st r st1 :
  send_prompt transport handler message commandInput prompt isInfinite
    prevMessage retryCount (entered message retryCount st) = (r, st1) ->
  values st1 = values st /\ args st1 = args st
  /\ prompts st1 = {[ prompt_key message ]} ∪ prompts st.
Proof.
  intros H.
  destruct (send_prompt_calls transport handler message commandInput prompt
              isInfinite prevMessage retryCount (entered message retryCount st))
    as (evs & (Ha & Hv & _) & _ & Hp).
  rewrite H in Ha, Hv, Hp. simpl in Ha, Hv, Hp. by rewrite Ha, Hv, Hp.
Qed.

(** In infinite mode [promptOne] resolves to the array [values], which is
    then not empty, holds no [null], and is no longer than the limit, or
    than 1 when the limit is below 1. *)
Lemma promptOne_infinite_result message commandInput prompt ws :
  forall prevMessage retryCount st id vs x st',
    values st = Some (id, vs) ->
    Forall (fun v => nullish v = false) vs ->
    vs = [] \/ below (length vs) (limit prompt) = true ->
    promptOne toLowerCase transport fuel handler this message commandInput
      prompt true ws prevMessage retryCount st = (Resolved x, st') ->
    exists vs',
      x = VArray vs' /\ vs' <> []
      /\ Forall (fun v => nullish v = false) vs'
      /\ values st' = Some (id, vs')
      /\ forall n, limit prompt = Finite n -> length vs' <= Nat.max 1 n.
Proof.
  induction ws as [|w ws IH];
    intros prevMessage retryCount st id vs x st' Hv Hnn Hinv; simpl.
  - destruct (turn_none_result message commandInput prompt true prevMessage
                retryCount st) as (r & st1 & -> & Hne).
    intros [= -> _]. by destruct (Hne x).
  - destruct (turn _ _ _ _ _ _ _ _ _ (Some w) _ _ _) as [[r|prev rc] st1] eqn:T;
      pose proof (turn_results _ _ _ _ _ _ _ _ _ _ _ _ _ _ _ T) as Hr;
      simpl in Hr.
    + intros [= -> ->].
      destruct Hr as (sent & s1 & input & H & _ & _ & Hcases).
      destruct (send_prompt_values _ _ _ _ _ _ _ _ _ H) as (Hv1 & _ & _).
      rewrite Hv in Hv1.
      destruct Hcases as [(_ & _ & Hlen & -> & ->)
                         |(_ & v & _ & Hn & [(Hf & _)|(_ & -> & -> & Hb)])].
      * rewrite (values_length_some _ _ _ Hv1) in Hlen.
        rewrite (elements_some _ _ _ Hv1). exists vs.
        split; [done|]. split; [by destruct vs|]. split; [done|]. split; [done|].
        intros n Hlim. destruct Hinv as [->|Hb]; [done|].
        rewrite Hlim in Hb. simpl in Hb. apply Nat.ltb_lt in Hb. lia.
      * done.
      * assert (values (push v (casting input (awaiting prompt s1)))
                = Some (id, vs ++ [v])) as Hv2 by (by apply values_push).
        rewrite (values_length_some _ _ _ Hv2) in Hb.
        rewrite (elements_some _ _ _ Hv2). exists (vs ++ [v]).
        split; [done|]. split; [by destruct vs|].
        split; [apply Forall_app; split; [done|by constructor]|].
        split; [done|].
        intros n Hlim. rewrite length_app. simpl.
        destruct Hinv as [->|Hb']; [simpl; lia|].
        rewrite Hlim in Hb'. simpl in Hb'. apply Nat.ltb_lt in Hb'. lia.
    + destruct Hr as (sent & s1 & input & H & _ & _ & Hcases).
      destruct (send_prompt_values _ _ _ _ _ _ _ _ _ H) as (Hv1 & _ & _).
      rewrite Hv in Hv1.
      destruct Hcases as [(_ & _ & _ & _ & _ & ->)
                         |[(_ & _ & _ & _ & ->)
                          |(_ & _ & _ & _ & v & _ & Hn & -> & Hb)]].
      * by apply (IH _ _ _ id vs).
      * by apply (IH _ _ _ id vs).
      * assert (values (push v (casting input (awaiting prompt s1)))
                = Some (id, vs ++ [v])) as Hv2 by (by apply values_push).
        rewrite (values_length_some _ _ _ Hv2) in Hb.
        apply (IH _ _ _ id (vs ++ [v]));
          [done|apply Forall_app; split; [done|by constructor]|by right].
Qed.

(** Outside infinite mode [promptOne] resolves to what [cast] makes of a
    reply of the author, and that is not [null]. *)
Lemma promptOne_finite_result message commandInput prompt ws :
  forall prevMessage retryCount st x st',
    values st = None ->
    promptOne toLowerCase transport fuel handler this message commandInput
      prompt false ws prevMessage retryCount st = (Resolved x, st') ->
    nullish x = false
    /\ exists w input,
         In w ws /\ replies_with message w input
         /\ cast_ (msg_content input) input (args st) = Resolved x.
Proof.
  induction ws as [|w ws IH]; intros prevMessage retryCount st x st' Hv; simpl.
  - destruct (turn_none_result message commandInput prompt false prevMessage
                retryCount st) as (r & st1 & -> & Hne).
    intros [= -> _]. by destruct (Hne x).
  - destruct (turn_store toLowerCase transport fuel handler this message
                commandInput prompt false (Some w) prevMessage retryCount st)
      as (Ha' & Hv' & _).
    destruct (turn _ _ _ _ _ _ _ _ _ (Some w) _ _ _) as [[r|prev rc] st1] eqn:T;
      pose proof (turn_results _ _ _ _ _ _ _ _ _ _ _ _ _ _ _ T) as Hr;
      simpl in Hr, Ha', Hv'.
    + intros [= -> ->].
      destruct Hr as (sent & s1 & input & H & Hw & _ & Hcases).
      destruct (send_prompt_values _ _ _ _ _ _ _ _ _ H) as (Hv1 & Ha1 & _).
      destruct Hcases as [(Hf & _)|(_ & v & Hcast & Hn & [(_ & -> & _)|(Hf & _)])];
        try done.
      split; [done|]. exists w, input. split; [by left|].
      split; [by apply (awaitMessages_replies message sent)|].
      unfold snapshot in Hcast. by rewrite Hv1, Hv, Ha1 in Hcast.
    + intros Hrun. destruct (IH _ _ _ _ _ (Hv' Hv) Hrun) as (Hn & w' & input & Hin & Hrep & Hcast).
      split; [done|]. exists w', input. split; [by right|]. split; [done|].
      by rewrite <- Ha'.
Qed.

(** X9. When [collect] resolves, the prompt is no longer in the registry,
    and the value is:
    - in infinite mode, the array [values], which [args] holds under
      [this.id]; the array is not empty, holds no [null], and is no longer
      than [limit], or than 1 when [limit] is below 1;
    - otherwise what [cast], given the [args] of the call of [collect],
      makes of a reply of the author in one of the windows, and that is
      never [null] nor [undefined]. *)
Theorem collect_resolves ws message commandInput st x st' :
  collect_ ws message commandInput st = (Resolved x, st') ->
  ~ hasPrompt message st'
  /\ (infinite_ message commandInput st = true ->
      exists vs,
        x = VArray vs /\ vs <> []
        /\ Forall (fun v => nullish v = false) vs
        /\ (forall n, limit prompt_ = Finite n -> length vs <= Nat.max 1 n)
        /\ snapshot st' !! arg_id this = Some x)
  /\ (infinite_ message commandInput st = false ->
      nullish x = false
      /\ exists w input,
           In w ws /\ replies_with message w input
           /\ cast_ (msg_content input) input (snapshot st) = Resolved x).
Proof.
  unfold collect.
  destruct (promptOne _ _ _ _ _ _ _ _ _ ws _ _ _) as [r st1] eqn:Hrun.
  destruct r as [v|e| |]; try done. intros [= -> <-]. split; [|split].
  - unfold hasPrompt, removePrompt. simpl. intros Hin.
    apply elem_of_difference in Hin as [_ Hne]. apply Hne.
    by apply elem_of_singleton.
  - intros Hinf. rewrite Hinf in Hrun.
    destruct (promptOne_infinite_result _ _ _ _ _ _
                (init_values (arg_id this) true st) (arg_id this) [] _ _
                eq_refl (List.Forall_nil _) (or_introl eq_refl) Hrun)
      as (vs & -> & Hne & Hnn & Hv & Hlim).
    exists vs. repeat split; try done.
    unfold snapshot. simpl.
    replace (values (if h_commandUtil handler then emit SetShouldEdit st1 else st1))
      with (values st1) by (by destruct (h_commandUtil handler)).
    rewrite Hv. apply lookup_insert_eq.
  - intros Hinf. rewrite Hinf in Hrun.
    by apply (promptOne_finite_result _ _ _ _ _ _
                (init_values (arg_id this) false st) _ _ eq_refl) in Hrun.
Qed.

End Results.

(* ------------------------------------------------------------------ *)
(** ** What [collect] has no business with *)

Lemma outside_emit message e st :
  is_default_call e = false -> outside message (emit e st) = outside message st.
Proof.
  intros H. unfold outside. simpl. rewrite List.filter_app. simpl.
  by rewrite H, app_nil_r.
Qed.

Lemma outside_addPrompt message st :
  outside message (addPrompt message st) = outside message st.
Proof.
  unfold outside, addPrompt, prompt_key. simpl. f_equal.
  apply set_eq. intros k. rewrite !elem_of_difference, elem_of_union. tauto.
Qed.

Lemma outside_removePrompt message st :
  outside message (removePrompt message st) = outside message st.
Proof.
  unfold outside, removePrompt, prompt_key. simpl. f_equal.
  apply set_eq. intros k. rewrite !elem_of_difference. tauto.
Qed.

Lemma outside_push message v st : outside message (push v st) = outside message st.
Proof. done. Qed.

Section LeftAlone.

Variable toLowerCase : string -> string.
Variable trim : string -> string.
Variable transport : list event -> text -> send_answer.
Variable fuel : nat.
Variable handler : CommandHandler.
Variable command : Command.
Variable this : Argument.
Variable message : Message.
Variable commandInput : option string.
Variable prompt : ArgumentPromptOptions.
Variable isInfinite : bool.

Lemma getText_outside textOption retryCount inputMessage inputWord st t st' :
  getText message isInfinite textOption retryCount inputMessage inputWord st
  = (t, st') ->
  outside message st' = outside message st.
Proof.
  destruct textOption as [t0|f]; simpl; intros [= _ <-]; [done|].
  by apply outside_emit.
Qed.

Lemma send_outside via t st r st' :
  send transport via t st = (r, st') -> outside message st' = outside message st.
Proof.
  unfold send. destruct (transport (log st) t); intros [= _ <-];
    by apply outside_emit.
Qed.

Lemma send_prompt_outside prevMessage retryCount st r st' :
  send_prompt transport handler message commandInput prompt isInfinite
    prevMessage retryCount st = (r, st') ->
  outside message st' = outside message st.
Proof.
  unfold send_prompt. destruct (shouldSend isInfinite retryCount st);
    [|by intros [= _ <-]].
  destruct (getText message isInfinite _ retryCount prevMessage _ st)
    as [startText st1] eqn:Eg. apply getText_outside in Eg.
  destruct (truthy_text startText); [|by intros [= _ <-]].
  destruct (send transport (util_or_channel handler) startText st1)
    as [[sent|e| |] st2] eqn:Es; apply send_outside in Es;
    intros [= _ <-]; [|congruence..].
  destruct (h_commandUtil handler); [|congruence].
  rewrite !outside_emit by done. congruence.
Qed.

Lemma catch_block_outside err prevMessage retryCount st r st' :
  catch_block transport message prompt isInfinite err prevMessage retryCount st
  = (r, st') ->
  outside message st' = outside message st.
Proof.
  unfold catch_block.
  destruct (instanceof_Error err); [by intros [= _ <-]|].
  destruct (is_COMMAND_CANCELLED err); [by intros [= _ <-]|].
  destruct (getText message isInfinite (timeout prompt) retryCount prevMessage "" st)
    as [timeoutText st1] eqn:Eg. apply getText_outside in Eg.
  destruct (truthy_text timeoutText).
  - destruct (send transport ViaChannel timeoutText st1) as [[m|e| |] st2] eqn:Es;
      apply send_outside in Es; intros [= _ <-];
      rewrite ?outside_removePrompt; congruence.
  - intros [= _ <-]. rewrite outside_removePrompt. congruence.
Qed.

Lemma try_block_outside w sent retryCount st te st' :
  try_block toLowerCase transport fuel handler this message prompt isInfinite
    w sent retryCount st = (te, st') ->
  outside message st' = outside message st.
Proof.
  assert (outside message (awaiting prompt st) = outside message st) as Hw
    by (by apply outside_emit).
  unfold try_block.
  destruct (awaitMessages (reply_filter message sent) w) as [input|e| |];
    try (by intros [= _ <-]).
  destruct (same_word toLowerCase (msg_content input) (cancelWord prompt)).
  { destruct (getText message isInfinite (cancel prompt) retryCount input ""
                (awaiting prompt st)) as [cancelText st1] eqn:Eg.
    apply getText_outside in Eg.
    destruct (truthy_text cancelText).
    - destruct (send transport ViaChannel cancelText st1) as [[m|e| |] st2] eqn:Es;
        apply send_outside in Es; intros [= _ <-];
        rewrite ?outside_removePrompt; congruence.
    - intros [= _ <-]. rewrite outside_removePrompt. congruence. }
  destruct (isInfinite && same_word toLowerCase (msg_content input) (stopWord prompt)).
  { by destruct (values_length (awaiting prompt st) =? 0); intros [= _ <-]. }
  assert (outside message (casting input (awaiting prompt st))
          = outside message st) as Hc
    by (unfold casting; by rewrite outside_emit).
  destruct (cast toLowerCase fuel handler this (msg_content input) input _)
    as [v|e| |]; try (by intros [= _ <-]).
  destruct (nullish v); [by intros [= _ <-]|].
  destruct isInfinite; [|by intros [= _ <-]].
  by destruct (below _ _); intros [= _ <-].
Qed.

Lemma turn_outside w prevMessage retryCount st te st' :
  turn toLowerCase transport fuel handler this message commandInput prompt
    isInfinite w prevMessage retryCount st = (te, st') ->
  outside message st' = outside message st.
Proof.
  assert (outside message (entered message retryCount st) = outside message st)
    as He by (unfold entered; by rewrite outside_addPrompt, outside_emit).
  unfold turn.
  destruct (send_prompt transport handler message commandInput prompt isInfinite
              prevMessage retryCount (entered message retryCount st))
    as [[sent|e| |] st1] eqn:Es; apply send_prompt_outside in Es;
    try (intros [= _ <-]; congruence).
  unfold try_catch. destruct w as [w|].
  - destruct (try_block toLowerCase transport fuel handler this message prompt
                isInfinite w sent retryCount st1) as [[v|prev rc|r|err] st2] eqn:Et;
      apply try_block_outside in Et; try (intros [= _ <-]; congruence).
    destruct (catch_block transport message prompt isInfinite err prevMessage
                retryCount st2) as [r st3] eqn:Ec.
    apply catch_block_outside in Ec. intros [= _ <-]. congruence.
  - intros [= _ <-]. unfold awaiting. rewrite outside_emit by done. congruence.
Qed.

Lemma promptOne_outside ws :
  forall prevMessage retryCount st,
    outside message
      (snd (promptOne toLowerCase transport fuel handler this message
              commandInput prompt isInfinite ws prevMessage retryCount st))
    = outside message st.
Proof.
  induction ws as [|w ws IH]; intros prevMessage retryCount st; simpl.
  - destruct (turn _ _ _ _ _ _ _ _ _ None _ _ _) as [[r|prev rc] st'] eqn:T;
      by apply turn_outside in T.
  - destruct (turn _ _ _ _ _ _ _ _ _ (Some w) _ _ _) as [[r|prev rc] st'] eqn:T;
      apply turn_outside in T; [done|]. by rewrite IH.
Qed.

(** While a reply is awaited the prompt is in the registry. *)
Lemma turn_none_registered prevMessage retryCount st r st' :
  turn toLowerCase transport fuel handler this message commandInput prompt
    isInfinite None prevMessage retryCount st = (Settles r, st') ->
  r = Waiting ->
  hasPrompt message st' /\ last (log st') = Some (CallAwait (time prompt)).
Proof.
  unfold turn.
  destruct (send_prompt transport handler message commandInput prompt isInfinite
              prevMessage retryCount (entered message retryCount st))
    as [r0 st1] eqn:H.
  destruct (send_prompt_settles transport handler message commandInput prompt
              isInfinite prevMessage retryCount (entered message retryCount st))
    as [[sent Hr]|[e Hr]]; rewrite H in Hr; simpl in Hr; subst r0.
  - simpl. intros [= <- <-] _.
    destruct (send_prompt_values _ _ _ _ _ _ _ _ _ _ _ H) as (_ & _ & Hp).
    split.
    + unfold hasPrompt. simpl. rewrite Hp. apply elem_of_union. left.
      by apply elem_of_singleton.
    + simpl. by rewrite last_snoc.
  - by intros [= <- <-].
Qed.

Lemma promptOne_waiting ws :
  forall prevMessage retryCount st st',
    promptOne toLowerCase transport fuel handler this message commandInput
      prompt isInfinite ws prevMessage retryCount st = (Waiting, st') ->
    hasPrompt message st' /\ last (log st') = Some (CallAwait (time prompt)).
Proof.
  induction ws as [|w ws IH]; intros prevMessage retryCount st st'; simpl.
  - destruct (turn_none_result toLowerCase transport fuel handler this message
                commandInput prompt isInfinite prevMessage retryCount st)
      as (r & st1 & T & _).
    rewrite T. intros [= -> ->]. by apply (turn_none_registered _ _ _ _ _ T).
  - destruct (turn _ _ _ _ _ _ _ _ _ (Some w) _ _ _) as [[r|prev rc] st1] eqn:T.
    + intros [= -> ->].
      by pose proof (turn_results _ _ _ _ _ _ _ _ _ _ _ _ _ _ _ T) as Hr.
    + apply IH.
Qed.

End LeftAlone.

Section Bystanders.

Variable toLowerCase : string -> string.
Variable trim : string -> string.
Variable transport : list event -> text -> send_answer.
Variable fuel : nat.
Variable handler : CommandHandler.
Variable command : Command.
Variable this : Argument.

Local Abbreviation prompt_ := (merged_prompt handler command this).
Local Abbreviation cast_ := (cast toLowerCase fuel handler this).
Local Abbreviation collect_ :=
  (collect toLowerCase transport fuel handler command this).
Local Abbreviation process_ :=
  (process toLowerCase trim transport fuel handler command this).
Local Abbreviation infinite_ m ci st := (is_infinite handler command this m ci st).

Lemma collect_outside ws message commandInput st :
  outside message (snd (collect_ ws message commandInput st))
  = outside message st.
Proof.
  unfold collect.
  pose proof (promptOne_outside toLowerCase transport fuel handler this message
                commandInput prompt_ (infinite_ message commandInput st) ws
                message (1 + Number_Boolean_commandInput commandInput)
                (init_values (arg_id this) (infinite_ message commandInput st) st))
    as Ho.
  destruct (promptOne _ _ _ _ _ _ _ _ _ ws _ _ _) as [[v|e| |] st1];
    simpl in Ho |- *; try exact Ho.
  rewrite outside_removePrompt.
  destruct (h_commandUtil handler); [|exact Ho]. by rewrite outside_emit.
Qed.

(** X10. Whatever the channel delivers and however the session ends,
    [collect] touches nothing but its own: in the registry only the prompt
    of the author and channel of the message; in [args] only the property
    [this.id], and outside infinite mode no property at all; and it never
    calls the default function. *)
Theorem collect_leaves_alone ws message commandInput st :
  let st' := snd (collect_ ws message commandInput st) in
  (forall k, k <> prompt_key message -> k ∈ prompts st' <-> k ∈ prompts st)
  /\ List.filter is_default_call (log st') = List.filter is_default_call (log st)
  /\ (forall k, k <> arg_id this -> snapshot st' !! k = snapshot st !! k)
  /\ (infinite_ message commandInput st = false -> snapshot st' = snapshot st).
Proof.
  intros st'.
  pose proof (collect_outside ws message commandInput st) as Ho.
  fold st' in Ho. unfold outside in Ho. injection Ho as Hp Hl.
  split; [|split; [exact Hl|]].
  - intros k Hk. split; intros Hin.
    + assert (k ∈ prompts st' ∖ {[prompt_key message]}) as Hin'
        by (apply elem_of_difference; split; [done|by rewrite elem_of_singleton]).
      rewrite Hp in Hin'. by apply elem_of_difference in Hin' as [? _].
    + assert (k ∈ prompts st ∖ {[prompt_key message]}) as Hin'
        by (apply elem_of_difference; split; [done|by rewrite elem_of_singleton]).
      rewrite <- Hp in Hin'. by apply elem_of_difference in Hin' as [? _].
  - assert (args st' = snapshot st
            /\ (infinite_ message commandInput st = true ->
                exists vs, values st' = Some (arg_id this, vs))
            /\ (infinite_ message commandInput st = false -> values st' = None))
      as (Ha & Hvt & Hvf).
    { unfold st', collect.
      set (inf := infinite_ message commandInput st).
      destruct (promptOne_store toLowerCase transport fuel handler this message
                  commandInput prompt_ inf ws message
                  (1 + Number_Boolean_commandInput commandInput)
                  (init_values (arg_id this) inf st)) as (Ha & Hv & _).
      assert (inf = true ->
              exists vs,
                values (snd (promptOne toLowerCase transport fuel handler this
                               message commandInput prompt_ inf ws message
                               (1 + Number_Boolean_commandInput commandInput)
                               (init_values (arg_id this) inf st)))
                = Some (arg_id this, vs)) as Hacc.
      { intros ->.
        destruct (promptOne_accumulates toLowerCase transport fuel handler this
                    message commandInput prompt_ true ws message
                    (1 + Number_Boolean_commandInput commandInput)
                    (init_values (arg_id this) true st) (arg_id this) [] eq_refl)
          as (evs & vs & _ & Hvs & _).
        by exists vs. }
      destruct (promptOne _ _ _ _ _ _ _ _ _ ws _ _ _) as [[v|e| |] st1];
        simpl in Ha, Hv, Hacc |- *;
        try (split; [exact Ha|split; [exact Hacc|intros Hf; apply Hv; by rewrite Hf]]).
      replace (values (if h_commandUtil handler then emit SetShouldEdit st1 else st1))
        with (values st1) by (by destruct (h_commandUtil handler)).
      replace (args (if h_commandUtil handler then emit SetShouldEdit st1 else st1))
        with (args st1) by (by destruct (h_commandUtil handler)).
      split; [exact Ha|split; [exact Hacc|intros Hf; apply Hv; by rewrite Hf]]. }
    split.
    + intros k Hk. unfold snapshot at 1. rewrite Ha.
      destruct (infinite_ message commandInput st) eqn:Hinf.
      * destruct (Hvt eq_refl) as [vs ->]. by apply lookup_insert_ne.
      * by rewrite (Hvf eq_refl).
    + intros Hinf. unfold snapshot at 1. by rewrite (Hvf Hinf), Ha.
Qed.

(** X11. With a [prompt] option the default is out of use: unless the
    trimmed word is empty and the prompt optional, [process] never calls
    the default function, whatever the word is cast to and however the
    session goes. *)
Theorem prompt_overrides_default ws word message st p :
  arg_prompt this = Some p ->
  nonempty (trim word) || negb (default false (lit_optional p)) = true ->
  List.filter is_default_call (log (snd (process_ ws word message st)))
  = List.filter is_default_call (log st).
Proof.
  intros Hp Hopt. unfold process. rewrite Hp.
  replace (negb (nonempty (trim word)) && default false (lit_optional p))
    with false
    by (destruct (nonempty (trim word)); simpl in *; [done|];
        by destruct (default false (lit_optional p))).
  destruct (cast_ (trim word) message (snapshot st)) as [v|e| |]; try done.
  destruct (nullish v); [|done].
  pose proof (collect_outside ws message (Some (trim word)) st) as Ho.
  unfold outside in Ho. by injection Ho as _ Hl.
Qed.

(** X12. [awaitMessages] is called only with the prompt in the registry;
    and when [collect] is still pending after the last window of the
    script, it is awaiting a reply: its last call is that of
    [awaitMessages], and the prompt is in the registry. *)
Theorem prompt_registered_while_awaiting ws message commandInput st :
  (forall prev rc st0 sent st1,
     send_prompt transport handler message commandInput prompt_
       (infinite_ message commandInput st) prev rc (entered message rc st0)
     = (Resolved sent, st1) ->
     hasPrompt message (awaiting prompt_ st1))
  /\ (forall st',
        collect_ ws message commandInput st = (Waiting, st') ->
        hasPrompt message st'
        /\ last (log st') = Some (CallAwait (time prompt_))).
Proof.
  split.
  - intros prev rc st0 sent st1 H.
    destruct (send_prompt_values _ _ _ _ _ _ _ _ _ _ _ H) as (_ & _ & Hp).
    unfold hasPrompt. simpl. rewrite Hp. apply elem_of_union. left.
    by apply elem_of_singleton.
  - intros st'. unfold collect.
    destruct (promptOne _ _ _ _ _ _ _ _ _ ws _ _ _) as [[v|e| |] st1] eqn:Hrun;
      try done.
    intros [= <-]. by apply promptOne_waiting in Hrun.
Qed.

End Bystanders.

(* ------------------------------------------------------------------ *)
(** ** Arguments as the constructor makes them *)

Section Constructed.

Variable toLowerCase : string -> string.
Variable trim : string -> string.
Variable transport : list event -> text -> send_answer.
Variable fuel : nat.
Variable handler : CommandHandler.
Variable command : Command.

Local Abbreviation process_ this :=
  (process toLowerCase trim transport fuel handler command this).

Lemma empty_word word : nonempty word = false -> word = "".
Proof.
  unfold nonempty. by destruct (String.eqb_spec word "") as [->|].
Qed.

(** X13. An argument made from options without [type], [prompt] and
    [default] takes the word as it is: [process] returns the trimmed word,
    the empty string when nothing is left of it, and so never [null]; it
    never prompts. This holds when the resolver has no type ['string'], and
    when it has the documented one, which "does not cast to any type". *)
Theorem constructed_word_argument options ws word message st :
  opt_type options = None ->
  opt_prompt options = None ->
  opt_default options = None ->
  (forall f, h_resolver handler "string" = Some f ->
             forall w m a, f w m a = string_type w m a) ->
  let this := this_fields (constructor command options) in
  fst (process_ this ws word message st) = Resolved (VString (trim word))
  /\ prompts (snd (process_ this ws word message st)) = prompts st
  /\ List.filter is_transport_call (log (snd (process_ this ws word message st)))
     = List.filter is_transport_call (log st).
Proof.
  intros Ht Hp Hd Hr this.
  assert (cast toLowerCase fuel handler this (trim word) message (snapshot st)
          = Resolved (if nonempty (trim word) then VString (trim word) else VNull))
    as Hcast.
  { unfold cast, this, constructor. simpl. rewrite Ht. simpl.
    unfold ArgumentTypes_STRING.
    destruct (h_resolver handler "string") as [f|] eqn:Hf.
    - unfold cast_fn. rewrite (Hr f eq_refl). unfold string_type. simpl.
      by destruct (nonempty (trim word)).
    - by destruct (nonempty (trim word)). }
  unfold process. rewrite Hcast.
  replace (arg_prompt this) with (@None PromptLiteral) by (by rewrite <- Hp).
  rewrite andb_false_r.
  destruct (nonempty (trim word)) eqn:Hw; simpl; [done|].
  unfold this, constructor. simpl. rewrite Hd. simpl.
  rewrite (empty_word _ Hw). split; [done|]. split; [done|].
  by rewrite List.filter_app, app_nil_r.
Qed.

(** X14. The [default] option is what an argument without a prompt falls
    back to when the word does not cast: [process] returns a value given
    as [default] as it is, awaited when it is a promise; for a function it
    returns what the function, called with the message and [args], gives;
    and when [default] is absent or [undefined], the empty string. *)
Theorem constructed_default options ws word message st :
  opt_prompt options = None ->
  let this := this_fields (constructor command options) in
  cast toLowerCase fuel handler this (trim word) message (snapshot st)
  = Resolved VNull ->
  process_ this ws word message st
  = (match opt_default options with
     | None | Some (DefaultIs (Value VUndefined)) => Resolved (VString "")
     | Some (DefaultIs r) => await r
     | Some (DefaultFn f) => call_then_await (f message (snapshot st))
     end,
     emit (CallDefault message (snapshot st)) st).
Proof.
  intros Hp this Hcast. unfold process. rewrite Hcast.
  replace (arg_prompt this) with (@None PromptLiteral) by (by rewrite <- Hp).
  rewrite andb_false_r. simpl. unfold resolve_default. f_equal.
  unfold this, constructor. simpl.
  destruct (opt_default options) as [[[v|[v|e]]|f]|]; try done.
  by destruct v.
Qed.

End Constructed.

(* ------------------------------------------------------------------ *)
(** ** Infinite prompts and their limit *)

Section Limit.

Variable toLowerCase : string -> string.
Variable transport : list event -> text -> send_answer.
Variable fuel : nat.
Variable handler : CommandHandler.
Variable command : Command.
Variable this : Argument.
Variable message : Message.
Variable commandInput : option string.
Variable prompt : ArgumentPromptOptions.

Local Abbreviation send_prompt_ :=
  (send_prompt transport handler message commandInput prompt true).
Local Abbreviation turn_ :=
  (turn toLowerCase transport fuel handler this message commandInput prompt true).
Local Abbreviation promptOne_ :=
  (promptOne toLowerCase transport fuel handler this message commandInput
     prompt true).
Local Abbreviation reaches_ :=
  (reaches toLowerCase transport fuel handler this message commandInput prompt
     true).
Local Abbreviation valid_replies_ :=
  (valid_replies toLowerCase fuel handler this message prompt).

(** The turn of a reply that is cast with success, and the prompt of the
    turn after it. *)
Lemma turn_accumulating prev rc st sent st1 id vs r :
  values st = Some (id, vs) ->
  send_prompt_ prev rc (entered message rc st) = (Resolved sent, st1) ->
  valid_reply toLowerCase fuel handler this message prompt sent
    (reply_window r) (<[id := VArray vs]> (args st)) (snd (fst r))
    (reply_value r) ->
  exists st2,
    turn_ (Some (reply_window r)) prev rc st
    = (if below (S (length vs)) (limit prompt)
       then Next message 1
       else Settles (Resolved (VArray (vs ++ [reply_value r]))), st2)
    /\ values st2 = Some (id, vs ++ [reply_value r])
    /\ args st2 = args st
    /\ List.filter is_send (log st2) = List.filter is_send (log st1)
    /\ send_prompt_ message 1 (entered message 1 st2)
       = (Resolved None, entered message 1 st2).
Proof.
  intros Hv H Hvalid.
  destruct (send_prompt_values _ _ _ _ _ _ _ _ _ _ _ H) as (Hv1 & Ha1 & _).
  rewrite Hv in Hv1. rewrite <- Ha1 in Hvalid.
  eexists. split; [|split; [|split; [|split]]].
  - exact (turn_valid_reply toLowerCase transport fuel handler this message
             commandInput prompt _ prev rc st sent st1 id vs _ _ H Hv1 Hvalid).
  - by apply values_push.
  - exact Ha1.
  - rewrite log_push_casting, log_awaiting, !List.filter_app. simpl.
    by rewrite !app_nil_r.
  - apply send_prompt_suppressed.
    change (values_length (entered message 1
              (push (reply_value r) (casting (snd (fst r)) (awaiting prompt st1)))))
      with (values_length (push (reply_value r)
              (casting (snd (fst r)) (awaiting prompt st1)))).
    rewrite (values_length_some _ id (vs ++ [reply_value r]))
      by (by apply values_push).
    rewrite length_app. simpl. lia.
Qed.

(** Replies that are cast with success while the limit is not reached:
    each one is pushed to [values], and the session goes on. *)
Lemma valid_replies_reach rs :
  forall prev rc st sent st1 id vs,
    values st = Some (id, vs) ->
    send_prompt_ prev rc (entered message rc st) = (Resolved sent, st1) ->
    valid_replies_ sent (fun u => <[id := VArray u]> (args st)) vs rs ->
    rs <> [] ->
    (forall k, length vs < k <= length vs + length rs ->
               below k (limit prompt) = true) ->
    exists st',
      reaches_ (map reply_window rs) prev rc st message 1 st'
      /\ values st' = Some (id, vs ++ map reply_value rs)
      /\ args st' = args st
      /\ List.filter is_send (log st') = List.filter is_send (log st1).
Proof.
  induction rs as [|r rs IH]; intros prev rc st sent st1 id vs Hv H Hvalid Hne Hlim;
    [done|].
  destruct Hvalid as [Hr Hrs].
  destruct (turn_accumulating prev rc st sent st1 id vs r Hv H Hr)
    as (st2 & T & Hv2 & Ha2 & Hs2 & H2).
  rewrite (Hlim (S (length vs))) in T by (simpl; lia).
  destruct rs as [|r' rs].
  - exists st2. split; [|by split].
    simpl. eapply reaches_next; [exact T|apply reaches_here].
  - destruct (IH message 1 st2 None (entered message 1 st2) id
                (vs ++ [reply_value r]) Hv2 H2)
      as (st' & Hreach & Hv' & Ha' & Hs').
    + by rewrite Ha2.
    + done.
    + intros k Hk. apply Hlim. rewrite length_app in Hk. simpl in Hk |- *. lia.
    + exists st'. split; [|split; [|split]].
      * change (map reply_window (r :: r' :: rs))
          with (reply_window r :: map reply_window (r' :: rs)).
        eapply reaches_next; [exact T|exact Hreach].
      * rewrite Hv'. by rewrite <- app_assoc.
      * congruence.
      * rewrite Hs', <- Hs2, log_entered, List.filter_app. simpl.
        by rewrite app_nil_r.
Qed.

(** The last of them reaches the limit: the array is returned. *)
Lemma valid_replies_return ws rs :
  forall prev rc st sent st1 id vs,
    values st = Some (id, vs) ->
    send_prompt_ prev rc (entered message rc st) = (Resolved sent, st1) ->
    valid_replies_ sent (fun u => <[id := VArray u]> (args st)) vs rs ->
    rs <> [] ->
    (forall k, length vs < k < length vs + length rs ->
               below k (limit prompt) = true) ->
    below (length vs + length rs) (limit prompt) = false ->
    exists st',
      promptOne_ (map reply_window rs ++ ws) prev rc st
      = (Resolved (VArray (vs ++ map reply_value rs)), st')
      /\ values st' = Some (id, vs ++ map reply_value rs)
      /\ List.filter is_send (log st') = List.filter is_send (log st1).
Proof.
  induction rs as [|r rs IH];
    intros prev rc st sent st1 id vs Hv H Hvalid Hne Hlim Hend; [done|].
  destruct Hvalid as [Hr Hrs].
  destruct (turn_accumulating prev rc st sent st1 id vs r Hv H Hr)
    as (st2 & T & Hv2 & Ha2 & Hs2 & H2).
  destruct rs as [|r' rs].
  - simpl in Hend. replace (length vs + 1) with (S (length vs)) in Hend by lia.
    rewrite Hend in T. exists st2. split; [|by split].
    simpl. by rewrite T.
  - rewrite (Hlim (S (length vs))) in T by (simpl; lia).
    destruct (IH message 1 st2 None (entered message 1 st2) id
                (vs ++ [reply_value r]) Hv2 H2) as (st' & Hrun & Hv' & Hs').
    + by rewrite Ha2.
    + done.
    + intros k Hk. apply Hlim. rewrite length_app in Hk. simpl in Hk |- *. lia.
    + rewrite length_app. simpl in Hend |- *.
      by replace (length vs + 1 + S (length rs))
           with (length vs + S (S (length rs))) by lia.
    + exists st'. split; [|split].
      * change (map reply_window (r :: r' :: rs) ++ ws)
          with (reply_window r :: (map reply_window (r' :: rs) ++ ws)).
        erewrite promptOne_next; [|exact T]. rewrite Hrun.
        by rewrite <- app_assoc.
      * rewrite Hv'. by rewrite <- app_assoc.
      * rewrite Hs', <- Hs2, log_entered, List.filter_app. simpl.
        by rewrite app_nil_r.
Qed.

End Limit.

Section LimitOfCollect.

Variable toLowerCase : string -> string.
Variable transport : list event -> text -> send_answer.
Variable fuel : nat.
Variable handler : CommandHandler.
Variable command : Command.
Variable this : Argument.

Local Abbreviation prompt_ := (merged_prompt handler command this).
Local Abbreviation collect_ :=
  (collect toLowerCase transport fuel handler command this).

(** X15. In infinite mode, once the first prompt text is sent (or
    suppressed), replies that are each cast with success are accumulated
    in the order of arrival, and nothing more is sent:
    - while their number is below [limit] (always, when [limit] is
      [Infinity]), the session goes on with the call [promptOne(message, 1)]
      and [args] holds their values under [this.id];
    - when their number reaches [limit] (or is 1, for a [limit] below 1),
      [collect] returns the array of their values, and what the script
      holds after them is not awaited. *)
Theorem valid_replies_accumulate ws message commandInput st sent st1 rs :
  let id := arg_id this in
  let seen := fun vs => <[id := VArray vs]> (snapshot st) in
  let rc := 1 + Number_Boolean_commandInput commandInput in
  is_infinite handler command this message commandInput st = true ->
  send_prompt transport handler message commandInput prompt_ true message rc
    (entered message rc (init_values id true st)) = (Resolved sent, st1) ->
  valid_replies toLowerCase fuel handler this message prompt_ sent seen [] rs ->
  rs <> [] ->
  ((forall k, 1 <= k <= length rs -> below k (limit prompt_) = true) ->
   exists st',
     session_reaches toLowerCase transport fuel handler command this
       (map reply_window rs) message commandInput st message 1 st'
     /\ snapshot st' = seen (map reply_value rs)
     /\ List.filter is_send (log st') = List.filter is_send (log st1))
  /\ (forall n,
        limit prompt_ = Finite n ->
        length rs = Nat.max 1 n ->
        exists st',
          collect_ (map reply_window rs ++ ws) message commandInput st
          = (Resolved (VArray (map reply_value rs)), st')
          /\ snapshot st' = seen (map reply_value rs)
          /\ List.filter is_send (log st') = List.filter is_send (log st1)).
Proof.
  intros id seen rc Hinf H Hvalid Hne. split.
  - intros Hlim.
    destruct (valid_replies_reach toLowerCase transport fuel handler this message
                commandInput prompt_ rs message rc (init_values id true st)
                sent st1 id [] eq_refl H Hvalid Hne)
      as (st' & Hreach & Hv & Ha & Hs).
    { intros k Hk. apply Hlim. simpl in Hk. lia. }
    exists st'. split; [|split].
    + unfold session_reaches. rewrite Hinf. exact Hreach.
    + unfold snapshot at 1. by rewrite Hv, Ha.
    + exact Hs.
  - intros n Hn Hlen.
    destruct (valid_replies_return toLowerCase transport fuel handler this message
                commandInput prompt_ ws rs message rc (init_values id true st)
                sent st1 id [] eq_refl H Hvalid Hne) as (st' & Hrun & Hv & Hs).
    { intros k Hk. rewrite Hn. simpl in Hk |- *. apply Nat.ltb_lt. lia. }
    { rewrite Hn. simpl. apply Nat.ltb_ge. lia. }
    exists (finished handler message st'). split; [|split].
    2:{ pose proof (promptOne_store toLowerCase transport fuel handler this
                      message commandInput prompt_ true
                      (map reply_window rs ++ ws) message rc
                      (init_values id true st)) as (Ha & _).
        rewrite Hrun in Ha. simpl in Ha.
        unfold snapshot at 1, finished. simpl.
        replace (values (if h_commandUtil handler
                         then emit SetShouldEdit st' else st'))
          with (values st') by (by destruct (h_commandUtil handler)).
        replace (args (if h_commandUtil handler
                       then emit SetShouldEdit st' else st'))
          with (args st') by (by destruct (h_commandUtil handler)).
        by rewrite Hv, Ha. }
    2:{ rewrite <- Hs. unfold finished.
        destruct (h_commandUtil handler); simpl; [|done].
        rewrite List.filter_app. simpl. by rewrite app_nil_r. }
    unfold collect. rewrite Hinf. fold id rc. by rewrite Hrun.
Qed.

End LimitOfCollect.

(* ------------------------------------------------------------------ *)
(** ** Failures and the registry *)

Section Failures.

Variable toLowerCase : string -> string.
Variable transport : list event -> text -> send_answer.
Variable fuel : nat.
Variable handler : CommandHandler.
Variable command : Command.
Variable this : Argument.

Local Abbreviation prompt_ := (merged_prompt handler command this).
Local Abbreviation collect_ :=
  (collect toLowerCase transport fuel handler command this).
Local Abbreviation infinite_ m ci st := (is_infinite handler command this m ci st).

Lemma hasPrompt_registered message st st' :
  prompts st' = {[ prompt_key message ]} ∪ prompts st -> hasPrompt message st'.
Proof.
  intros Hp. unfold hasPrompt. rewrite Hp. apply elem_of_union. left.
  by apply elem_of_singleton.
Qed.

(** X16. A failure that is an instance of [Error], raised on any turn of a
    session by the transport ([send] of the prompt or cancel text,
    [awaitMessages]) or by [cast], leaves the prompt in the registry:
    [collect] throws the failure without removing the prompt it has
    added. *)
Theorem error_leaves_prompt_registered
    pre w ws message commandInput st prev rc st0 e :
  session_reaches toLowerCase transport fuel handler command this pre message
    commandInput st prev rc st0 ->
  raised_in_turn toLowerCase transport fuel handler this message commandInput
    prompt_ (infinite_ message commandInput st) w prev rc st0 e ->
  instanceof_Error e = true ->
  exists st',
    collect_ (pre ++ w :: ws) message commandInput st = (Thrown e, st')
    /\ hasPrompt message st'.
Proof.
  intros Hreach Hraised He.
  rewrite (collect_from _ _ _ _ _ _ pre (w :: ws) _ _ _ _ _ _ Hreach).
  assert (exists st',
            turn toLowerCase transport fuel handler this message commandInput
              prompt_ (infinite_ message commandInput st) (Some w) prev rc st0
            = (Settles (Thrown e), st')
            /\ hasPrompt message st') as (st' & T & Hreg).
  { destruct Hraised as [st1 H|sent st1 H Hw
                        |sent st1 input cancelText st2 H Hw Hc Ht Htr Hf
                        |sent st1 input H Hw Hc Hs Hcast];
      destruct (send_prompt_values _ _ _ _ _ _ _ _ _ _ _ H) as (_ & _ & Hp).
    - eexists. split; [by apply turn_prompt_fails|].
      by apply (hasPrompt_registered _ st0).
    - eexists. split.
      + rewrite (turn_await_fails _ _ _ _ _ _ _ _ _ _ _ _ _ _ _ _ H Hw).
        by rewrite catch_block_error.
      + by apply (hasPrompt_registered _ st0).
    - eexists. split.
      + rewrite (turn_cancel_send_fails _ _ _ _ _ _ _ _ _ _ _ _ _ _ _ _ _ _ _
                   H Hw Hc Ht Htr Hf).
        by rewrite catch_block_error.
      + destruct (getText_calls message (infinite_ message commandInput st)
                    (cancel prompt_) rc input "" (awaiting prompt_ st1))
          as (evs & _ & _ & Hpg).
        rewrite Ht in Hpg. simpl in Hpg.
        apply (hasPrompt_registered _ st0). simpl. by rewrite Hpg.
    - eexists. split.
      + rewrite (turn_cast _ _ _ _ _ _ _ _ _ _ _ _ _ _ _ _ H Hw Hc Hs), Hcast.
        by rewrite catch_block_error.
      + by apply (hasPrompt_registered _ st0). }
  exists st'. split; [|exact Hreg].
  by rewrite (promptOne_settles _ _ _ _ _ _ _ _ _ _ _ _ _ _ _ _ T).
Qed.

(** X17. A failure of [cast] that is neither an instance of [Error] nor
    the cancellation (a casting function that throws, or rejects with, any
    other value) is taken, on any turn of a session, for the time running
    out: [collect] resolves the time-out text with the previous message,
    sends it if it is not empty, removes the prompt from the registry and
    throws the cancellation; the value thrown by [cast] is lost. *)
Theorem cast_rejection_cancels
    pre w ws message commandInput st prev rc st0 sent st1 input e
    timeoutText st2 :
  session_reaches toLowerCase transport fuel handler command this pre message
    commandInput st prev rc st0 ->
  send_prompt transport handler message commandInput prompt_
    (infinite_ message commandInput st) prev rc (entered message rc st0)
  = (Resolved sent, st1) ->
  awaitMessages (reply_filter message sent) w = Resolved input ->
  same_word toLowerCase (msg_content input) (cancelWord prompt_) = false ->
  infinite_ message commandInput st
  && same_word toLowerCase (msg_content input) (stopWord prompt_) = false ->
  cast toLowerCase fuel handler this (msg_content input) input (snapshot st1)
  = Thrown e ->
  instanceof_Error e = false ->
  is_COMMAND_CANCELLED e = false ->
  getText message (infinite_ message commandInput st) (timeout prompt_) rc
    prev "" (casting input (awaiting prompt_ st1)) = (timeoutText, st2) ->
  (truthy_text timeoutText = true ->
   exists m, transport (log st2) timeoutText = Sent m) ->
  exists st',
    collect_ (pre ++ w :: ws) message commandInput st = (Thrown ThCancelled, st')
    /\ ~ hasPrompt message st'
    /\ log st' = log st2 ++ (if truthy_text timeoutText
                             then [CallSend ViaChannel timeoutText] else []).
Proof.
  intros Hreach H Hw Hc Hs Hcast He Hcan Ht Hsend.
  pose proof (turn_cast toLowerCase transport fuel handler this message
                commandInput prompt_ _ w prev rc st0 sent st1 input
                H Hw Hc Hs) as T.
  rewrite Hcast in T.
  rewrite (catch_block_other transport message prompt_ _ e prev rc _
             timeoutText st2 He Hcan Ht Hsend) in T.
  eexists. split; [|split].
  - rewrite (collect_from _ _ _ _ _ _ pre (w :: ws) _ _ _ _ _ _ Hreach).
    by rewrite (promptOne_settles _ _ _ _ _ _ _ _ _ _ _ _ _ _ _ _ T).
  - unfold hasPrompt, removePrompt. simpl. intros Hin.
    apply elem_of_difference in Hin as [_ Hn]. apply Hn. by apply elem_of_singleton.
  - simpl. destruct (truthy_text timeoutText); simpl; by rewrite ?app_nil_r.
Qed.

(** X18. The prompt text is sent outside the [try] statement: a failure of
    that [send], whatever it is, is thrown by [collect] as it is, on any
    turn of a session. No time-out text is sent, nothing is awaited in
    that turn, and the prompt stays in the registry. *)
Theorem prompt_send_failure
    pre w ws message commandInput st prev rc st0 e st1 :
  session_reaches toLowerCase transport fuel handler command this pre message
    commandInput st prev rc st0 ->
  send_prompt transport handler message commandInput prompt_
    (infinite_ message commandInput st) prev rc (entered message rc st0)
  = (Thrown e, st1) ->
  collect_ (pre ++ w :: ws) message commandInput st = (Thrown e, st1)
  /\ hasPrompt message st1
  /\ exists t evs,
       log st1 = log st0 ++ Turn rc :: evs ++ [CallSend (util_or_channel handler) t]
       /\ Forall (fun ev => is_send ev = false /\ is_await ev = false) evs.
Proof.
  intros Hreach H.
  pose proof (turn_prompt_fails toLowerCase transport fuel handler this message
                commandInput prompt_ (infinite_ message commandInput st)
                (Some w) prev rc st0 e st1 H) as T.
  destruct (send_prompt_values _ _ _ _ _ _ _ _ _ _ _ H) as (_ & _ & Hp).
  split; [|split].
  - rewrite (collect_from _ _ _ _ _ _ pre (w :: ws) _ _ _ _ _ _ Hreach).
    by rewrite (promptOne_settles _ _ _ _ _ _ _ _ _ _ _ _ _ _ _ _ T).
  - by apply (hasPrompt_registered _ st0).
  - revert H. unfold send_prompt.
    destruct (shouldSend _ rc (entered message rc st0)); [|done].
    destruct (if rc =? 1 then start prompt_ else retry prompt_) as [t|f];
      cbn [getText].
    + destruct (truthy_text (joined t)); [|done].
      unfold send. destruct (transport _ (joined t)) as [m|e'];
        intros [= <- <-]; exists (joined t), []; split; [|done].
      simpl. by rewrite <- app_assoc.
    + match goal with
      | |- context [truthy_text ?x] => set (t := x); destruct (truthy_text t)
      end; [|done].
      unfold send. destruct (transport _ t) as [m|e']; intros [= <- <-].
      eexists t, [_]. split.
      * simpl. rewrite <- !app_assoc. done.
      * by repeat constructor.
Qed.

End Failures.

(* ------------------------------------------------------------------ *)
(** ** Options that are not read *)

Section Unread.

Variable toLowerCase : string -> string.
Variable trim : string -> string.
Variable transport : list event -> text -> send_answer.
Variable fuel : nat.
Variable handler : CommandHandler.
Variable command : Command.
Variable this : Argument.

Lemma merged_prompt_retries r e :
  merged_prompt handler command (with_prompt_retries r e this)
  = with_retries
      (retries (merged_prompt handler command (with_prompt_retries r e this)))
      (ended (merged_prompt handler command (with_prompt_retries r e this)))
      (merged_prompt handler command this).
Proof.
  unfold merged_prompt, with_prompt_retries, with_retries, assign. simpl.
  by destruct (arg_prompt this).
Qed.

Lemma promptOne_type message commandInput prompt isInfinite r e ws :
  forall prevMessage retryCount st,
    promptOne toLowerCase transport fuel handler (with_prompt_retries r e this)
      message commandInput prompt isInfinite ws prevMessage retryCount st
    = promptOne toLowerCase transport fuel handler this message commandInput
        prompt isInfinite ws prevMessage retryCount st.
Proof.
  assert (forall w prevMessage retryCount st,
            turn toLowerCase transport fuel handler (with_prompt_retries r e this)
              message commandInput prompt isInfinite w prevMessage retryCount st
            = turn toLowerCase transport fuel handler this message commandInput
                prompt isInfinite w prevMessage retryCount st) as Hturn
    by reflexivity.
  induction ws as [|w ws IH]; intros prevMessage retryCount st; simpl;
    rewrite Hturn; [done|].
  destruct (turn _ _ _ _ _ _ _ _ _ (Some w) _ _ _) as [[res|prev rc] st'];
    [done|apply IH].
Qed.

(** X19. Nothing depends on the options [retries] and [ended] of a prompt:
    with other values for them, or without them, [collect] and [process]
    go the same way, to the same outcome and the same calls, whatever the
    word is and whatever the channel delivers. *)
Theorem retries_and_ended_ignored r e ws word message commandInput st :
  collect toLowerCase transport fuel handler command
    (with_prompt_retries r e this) ws message commandInput st
  = collect toLowerCase transport fuel handler command this ws message
      commandInput st
  /\ process toLowerCase trim transport fuel handler command
       (with_prompt_retries r e this) ws word message st
     = process toLowerCase trim transport fuel handler command this ws word
         message st.
Proof.
  assert (forall ci,
            collect toLowerCase transport fuel handler command
              (with_prompt_retries r e this) ws message ci st
            = collect toLowerCase transport fuel handler command this ws
                message ci st) as Hcollect.
  { intros ci. unfold collect.
    assert (is_infinite handler command (with_prompt_retries r e this) message
              ci st
            = is_infinite handler command this message ci st) as ->
      by (unfold is_infinite; by rewrite merged_prompt_retries).
    rewrite merged_prompt_retries, retries_never_read, promptOne_type.
    reflexivity. }
  split; [apply Hcollect|].
  unfold process. rewrite Hcollect.
  assert ((match arg_prompt (with_prompt_retries r e this) with
           | Some p => default false (lit_optional p)
           | None => false
           end)
          = match arg_prompt this with
            | Some p => default false (lit_optional p)
            | None => false
            end) as -> by (simpl; by destruct (arg_prompt this)).
  change (cast toLowerCase fuel handler (with_prompt_retries r e this))
    with (cast toLowerCase fuel handler this).
  change (resolve_default (with_prompt_retries r e this))
    with (resolve_default this).
  destruct (negb (nonempty (trim word)) && _); [done|].
  destruct (cast toLowerCase fuel handler this (trim word) message (snapshot st))
    as [v| | |]; try done.
  destruct (nullish v); [|done]. simpl. by destruct (arg_prompt this).
Qed.

End Unread.

(* ------------------------------------------------------------------ *)
(** ** The further properties at concrete sessions *)

(** [reply_value_returned] at a reply that is cast on a retry turn. *)
Lemma reply_value_returned_witness :
  fst (collect lower reliable 0 plain_handler plain_command (prompted yes_no)
         [wrong; Arrivals [reply "3" "Y"]; wrong] call None idle)
  = Resolved (VString "yes").
Proof.
  assert (session_reaches lower reliable 0 plain_handler plain_command
            (prompted yes_no) [wrong] call None idle (reply "201" "maybe") 2
            (casting (reply "201" "maybe")
               (awaiting default_prompt
                  (emit (CallSend ViaChannel (TextString "What is it?"))
                     (entered call 1 (init_values "choice" false idle))))))
    as Hreach.
  { eapply reaches_next; [reflexivity|apply reaches_here]. }
  destruct (reply_value_returned lower reliable 0 plain_handler plain_command
              (prompted yes_no) [wrong] (Arrivals [reply "3" "Y"]) [wrong]
              call None idle (reply "201" "maybe") 2 _ (Some bot_message) _
              (reply "3" "Y") (VString "yes")
              eq_refl Hreach eq_refl eq_refl eq_refl eq_refl eq_refl)
    as (st' & E & _).
  exact (f_equal fst E).
Defined.

(** [invalid_reply_retried] at a first reply that is no choice. *)
Lemma invalid_reply_retried_witness :
  exists rest,
    log (snd (turn lower reliable 0 plain_handler (prompted yes_no) call None
                (merged_prompt plain_handler plain_command (prompted yes_no))
                false (Some good) (reply "201" "maybe") 2
                (casting (reply "201" "maybe")
                   (awaiting default_prompt
                      (emit (CallSend ViaChannel (TextString "What is it?"))
                         (entered call 1 (init_values "choice" false idle)))))))
    = log (casting (reply "201" "maybe")
             (awaiting default_prompt
                (emit (CallSend ViaChannel (TextString "What is it?"))
                   (entered call 1 (init_values "choice" false idle)))))
      ++ Turn 2 :: CallSend ViaChannel (TextString "Try again.") :: rest.
Proof.
  destruct (invalid_reply_retried lower reliable 0 plain_handler plain_command
              (prompted yes_no) [] wrong call None idle call 1 _
              (Some bot_message) _ (reply "201" "maybe") VNull
              (reaches_here _ _ _ _ _ _ _ _ _ _ _ _)
              eq_refl eq_refl eq_refl eq_refl eq_refl eq_refl) as [_ Hsend].
  exact (Hsend (Some good) (TextString "Try again.") eq_refl eq_refl).
Defined.

(** [process_failed_word] at a word that is no choice. *)
Lemma process_failed_word_witness :
  exists rest,
    log (snd (process lower strip reliable 0 plain_handler plain_command
                (prompted yes_no) [good] " maybe " call idle))
    = log idle ++ Turn 2 :: rest
    /\ head rest = Some (CallSend ViaChannel (TextString "Try again.")).
Proof.
  destruct (process_failed_word lower strip reliable 0 plain_handler
              plain_command (prompted yes_no) [good] " maybe " call idle
              empty_literal VNull eq_refl eq_refl eq_refl eq_refl)
    as [_ (rest & Hl & Hh)].
  exists rest. split; [exact Hl|exact (Hh eq_refl)].
Defined.

(** [process_without_prompt] at a word that is a choice. *)
Lemma process_without_prompt_witness :
  process lower strip reliable 0 plain_handler plain_command
    (this_fields (constructor plain_command answer_options)) [good] " Y "
    call idle
  = (Resolved (VString "yes"), idle).
Proof.
  destruct (process_without_prompt lower strip reliable 0 plain_handler
              plain_command
              (this_fields (constructor plain_command answer_options))
              [good] " Y " call idle eq_refl) as (Hv & _).
  exact (Hv (VString "yes") eq_refl).
Defined.

(** [collect_resolves] at an infinite prompt with [limit] 2. *)
Lemma collect_resolves_witness :
  exists vs,
    VArray [VString "yes"; VString "no"] = VArray vs
    /\ vs <> [] /\ length vs <= 2.
Proof.
  pose proof (eq_refl :
                fst (collect lower reliable 0 plain_handler plain_command
                       (endless yes_no (Finite 2))
                       [good; Arrivals [reply "2" "NO"]; good] call None idle)
                = Resolved (VArray [VString "yes"; VString "no"])) as Hfst.
  destruct (collect lower reliable 0 plain_handler plain_command
              (endless yes_no (Finite 2))
              [good; Arrivals [reply "2" "NO"]; good] call None idle)
    as [r st'] eqn:E.
  simpl in Hfst. subst r.
  destruct (collect_resolves lower reliable 0 plain_handler plain_command
              (endless yes_no (Finite 2))
              [good; Arrivals [reply "2" "NO"]; good] call None idle
              (VArray [VString "yes"; VString "no"]) st' E)
    as (_ & Hinf & _).
  destruct (Hinf eq_refl) as (vs & Hx & Hne & _ & Hlim & _).
  exists vs. split; [exact Hx|]. split; [exact Hne|exact (Hlim 2 eq_refl)].
Defined.

(** [prompt_overrides_default] at a word that is no choice, followed by a
    reply that is one. *)
Lemma prompt_overrides_default_witness :
  List.filter is_default_call
    (log (snd (process lower strip reliable 0 plain_handler plain_command
                 (prompted yes_no) [good] "maybe" call idle)))
  = [].
Proof.
  exact (prompt_overrides_default lower strip reliable 0 plain_handler
           plain_command (prompted yes_no) [good] "maybe" call idle
           empty_literal eq_refl eq_refl).
Defined.

(** [constructed_word_argument] at the options [{ id: 'word' }], with a
    resolver that has the type ['string']. *)
Lemma constructed_word_argument_witness :
  fst (process lower strip reliable 0 string_handler plain_command
         (this_fields (constructor plain_command (only_id "word"))) []
         "  hello " call idle)
  = Resolved (VString "hello").
Proof.
  assert (forall f, h_resolver string_handler "string" = Some f ->
                    forall w m a, f w m a = string_type w m a) as Hr.
  { intros f Hf. simpl in Hf. injection Hf as <-. reflexivity. }
  destruct (constructed_word_argument lower strip reliable 0 string_handler
              plain_command (only_id "word") [] "  hello " call idle
              eq_refl eq_refl eq_refl Hr) as [E _].
  exact E.
Defined.

(** [constructed_default] at a word that is no choice. *)
Lemma constructed_default_witness :
  process lower strip reliable 0 plain_handler plain_command
    (this_fields (constructor plain_command answer_options)) [] "maybe"
    call idle
  = (Resolved (VString "none"), emit (CallDefault call ∅) idle).
Proof.
  exact (constructed_default lower strip reliable 0 plain_handler plain_command
           answer_options [] "maybe" call idle eq_refl eq_refl).
Defined.

(** [valid_replies_accumulate] at two replies and [limit] 2. *)
Lemma valid_replies_accumulate_witness :
  fst (collect lower reliable 0 plain_handler plain_command
         (endless yes_no (Finite 2))
         [Arrivals [reply "1" "yes"]; Arrivals [reply "2" "NO"]; good]
         call None idle)
  = Resolved (VArray [VString "yes"; VString "no"]).
Proof.
  destruct (valid_replies_accumulate lower reliable 0 plain_handler
              plain_command (endless yes_no (Finite 2)) [good] call None idle
              (Some bot_message)
              (emit (CallSend ViaChannel (TextString "What is it?"))
                 (entered call 1 (init_values "choices" true idle)))
              [(Arrivals [reply "1" "yes"], reply "1" "yes", VString "yes");
               (Arrivals [reply "2" "NO"], reply "2" "NO", VString "no")]
              eq_refl eq_refl
              (conj (conj eq_refl (conj eq_refl (conj eq_refl (conj eq_refl eq_refl))))
                 (conj (conj eq_refl (conj eq_refl (conj eq_refl (conj eq_refl eq_refl))))
                    I))
              ltac:(discriminate)) as [_ Hret].
  destruct (Hret 2 eq_refl eq_refl) as (st' & E & _).
  exact (f_equal fst E).
Defined.

(** [error_leaves_prompt_registered] at a casting function that throws an
    [Error]. *)
Lemma error_leaves_prompt_registered_witness :
  exists st',
    collect lower reliable 0 plain_handler plain_command (prompted faulty)
      [Arrivals [reply "1" "anything"]; good] call None idle
    = (Thrown (ThError "lookup failed"), st')
    /\ hasPrompt call st'.
Proof.
  assert (raised_in_turn lower reliable 0 plain_handler (prompted faulty) call
            None (merged_prompt plain_handler plain_command (prompted faulty))
            false (Arrivals [reply "1" "anything"]) call 1
            (init_values "choice" false idle) (ThError "lookup failed"))
    as Hraised.
  { eapply raised_by_cast; reflexivity. }
  exact (error_leaves_prompt_registered lower reliable 0 plain_handler
           plain_command (prompted faulty) [] (Arrivals [reply "1" "anything"])
           [good] call None idle call 1 _ (ThError "lookup failed")
           (reaches_here _ _ _ _ _ _ _ _ _ _ _ _) Hraised eq_refl).
Defined.

(** [cast_rejection_cancels] at a casting function whose promise rejects
    with a string. *)
Lemma cast_rejection_cancels_witness :
  exists st',
    collect lower reliable 0 plain_handler plain_command (prompted busy)
      [Arrivals [reply "1" "anything"]; good] call None idle
    = (Thrown ThCancelled, st')
    /\ sent_texts (log st')
       = [TextString "What is it?"; TextString "Time ran out."].
Proof.
  destruct (cast_rejection_cancels lower reliable 0 plain_handler plain_command
              (prompted busy) [] (Arrivals [reply "1" "anything"]) [good]
              call None idle call 1 _ (Some bot_message) _
              (reply "1" "anything") (ThValue (VString "busy"))
              (TextString "Time ran out.") _
              (reaches_here _ _ _ _ _ _ _ _ _ _ _ _)
              eq_refl eq_refl eq_refl eq_refl eq_refl eq_refl eq_refl eq_refl
              (fun _ => ex_intro _ bot_message eq_refl))
    as (st' & E & _ & Hl).
  exists st'. split; [exact E|]. rewrite Hl. reflexivity.
Defined.

(** [prompt_send_failure] at a transport that refuses every [send] with a
    value that is no [Error]. *)
Lemma prompt_send_failure_witness :
  fst (collect lower (fun _ _ => SendFails (ThValue (VString "offline"))) 0
         plain_handler plain_command (prompted yes_no) [good] call None idle)
  = Thrown (ThValue (VString "offline")).
Proof.
  destruct (prompt_send_failure lower
              (fun _ _ => SendFails (ThValue (VString "offline"))) 0
              plain_handler plain_command (prompted yes_no) [] good [] call
              None idle call 1 _ (ThValue (VString "offline")) _
              (reaches_here _ _ _ _ _ _ _ _ _ _ _ _) eq_refl) as [E _].
  exact (f_equal fst E).
Defined.

(* ------------------------------------------------------------------ *)
(** ** Where a failure of a turn comes from, and when [values] grows *)

Section TurnSources.

Variable toLowerCase : string -> string.
Variable transport : list event -> text -> send_answer.
Variable fuel : nat.
Variable handler : CommandHandler.
Variable this : Argument.
Variable message : Message.
Variable commandInput : option string.
Variable prompt : ArgumentPromptOptions.
Variable isInfinite : bool.

Local Abbreviation cast_ := (cast toLowerCase fuel handler this).
Local Abbreviation send_prompt_ :=
  (send_prompt transport handler message commandInput prompt isInfinite).
Local Abbreviation try_block_ :=
  (try_block toLowerCase transport fuel handler this message prompt isInfinite).
Local Abbreviation catch_block_ := (catch_block transport message prompt isInfinite).
Local Abbreviation turn_ :=
  (turn toLowerCase transport fuel handler this message commandInput prompt
     isInfinite).
Local Abbreviation raised_in_turn_ :=
  (raised_in_turn toLowerCase transport fuel handler this message commandInput
     prompt isInfinite).
Local Abbreviation raised_in_catch_ :=
  (raised_in_catch toLowerCase transport fuel handler this message commandInput
     prompt isInfinite).

(** What the [try] block hands to [catch]: the cancellation, or a failure
    of [awaitMessages], of the [send] of the cancel text, or of [cast];
    [values] is then as it was. *)
Lemma try_block_caught w prevMessage retryCount st sent st1 err st2 :
  send_prompt_ prevMessage retryCount (entered message retryCount st)
  = (Resolved sent, st1) ->
  try_block_ w sent retryCount st1 = (Caught err, st2) ->
  (err = ThCancelled \/ raised_in_turn_ w prevMessage retryCount st err)
  /\ values st2 = values st1.
Proof.
  intros H. unfold try_block.
  destruct (awaitMessages (reply_filter message sent) w) as [input|e| |] eqn:Hw;
    try done.
  2:{ intros [= <- <-]. split; [|done]. right.
      by apply (raised_by_awaitMessages _ _ _ _ _ _ _ _ _ _ _ _ _ _ sent st1). }
  destruct (same_word toLowerCase (msg_content input) (cancelWord prompt)) eqn:Hc.
  { destruct (getText_calls message isInfinite (cancel prompt) retryCount input ""
                (awaiting prompt st1)) as (evs & (_ & Hvg & _) & _).
    destruct (getText message isInfinite (cancel prompt) retryCount input ""
                (awaiting prompt st1)) as [cancelText st3] eqn:Ht.
    simpl in Hvg.
    destruct (truthy_text cancelText) eqn:Htr.
    - unfold send. destruct (transport (log st3) cancelText) as [m|e] eqn:Hf;
        intros [= <- <-]; (split; [|exact Hvg]); [by left|].
      right.
      by apply (raised_by_cancel_send _ _ _ _ _ _ _ _ _ _ _ _ _ _ sent st1 input
                  cancelText st3).
    - intros [= <- <-]. split; [by left|exact Hvg]. }
  destruct (isInfinite && same_word toLowerCase (msg_content input) (stopWord prompt))
    eqn:Hs.
  { by destruct (values_length (awaiting prompt st1) =? 0). }
  change (snapshot (casting input (awaiting prompt st1))) with (snapshot st1).
  destruct (cast_ (msg_content input) input (snapshot st1)) as [v|e| |] eqn:Hcast;
    try done.
  - destruct (nullish v); [done|]. destruct isInfinite; [|done].
    by destruct (below _ _).
  - intros [= <- <-]. split; [|done]. right.
    by apply (raised_by_cast _ _ _ _ _ _ _ _ _ _ _ _ _ _ sent st1 input).
Qed.

(** The [try] block is left unsettled only by a [cast] that does not
    return; [values] is then as it was. *)
Lemma try_block_unsettled w sent retryCount st r st' :
  try_block_ w sent retryCount st = (Unsettled r, st') ->
  r = Looping /\ values st' = values st.
Proof.
  unfold try_block.
  destruct (awaitMessages_settles (reply_filter message sent) w)
    as [[input ->]|[e ->]]; [|done].
  destruct (same_word toLowerCase (msg_content input) (cancelWord prompt)).
  { destruct (getText message isInfinite (cancel prompt) retryCount input ""
                (awaiting prompt st)) as [cancelText st1].
    destruct (truthy_text cancelText); [|done].
    by destruct (send transport ViaChannel cancelText st1) as [[m|e| |] st2]. }
  destruct (isInfinite && same_word toLowerCase (msg_content input) (stopWord prompt)).
  { by destruct (values_length (awaiting prompt st) =? 0). }
  destruct (cast_cases toLowerCase fuel handler this (msg_content input) input
              (snapshot (casting input (awaiting prompt st))))
    as [(v & -> & _)|[[e ->]| ->]]; try done.
  - destruct (nullish v); [done|]. destruct isInfinite; [|done].
    by destruct (below _ _).
  - by intros [= <- <-].
Qed.

(** A call of [promptOne] that ends without a value leaves [values] as it
    was. *)
Lemma turn_failed_values w prevMessage retryCount st r st' :
  turn_ w prevMessage retryCount st = (Settles r, st') ->
  (forall x, r <> Resolved x) ->
  values st' = values st.
Proof.
  unfold turn.
  destruct (send_prompt_ prevMessage retryCount (entered message retryCount st))
    as [r0 st1] eqn:H.
  destruct (send_prompt_values _ _ _ _ _ _ _ _ _ _ _ H) as (Hv1 & _ & _).
  destruct r0 as [sent|e| |]; try (by intros [= <- <-]).
  unfold try_catch. destruct w as [w|]; [|by intros [= <- <-]].
  destruct (try_block_ w sent retryCount st1) as [[v|prev rc|r1|err] st2] eqn:Et.
  - intros [= <- <-] Hne. by destruct (Hne v).
  - done.
  - apply try_block_unsettled in Et as [_ Hv2]. intros [= <- <-] _. congruence.
  - destruct (try_block_caught _ _ _ _ _ _ _ _ H Et) as [_ Hv2].
    destruct (catch_block_calls transport message prompt isInfinite err
                prevMessage retryCount st2) as (evs & _ & Hv3 & _).
    destruct (catch_block_ err prevMessage retryCount st2) as [r2 st3].
    simpl in Hv3. intros [= <- <-] _. congruence.
Qed.

(** A call of [promptOne] throws the cancellation, or a failure raised in
    it: by the [send] of the prompt, cancel or time-out text, by
    [awaitMessages], or by [cast]. *)
Lemma turn_thrown w prevMessage retryCount st e st' :
  turn_ (Some w) prevMessage retryCount st = (Settles (Thrown e), st') ->
  e = ThCancelled
  \/ raised_in_turn_ w prevMessage retryCount st e
  \/ raised_in_catch_ w prevMessage retryCount st e.
Proof.
  unfold turn.
  destruct (send_prompt_ prevMessage retryCount (entered message retryCount st))
    as [r0 st1] eqn:H.
  destruct r0 as [sent|e0| |]; try done.
  2:{ intros [= <- <-]. right; left.
      by apply (raised_by_prompt_send _ _ _ _ _ _ _ _ _ _ _ _ _ _ st1). }
  unfold try_catch.
  destruct (try_block_ w sent retryCount st1) as [[v|prev rc|r1|err] st2] eqn:Et;
    try done.
  { apply try_block_unsettled in Et as [-> _]. done. }
  destruct (try_block_caught _ _ _ _ _ _ _ _ H Et) as [Hsrc _].
  unfold catch_block.
  destruct (instanceof_Error err) eqn:He.
  { intros [= <- <-]. destruct Hsrc as [->|Hsrc]; [done|by right; left]. }
  destruct (is_COMMAND_CANCELLED err) eqn:Hcan.
  { intros [= <- <-]. left. by destruct err. }
  destruct (getText message isInfinite (timeout prompt) retryCount prevMessage ""
              st2) as [timeoutText st3] eqn:Ht.
  destruct (truthy_text timeoutText) eqn:Htr.
  - unfold send. destruct (transport (log st3) timeoutText) as [m|e1] eqn:Hf;
      intros [= <- <-]; [by left|].
    right; right.
    by apply (raised_by_timeout_send _ _ _ _ _ _ _ _ _ _ _ _ _ _ sent st1 err st2
                timeoutText st3).
  - intros [= <- <-]. by left.
Qed.

(** A failure that is an [Error] and is raised by the [send] of the
    time-out text is thrown by [promptOne] as it is. *)
Lemma turn_timeout_send_fails w prevMessage retryCount st e :
  raised_in_catch_ w prevMessage retryCount st e ->
  exists st', turn_ (Some w) prevMessage retryCount st = (Settles (Thrown e), st').
Proof.
  intros [sent st1 err st2 timeoutText st3 H Et He Hcan Ht Htr Hf].
  unfold turn, try_catch. rewrite H, Et. unfold catch_block.
  rewrite He, Hcan, Ht, Htr. unfold send. rewrite Hf. by eexists.
Qed.

(** [values] changes in a call of [promptOne] only by the push of the
    value that [cast] makes of a reply, in infinite mode. *)
Lemma turn_pushes w prevMessage retryCount st :
  (values (snd (turn_ w prevMessage retryCount st)) = values st
   /\ args (snd (turn_ w prevMessage retryCount st)) = args st)
  \/ exists w' sent st1 input v,
       w = Some w'
       /\ send_prompt_ prevMessage retryCount (entered message retryCount st)
          = (Resolved sent, st1)
       /\ awaitMessages (reply_filter message sent) w' = Resolved input
       /\ same_word toLowerCase (msg_content input) (cancelWord prompt) = false
       /\ isInfinite = true
       /\ same_word toLowerCase (msg_content input) (stopWord prompt) = false
       /\ cast_ (msg_content input) input (snapshot st1) = Resolved v
       /\ nullish v = false.
Proof.
  destruct (turn_store toLowerCase transport fuel handler this message
              commandInput prompt isInfinite w prevMessage retryCount st)
    as (Ha & _ & _).
  destruct (turn_ w prevMessage retryCount st) as [te st'] eqn:T.
  simpl in Ha |- *.
  destruct w as [w'|].
  2:{ left. split; [|done].
      destruct (turn_none_result toLowerCase transport fuel handler this message
                  commandInput prompt isInfinite prevMessage retryCount st)
        as (r & st1 & T' & Hne).
      rewrite T in T'. injection T' as -> <-.
      by apply (turn_failed_values _ _ _ _ _ _ T). }
  pose proof (turn_results _ _ _ _ _ _ _ _ _ _ _ _ _ _ _ T) as Hr.
  destruct te as [[x|e| |]|prev rc]; simpl in Hr.
  - destruct Hr as (sent & st1 & input & H & Hw & Hc & Hcases).
    destruct (send_prompt_values _ _ _ _ _ _ _ _ _ _ _ H) as (Hv1 & _ & _).
    destruct Hcases as [(_ & _ & _ & _ & ->)
                       |(Hs & v & Hcast & Hn & [(_ & _ & ->)|(Hinf & _)])].
    + left. by split.
    + left. by split.
    + right. exists w', sent, st1, input, v. rewrite Hinf in Hs. simpl in Hs.
      by repeat split.
  - left. split; [|done]. by apply (turn_failed_values _ _ _ _ _ _ T).
  - left. split; [|done]. by apply (turn_failed_values _ _ _ _ _ _ T).
  - done.
  - destruct Hr as (sent & st1 & input & H & Hw & Hc & Hcases).
    destruct (send_prompt_values _ _ _ _ _ _ _ _ _ _ _ H) as (Hv1 & _ & _).
    destruct Hcases as [(_ & _ & _ & _ & _ & ->)
                       |[(_ & _ & _ & _ & ->)
                        |(_ & _ & Hinf & Hs & v & Hcast & Hn & _)]].
    + left. by split.
    + left. by split.
    + right. exists w', sent, st1, input, v. by repeat split.
Qed.

End TurnSources.

(* ------------------------------------------------------------------ *)
(** ** Failures that are thrown again, and the array that is shared *)

Section Rethrown.

Variable toLowerCase : string -> string.
Variable transport : list event -> text -> send_answer.
Variable fuel : nat.
Variable handler : CommandHandler.
Variable command : Command.
Variable this : Argument.

Local Abbreviation prompt_ := (merged_prompt handler command this).
Local Abbreviation collect_ :=
  (collect toLowerCase transport fuel handler command this).
Local Abbreviation infinite_ m ci st := (is_infinite handler command this m ci st).
Local Abbreviation session_reaches_ :=
  (session_reaches toLowerCase transport fuel handler command this).

(** C8 (amended). A failure that is an instance of [Error] and is raised
    on any turn of a session is thrown by [collect] as it is: it becomes
    neither a cancellation nor a [null] cast. This holds wherever in the
    turn the failure is raised: by the [send] of the prompt text, by
    [awaitMessages], by the [send] of the cancel text, by [cast], or, in
    the [catch] block, by the [send] of the time-out text. There is no
    other place: whatever a call of [promptOne] throws is the cancellation
    or a failure raised in one of these. *)
Theorem error_is_rethrown pre w ws message commandInput st prev rc st0 :
  session_reaches_ pre message commandInput st prev rc st0 ->
  (forall e,
     raised_in_turn toLowerCase transport fuel handler this message
       commandInput prompt_ (infinite_ message commandInput st) w prev rc st0 e
     \/ raised_in_catch toLowerCase transport fuel handler this message
          commandInput prompt_ (infinite_ message commandInput st) w prev rc
          st0 e ->
     instanceof_Error e = true ->
     exists st',
       collect_ (pre ++ w :: ws) message commandInput st = (Thrown e, st'))
  /\ (forall e st',
        turn toLowerCase transport fuel handler this message commandInput
          prompt_ (infinite_ message commandInput st) (Some w) prev rc st0
        = (Settles (Thrown e), st') ->
        e = ThCancelled
        \/ raised_in_turn toLowerCase transport fuel handler this message
             commandInput prompt_ (infinite_ message commandInput st) w prev rc
             st0 e
        \/ raised_in_catch toLowerCase transport fuel handler this message
             commandInput prompt_ (infinite_ message commandInput st) w prev
             rc st0 e).
Proof.
  intros Hreach. split.
  - intros e Hraised He.
    rewrite (collect_from _ _ _ _ _ _ pre (w :: ws) _ _ _ _ _ _ Hreach).
    assert (exists st',
              turn toLowerCase transport fuel handler this message commandInput
                prompt_ (infinite_ message commandInput st) (Some w) prev rc st0
              = (Settles (Thrown e), st')) as [st' T].
    { destruct Hraised as [Hraised|Hraised];
        [|by apply turn_timeout_send_fails].
      destruct Hraised as [st1 H|sent st1 H Hw
                          |sent st1 input cancelText st2 H Hw Hc Ht Htr Hf
                          |sent st1 input H Hw Hc Hs Hcast].
      - eexists. by apply turn_prompt_fails.
      - eexists. rewrite (turn_await_fails _ _ _ _ _ _ _ _ _ _ _ _ _ _ _ _ H Hw).
        by rewrite catch_block_error.
      - eexists.
        rewrite (turn_cancel_send_fails _ _ _ _ _ _ _ _ _ _ _ _ _ _ _ _ _ _ _
                   H Hw Hc Ht Htr Hf).
        by rewrite catch_block_error.
      - eexists.
        rewrite (turn_cast _ _ _ _ _ _ _ _ _ _ _ _ _ _ _ _ H Hw Hc Hs), Hcast.
        by rewrite catch_block_error. }
    exists st'. by rewrite (promptOne_settles _ _ _ _ _ _ _ _ _ _ _ _ _ _ _ _ T).
  - intros e st' T. by apply turn_thrown in T.
Qed.

(** C10. In infinite mode [collect] makes [values], still empty, the
    property [this.id] of [args] before [promptOne] is first called, and
    [values] is the array the values are pushed to, so that [args] shows
    what is accumulated:
    - in every call of [promptOne] the session comes to, the user
      functions called (prompt texts, the casting function) are given
      [args] with, under [this.id], the values accumulated before that
      call; none in the first call, which awaits the first reply;
    - a call in which the reply is cast with success leaves [args] with
      that value added at the end, and any other call leaves [args] as it
      was;
    - so, after replies that are each cast with success, the user
      functions of the next call are given [args] with the values of
      these replies, in the order of arrival;
    - and however the session ends, [args] holds under [this.id] the
      array accumulated: when a call throws (the cancellation, on the
      cancel word or on time-out, or a failure), [collect] throws the
      same and [args] holds the values accumulated before that call. *)
Theorem collect_shares_values message commandInput st :
  let id := arg_id this in
  let seen := fun vs => <[id := VArray vs]> (snapshot st) in
  let rc1 := 1 + Number_Boolean_commandInput commandInput in
  is_infinite handler command this message commandInput st = true ->
  (forall pre prev rc st0 w,
     session_reaches_ pre message commandInput st prev rc st0 ->
     exists vs evs,
       values st0 = Some (id, vs)
       /\ snapshot st0 = seen vs
       /\ (pre = [] -> vs = [])
       /\ log (snd (turn toLowerCase transport fuel handler this message
                      commandInput prompt_ true w prev rc st0))
          = log st0 ++ evs
       /\ Forall (sees (seen vs)) evs
       /\ (forall w' sent st1 input v,
             w = Some w' ->
             send_prompt transport handler message commandInput prompt_ true
               prev rc (entered message rc st0) = (Resolved sent, st1) ->
             valid_reply toLowerCase fuel handler this message prompt_ sent w'
               (seen vs) input v ->
             snapshot (snd (turn toLowerCase transport fuel handler this
                              message commandInput prompt_ true w prev rc st0))
             = seen (vs ++ [v]))
       /\ (snapshot (snd (turn toLowerCase transport fuel handler this message
                            commandInput prompt_ true w prev rc st0))
           = seen vs
           \/ exists w' sent st1 input v,
                w = Some w'
                /\ send_prompt transport handler message commandInput prompt_
                     true prev rc (entered message rc st0)
                   = (Resolved sent, st1)
                /\ valid_reply toLowerCase fuel handler this message prompt_
                     sent w' (seen vs) input v))
  /\ (forall sent st1 rs,
        send_prompt transport handler message commandInput prompt_ true
          message rc1 (entered message rc1 (init_values id true st))
        = (Resolved sent, st1) ->
        valid_replies toLowerCase fuel handler this message prompt_ sent seen
          [] rs ->
        rs <> [] ->
        (forall k, 1 <= k <= length rs -> below k (limit prompt_) = true) ->
        exists st0,
          session_reaches_ (map reply_window rs) message commandInput st
            message 1 st0
          /\ values st0 = Some (id, map reply_value rs)
          /\ forall w,
               exists evs,
                 log (snd (turn toLowerCase transport fuel handler this message
                             commandInput prompt_ true w message 1 st0))
                 = log st0 ++ evs
                 /\ Forall (sees (seen (map reply_value rs))) evs)
  /\ (forall ws,
        exists evs vs',
          log (snd (collect_ ws message commandInput st)) = log st ++ evs
          /\ Forall (fun e => forall a, event_args e = Some a ->
                       exists u, a = seen u /\ u `prefix_of` vs') evs
          /\ values (snd (collect_ ws message commandInput st)) = Some (id, vs')
          /\ snapshot (snd (collect_ ws message commandInput st)) = seen vs')
  /\ (forall pre w ws prev rc st0 vs e,
        session_reaches_ pre message commandInput st prev rc st0 ->
        values st0 = Some (id, vs) ->
        fst (turn toLowerCase transport fuel handler this message commandInput
               prompt_ true (Some w) prev rc st0) = Settles (Thrown e) ->
        fst (collect_ (pre ++ w :: ws) message commandInput st) = Thrown e
        /\ snapshot (snd (collect_ (pre ++ w :: ws) message commandInput st))
           = seen vs).
Proof.
  intros id seen rc1 Hinf.
  assert (forall pre prev rc st0,
            session_reaches_ pre message commandInput st prev rc st0 ->
            reaches toLowerCase transport fuel handler this message commandInput
              prompt_ true pre message rc1 (init_values id true st) prev rc st0)
    as Hsession
    by (intros pre prev rc st0 Hreach; unfold session_reaches in Hreach;
        by rewrite Hinf in Hreach).
  assert (forall pre prev rc st0,
            session_reaches_ pre message commandInput st prev rc st0 ->
            exists vs, values st0 = Some (id, vs) /\ args st0 = snapshot st
                       /\ (pre = [] -> vs = [])) as Hstore.
  { intros pre prev rc st0 Hreach. apply Hsession in Hreach.
    destruct (reaches_store _ _ _ _ _ _ _ _ _ _ _ _ _ _ _ _ Hreach id [] eq_refl)
      as (vs & Hv & Ha & _).
    exists vs. split; [done|]. split; [done|].
    intros ->. inversion Hreach; subst. simpl in Hv. congruence. }
  assert (forall st0 vs w prev rc,
            values st0 = Some (id, vs) -> args st0 = snapshot st ->
            exists evs,
              log (snd (turn toLowerCase transport fuel handler this message
                          commandInput prompt_ true w prev rc st0))
              = log st0 ++ evs
              /\ Forall (sees (seen vs)) evs) as Hsees.
  { intros st0 vs w prev rc Hv Ha.
    destruct (turn_frame toLowerCase transport fuel handler this message
                commandInput prompt_ true w prev rc st0)
      as (evs & mid & (_ & _ & Hl & Hf) & Hend).
    exists (Turn rc :: evs). split.
    - destruct Hend as [->|[v ->]]; exact Hl.
    - by rewrite (snapshot_some st0 _ vs Hv), Ha in Hf. }
  split; [|split; [|split]].
  - intros pre prev rc st0 w Hreach.
    destruct (Hstore _ _ _ _ Hreach) as (vs & Hv & Ha & Hnil).
    destruct (Hsees st0 vs w prev rc Hv Ha) as (evs & Hl & Hf).
    exists vs, evs. split; [done|].
    split; [by rewrite (snapshot_some st0 _ vs Hv), Ha|].
    split; [done|]. split; [done|]. split; [done|]. split.
    + intros w' sent st1 input v -> H Hvalid.
      destruct (send_prompt_values _ _ _ _ _ _ _ _ _ _ _ H) as (Hv1 & Ha1 & _).
      rewrite Hv in Hv1.
      assert (valid_reply toLowerCase fuel handler this message prompt_ sent w'
                (<[id := VArray vs]> (args st1)) input v) as Hvalid'
        by (by rewrite Ha1, Ha).
      rewrite (turn_valid_reply toLowerCase transport fuel handler this message
                 commandInput prompt_ w' prev rc st0 sent st1 id vs input v
                 H Hv1 Hvalid').
      simpl. rewrite (snapshot_some _ id (vs ++ [v])) by (by apply values_push).
      simpl. by rewrite Ha1, Ha.
    + destruct (turn_pushes toLowerCase transport fuel handler this message
                  commandInput prompt_ true w prev rc st0)
        as [[Hsame Hargs]
           |(w' & sent & st1 & input & v & -> & H & Hw & Hc & _ & Hs & Hcast & Hn)].
      * left. unfold snapshot at 1. by rewrite Hsame, Hargs, Hv, Ha.
      * right. exists w', sent, st1, input, v. split; [done|]. split; [done|].
        destruct (send_prompt_values _ _ _ _ _ _ _ _ _ _ _ H) as (Hv1 & Ha1 & _).
        rewrite Hv in Hv1.
        rewrite (snapshot_some st1 id vs Hv1), Ha1, Ha in Hcast.
        by repeat split.
  - intros sent st1 rs H Hvalid Hne Hlim.
    destruct (valid_replies_reach toLowerCase transport fuel handler this message
                commandInput prompt_ rs message rc1 (init_values id true st)
                sent st1 id [] eq_refl H Hvalid Hne)
      as (st0 & Hreach & Hv & Ha & _).
    { intros k Hk. apply Hlim. simpl in Hk. lia. }
    exists st0. split; [unfold session_reaches; by rewrite Hinf|].
    split; [exact Hv|]. intros w. by apply Hsees.
  - intros ws. unfold collect. rewrite Hinf.
    destruct (promptOne_accumulates toLowerCase transport fuel handler this
                message commandInput prompt_ true ws message rc1
                (init_values id true st) id [] eq_refl)
      as (evs & vs' & Ha & Hv & _ & Hl & Hf).
    fold id rc1.
    destruct (promptOne _ _ _ _ _ _ _ _ _ ws _ _ _) as [r st'].
    simpl in Ha, Hv, Hl, Hf.
    assert (Forall (fun e => forall a, event_args e = Some a ->
                      exists u, a = seen u /\ u `prefix_of` vs') evs) as Hf'.
    { eapply Forall_impl; [exact Hf|]. intros e He a Hea.
      destruct (He a Hea) as (u & -> & _ & Hu). by exists u. }
    destruct r as [v|e| |]; simpl.
    + destruct (h_commandUtil handler); simpl.
      * exists (evs ++ [SetShouldEdit]), vs'. rewrite Hl, <- app_assoc.
        repeat split; try done.
        -- apply Forall_app. split; [done|]. constructor; [|done]. by intros a [=].
        -- unfold snapshot. simpl. by rewrite Hv, Ha.
      * exists evs, vs'. repeat split; try done.
        unfold snapshot. simpl. by rewrite Hv, Ha.
    + exists evs, vs'. repeat split; try done. unfold snapshot. by rewrite Hv, Ha.
    + exists evs, vs'. repeat split; try done. unfold snapshot. by rewrite Hv, Ha.
    + exists evs, vs'. repeat split; try done. unfold snapshot. by rewrite Hv, Ha.
  - intros pre w ws prev rc st0 vs e Hreach Hv Hfst.
    destruct (Hstore _ _ _ _ Hreach) as (vs0 & Hv0 & Ha & _).
    destruct (turn toLowerCase transport fuel handler this message commandInput
                prompt_ true (Some w) prev rc st0) as [te st'] eqn:T.
    simpl in Hfst. subst te.
    rewrite (collect_from _ _ _ _ _ _ pre (w :: ws) _ _ _ _ _ _ Hreach), Hinf.
    rewrite (promptOne_settles _ _ _ _ _ _ _ _ _ _ _ _ _ _ _ _ T).
    split; [done|]. simpl.
    pose proof (turn_failed_values _ _ _ _ _ _ _ _ _ _ _ _ _ _ _ T) as Hvals.
    destruct (turn_store toLowerCase transport fuel handler this message
                commandInput prompt_ true (Some w) prev rc st0) as (Hargs & _).
    rewrite T in Hargs. simpl in Hargs.
    unfold snapshot at 1. rewrite Hvals by done. by rewrite Hv, Hargs, Ha.
Qed.

End Rethrown.

(** [error_is_rethrown] at a time-out whose text the transport refuses
    with an [Error]. *)
Lemma error_is_rethrown_witness :
  exists st',
    collect lower cut_off 0 plain_handler plain_command (prompted yes_no)
      [Arrivals []; good] call None idle
    = (Thrown (ThError "Missing Permissions"), st').
Proof.
  assert (raised_in_catch lower cut_off 0 plain_handler (prompted yes_no) call
            None (merged_prompt plain_handler plain_command (prompted yes_no))
            false (Arrivals []) call 1 (init_values "choice" false idle)
            (ThError "Missing Permissions")) as Hraised.
  { eapply raised_by_timeout_send; reflexivity. }
  destruct (error_is_rethrown lower cut_off 0 plain_handler plain_command
              (prompted yes_no) [] (Arrivals []) [good] call None idle call 1 _
              (reaches_here _ _ _ _ _ _ _ _ _ _ _ _)) as [Hthrow _].
  exact (Hthrow _ (or_intror Hraised) eq_refl).
Defined.

(** [collect_shares_values] at a session that accumulates the value of one
    reply and then times out: the functions called in the second turn are
    given [args] with that value, and [args] holds it at the end. *)
Lemma collect_shares_values_witness :
  (fst (collect lower reliable 0 plain_handler plain_command
          (endless yes_no Infinity) [good; Arrivals []] call None idle)
   = Thrown ThCancelled
   /\ snapshot (snd (collect lower reliable 0 plain_handler plain_command
                       (endless yes_no Infinity) [good; Arrivals []]
                       call None idle))
      = <["choices" := VArray [VString "yes"]]> (snapshot idle))
  /\ exists evs,
       log (snd (turn lower reliable 0 plain_handler (endless yes_no Infinity)
                   call None
                   (merged_prompt plain_handler plain_command
                      (endless yes_no Infinity))
                   true (Some wrong) call 1
                   (push (VString "yes")
                      (casting (reply "202" "yes")
                         (awaiting default_prompt
                            (emit (CallSend ViaChannel (TextString "What is it?"))
                               (entered call 1
                                  (init_values "choices" true idle))))))))
       = log (push (VString "yes")
                (casting (reply "202" "yes")
                   (awaiting default_prompt
                      (emit (CallSend ViaChannel (TextString "What is it?"))
                         (entered call 1 (init_values "choices" true idle))))))
         ++ evs
       /\ Forall (sees (<["choices" := VArray [VString "yes"]]> (snapshot idle)))
            evs.
Proof.
  assert (session_reaches lower reliable 0 plain_handler plain_command
            (endless yes_no Infinity) [good] call None idle call 1
            (push (VString "yes")
               (casting (reply "202" "yes")
                  (awaiting default_prompt
                     (emit (CallSend ViaChannel (TextString "What is it?"))
                        (entered call 1 (init_values "choices" true idle)))))))
    as Hreach.
  { eapply reaches_next; [reflexivity|apply reaches_here]. }
  destruct (collect_shares_values lower reliable 0 plain_handler plain_command
              (endless yes_no Infinity) call None idle eq_refl)
    as (Hturn & _ & _ & Hend).
  split.
  - exact (Hend [good] (Arrivals []) [] call 1 _ [VString "yes"] ThCancelled
             Hreach eq_refl eq_refl).
  - destruct (Hturn [good] call 1 _ (Some wrong) Hreach)
      as (vs & evs & Hv & _ & _ & Hl & Hf & _).
    injection Hv as <-. by exists evs.
Defined.
